(** * we_panic_utils.nn.processing : sequence augmentation and batch generators

    A shallow embedding of [we_panic_utils/nn/processing.py].

    Conventions of the embedding.
    - Python floats and NumPy float64 scalars are the rationals they denote
      ([Q]).  Arithmetic on them is exact, except where the program tests
      the outcome of an addition or a subtraction for equality: there the
      operation is rounded to binary64 as Python rounds it ([binary64]),
      because the rounding decides the branch.  Python ints are [Z], sizes
      and axes are [nat].
    - A NumPy array built by [np.array] from a list is identified with that
      list; what the conversion adds is that it can raise.
    - Code that can raise returns a [result]; code that reads the random
      sources or prints runs in the monad [M] over an explicit [world].
    - NumPy, Keras, PIL and the [random] module are outside the repository.
      Their operations are the fields of the class [External]; what a
      theorem needs from them is an explicit hypothesis of that theorem.
    - A [dict] is an association list in insertion order, its keys without
      duplicates. *)

From Stdlib Require Import List String Ascii Bool Arith ZArith QArith Lia Lqa.
From Stdlib Require Import Qround Qabs Qpower.
From Stdlib Require Import Permutation DecimalString DecimalNat.
Import ListNotations.

Set Implicit Arguments.

(** ** Python values, exceptions and results *)

Inductive pyval : Type :=
| PyInt (z : Z)
| PyFloat (q : Q)
| PyBool (b : bool)
| PyStr (s : string)
| PyNone.

Inductive exn : Type :=
| AssertionError (msg : string)
| IOError
| IndexError
| KeyError
| ValueError
| TypeError
| UnboundLocalError
| StopIteration.

Inductive result (A : Type) : Type :=
| Ok (a : A)
| Raise (e : exn).

Arguments Ok {A} a.
Arguments Raise {A} e.

(** [type(v) == int], [type(v) == float], [type(v) == bool]: exact type
    tests, so a [bool] is not an [int] here. *)
Definition type_is_int (v : pyval) : bool :=
  match v with PyInt _ => true | _ => false end.
Definition type_is_float (v : pyval) : bool :=
  match v with PyFloat _ => true | _ => false end.
Definition type_is_bool (v : pyval) : bool :=
  match v with PyBool _ => true | _ => false end.

(** The numeric value of a Python number ([bool] is a number in Python). *)
Definition as_number (v : pyval) : option Q :=
  match v with
  | PyInt z => Some (inject_Z z)
  | PyFloat q => Some q
  | PyBool b => Some (if b then 1 else 0)
  | _ => None
  end.

(** A value used as a count ([k] of [random.sample]). *)
Definition as_index (v : pyval) : option Z :=
  match v with
  | PyInt z => Some z
  | PyBool b => Some (if b then 1%Z else 0%Z)
  | _ => None
  end.

Definition Qgt_bool (a b : Q) : bool := negb (Qle_bool a b).

(** ** Floating point

    The result of a float operation is the exact result rounded to the
    nearest binary64 value, a tie going to the value with the even
    significand. *)

(** The nearest integer, a tie going to the even one. *)
Definition round_half_even (x : Q) : Z :=
  let f := Qfloor x in
  match Qcompare (x - inject_Z f) (1 # 2) with
  | Lt => f
  | Gt => (f + 1)%Z
  | Eq => if Z.even f then f else (f + 1)%Z
  end.

(** The exponent of the binade of [q > 0]: the [e] with
    [2^e <= q < 2^(e+1)]. *)
Definition binade (q : Q) : Z :=
  if Qle_bool 1 q then Z.log2 (Qfloor q) else (- Z.log2_up (Qceiling (/ q)))%Z.

(** Rounding to binary64: 53 significant bits, and a spacing that stays
    at [2^-1074] below the exponent -1022.  Values beyond the largest float
    are not cut off: for every float [z] the numbers [1 - z] and [1 + z],
    the only ones rounded here, stay within range. *)
Definition binary64 (q : Q) : Q :=
  if Qeq_bool q 0 then 0
  else
    let e := Z.max (binade (Qabs q)) (-1022) in
    let ulp := 2 ^ (e - 52) in
    inject_Z (round_half_even (q / ulp)) * ulp.

(** ["%f" % q]: the sign, the integer part and six decimals of the exact
    value, rounded to the nearest, a tie going to the even digit. *)
Definition format_f (q : Q) : string :=
  let n := round_half_even (Qabs q * 1000000) in
  let digits := fun z : Z => NilEmpty.string_of_uint (N.to_uint (Z.to_N z)) in
  ((if Qle_bool 0 q then "" else "-")
   ++ digits (n / 1000000)%Z ++ "."
   ++ substring 1 6 (digits (n mod 1000000 + 1000000)%Z))%string.

(** ** The world: random sources and standard output *)

Definition matrix : Type := list (list Q).

Definition identity_matrix : matrix :=
  [[1; 0; 0]; [0; 1; 0]; [0; 0; 1]].

(** The operations of the libraries the module imports. *)
Class External : Type := {
  (** NumPy arrays and PIL images *)
  ndarray : Type;
  image : Type;
  np_shape : ndarray -> list nat;
  np_deg2rad : Q -> Q;
  np_cos : Q -> Q;
  np_sin : Q -> Q;
  np_swapaxes : ndarray -> nat -> nat -> ndarray;
  (** [x[::-1, ...]] *)
  np_reverse0 : ndarray -> ndarray;
  (** [(img_arr / 255.).astype(np.float32)] *)
  np_scale255 : ndarray -> ndarray;
  (** [np.array(X)] for a list [X] of sequences of frames: [None] when
      NumPy builds the array, the exception it raises otherwise (from
      NumPy 1.24 on a [ValueError] for sequences of unequal length; older
      versions build an array of objects instead) *)
  np_array_error : list (list ndarray) -> option exn;
  (** keras.preprocessing.image *)
  img_to_array : image -> ndarray;
  transform_matrix_offset_center : matrix -> nat -> nat -> matrix;
  apply_transform : ndarray -> matrix -> nat -> string -> Q -> ndarray;
  (** the state of Python's [random] module and the positions that
      [random.sample(population, k)] selects in a population of [n] *)
  py_random : Type;
  sample_positions : py_random -> nat -> nat -> list nat * py_random
}.

(** The documented contract of [random.sample]: [k] distinct positions of
    the population. *)
Definition sample_contract `{External} : Prop :=
  forall (s : py_random) (n k : nat),
    (k <= n)%nat ->
    let idx := fst (sample_positions s n k) in
    List.length idx = k /\ NoDup idx /\ Forall (fun j => (j < n)%nat) idx.

(** What the file system answers to [os.listdir] and to Keras's [load_img]
    ([None]: the call raises an [IOError]). *)
Record filesystem `{External} : Type := {
  os_listdir : string -> option (list string);
  load_img : string -> nat * nat -> option image
}.

(** A generator object: created and not yet started, suspended at its
    [yield] with its local variables, or finished (returned or raised). *)
Inductive generator (L : Type) : Type :=
| Created
| Suspended (locals : L)
| Finished.

Arguments Created {L}.
Arguments Suspended {L} locals.
Arguments Finished {L}.

Section Processing.

Context `{Ext : External}.
Variable fs : filesystem.

(** NumPy's global generator is a stream of unit draws in [[0, 1)] read at
    a cursor; the cursor counts the draws made so far. *)
Record world : Type := mkWorld {
  np_stream : nat -> Q;
  np_drawn : nat;
  py_state : py_random;
  stdout : list string
}.

Definition M (A : Type) : Type := world -> result A * world.

Definition ret {A} (a : A) : M A := fun w => (Ok a, w).

Definition raise {A} (e : exn) : M A := fun w => (Raise e, w).

Definition bind {A B} (m : M A) (k : A -> M B) : M B :=
  fun w =>
    match m w with
    | (Ok a, w') => k a w'
    | (Raise e, w') => (Raise e, w')
    end.

Notation "x <- m ;; k" := (bind m (fun x => k))
  (at level 61, m at next level, right associativity).
Notation "m ;;; k" := (bind m (fun _ => k))
  (at level 61, right associativity).

Definition lift_option {A} (e : exn) (o : option A) : M A :=
  match o with
  | Some a => ret a
  | None => raise e
  end.

(** [l[i]] *)
Definition index {A} (l : list A) (i : nat) : M A :=
  lift_option IndexError (nth_error l i).

Fixpoint mapM {A B} (f : A -> M B) (l : list A) : M (list B) :=
  match l with
  | [] => ret []
  | a :: l' =>
      b <- f a ;;
      bs <- mapM f l' ;;
      ret (b :: bs)
  end.

(** [print(s)] *)
Definition print (s : string) : M unit :=
  fun w => (Ok tt, mkWorld (np_stream w) (np_drawn w) (py_state w) (stdout w ++ [s])).

(** [np.random.random_sample()] *)
Definition np_random_sample : M Q :=
  fun w => (Ok (np_stream w (np_drawn w)),
            mkWorld (np_stream w) (S (np_drawn w)) (py_state w) (stdout w)).

(** [np.random.uniform(low, high)] *)
Definition np_random_uniform (low high : Q) : M Q :=
  u <- np_random_sample ;;
  ret (low + (high - low) * u).

(** [np.random.uniform(low, high, 2)] *)
Definition np_random_uniform2 (low high : Q) : M (Q * Q) :=
  a <- np_random_uniform low high ;;
  b <- np_random_uniform low high ;;
  ret (a, b).

(** [random.sample(population, k)]: [ValueError] unless [0 <= k <= n], and
    a [k] that is no integer fails when the result list is allocated. *)
Definition random_sample {A} (population : list A) (k : pyval) : M (list A) :=
  match as_index k with
  | None =>
      match k with
      | PyFloat q =>
          if (Qle_bool 0 q
              && Qle_bool q (inject_Z (Z.of_nat (List.length population))))%bool
          then raise TypeError else raise ValueError
      | _ => raise TypeError
      end
  | Some z =>
      if ((0 <=? z)%Z && (z <=? Z.of_nat (List.length population))%Z)%bool then
        fun w =>
          let '(idx, s') :=
            sample_positions (py_state w) (List.length population) (Z.to_nat z) in
          mapM (index population) idx
               (mkWorld (np_stream w) (np_drawn w) s' (stdout w))
      else raise ValueError
  end.

(** ** Sequence transforms *)

(** Keyword arguments of the transforms; [None] leaves the default of the
    function in force. *)
Record kwargs : Type := mkKwargs {
  kw_row_axis : option nat;
  kw_col_axis : option nat;
  kw_channel_axis : option nat;
  kw_fill_mode : option string;
  kw_cval : option Q
}.

Definition no_kwargs : kwargs := mkKwargs None None None None None.

Definition default {A} (d : A) (o : option A) : A :=
  match o with Some a => a | None => d end.

(** [h, w = seq[0].shape[row_axis], seq[0].shape[col_axis]] *)
Definition frame_size (seq : list ndarray) (row_axis col_axis : nat) : M (nat * nat) :=
  x0 <- index seq 0 ;;
  h <- index (np_shape x0) row_axis ;;
  x0' <- index seq 0 ;;
  w <- index (np_shape x0') col_axis ;;
  ret (h, w).

(** [[apply_transform(x, transform_matrix, channel_axis, fill_mode, cval) for x in seq]] *)
Definition apply_to_sequence (seq : list ndarray) (transform_matrix : matrix)
    (channel_axis : nat) (fill_mode : string) (cval : Q) : list ndarray :=
  map (fun x => apply_transform x transform_matrix channel_axis fill_mode cval) seq.

Definition rotation_matrix_of (theta : Q) : matrix :=
  [[np_cos theta; - np_sin theta; 0];
   [np_sin theta; np_cos theta; 0];
   [0; 0; 1]].

Definition random_sequence_rotation (seq : list ndarray) (rotation_range : Q)
    (kw : kwargs) : M (list ndarray) :=
  let row_axis := default 0%nat (kw_row_axis kw) in
  let col_axis := default 1%nat (kw_col_axis kw) in
  let channel_axis := default 2%nat (kw_channel_axis kw) in
  let fill_mode := default "nearest"%string (kw_fill_mode kw) in
  let cval := default 0 (kw_cval kw) in
  u <- np_random_uniform (- rotation_range) rotation_range ;;
  let theta := np_deg2rad u in
  let rotation_matrix := rotation_matrix_of theta in
  hw <- frame_size seq row_axis col_axis ;;
  let transform_matrix :=
    transform_matrix_offset_center rotation_matrix (fst hw) (snd hw) in
  ret (apply_to_sequence seq transform_matrix channel_axis fill_mode cval).

Definition translation_matrix_of (tx ty : Q) : matrix :=
  [[1; 0; tx];
   [0; 1; ty];
   [0; 0; 1]].

Definition random_sequence_shift (seq : list ndarray)
    (height_shift_range width_shift_range : Q) (kw : kwargs) : M (list ndarray) :=
  let row_axis := default 0%nat (kw_row_axis kw) in
  let col_axis := default 1%nat (kw_col_axis kw) in
  let channel_axis := default 2%nat (kw_channel_axis kw) in
  let fill_mode := default "nearest"%string (kw_fill_mode kw) in
  let cval := default 0 (kw_cval kw) in
  hw <- frame_size seq row_axis col_axis ;;
  u <- np_random_uniform (- height_shift_range) height_shift_range ;;
  let tx := u * inject_Z (Z.of_nat (fst hw)) in
  v <- np_random_uniform (- width_shift_range) width_shift_range ;;
  let ty := v * inject_Z (Z.of_nat (snd hw)) in
  let translation_matrix := translation_matrix_of tx ty in
  let transform_matrix := translation_matrix in
  ret (apply_to_sequence seq transform_matrix channel_axis fill_mode cval).

Definition shear_matrix_of (shear : Q) : matrix :=
  [[1; - np_sin shear; 0];
   [0; np_cos shear; 0];
   [0; 0; 1]].

Definition random_sequence_shear (seq : list ndarray) (shear_range : Q)
    (kw : kwargs) : M (list ndarray) :=
  let row_axis := default 0%nat (kw_row_axis kw) in
  let col_axis := default 1%nat (kw_col_axis kw) in
  let channel_axis := default 2%nat (kw_channel_axis kw) in
  let fill_mode := default "nearest"%string (kw_fill_mode kw) in
  let cval := default 0 (kw_cval kw) in
  u <- np_random_uniform (- shear_range) shear_range ;;
  let shear := np_deg2rad u in
  let shear_matrix := shear_matrix_of shear in
  hw <- frame_size seq row_axis col_axis ;;
  let transform_matrix :=
    transform_matrix_offset_center shear_matrix (fst hw) (snd hw) in
  ret (apply_to_sequence seq transform_matrix channel_axis fill_mode cval).

Definition zoom_matrix_of (zx zy : Q) : matrix :=
  [[zx; 0; 0];
   [0; zy; 0];
   [0; 0; 1]].

(** [zx, zy] of [random_sequence_zoom]: the constants [1, 1] when the
    floats [zlower] and [zupper] both equal 1, one call for two uniform
    values otherwise. *)
Definition zoom_factors (zoom_range : Q) : M (Q * Q) :=
  let zlower := binary64 (1 - zoom_range) in
  let zupper := binary64 (1 + zoom_range) in
  if (Qeq_bool zlower 1 && Qeq_bool zupper 1)%bool then ret (1, 1)
  else np_random_uniform2 zlower zupper.

Definition random_sequence_zoom (seq : list ndarray) (zoom_range : Q)
    (kw : kwargs) : M (list ndarray) :=
  let row_axis := default 0%nat (kw_row_axis kw) in
  let col_axis := default 1%nat (kw_col_axis kw) in
  let channel_axis := default 1%nat (kw_channel_axis kw) in
  let fill_mode := default "nearest"%string (kw_fill_mode kw) in
  let cval := default 0 (kw_cval kw) in
  z <- zoom_factors zoom_range ;;
  let zoom_matrix := zoom_matrix_of (fst z) (snd z) in
  hw <- frame_size seq row_axis col_axis ;;
  let transform_matrix :=
    transform_matrix_offset_center zoom_matrix (fst hw) (snd hw) in
  ret (apply_to_sequence seq transform_matrix channel_axis fill_mode cval).

(** [swapaxes] raises for an axis the array does not have.  The frames
    are arrays of three axes and the generator flips along the axes 1 and
    2, so that the case does not arise and is left out. *)
Definition sequence_flip_axis (seq : list ndarray) (axis : nat) : list ndarray :=
  let seq1 := map (fun x => np_swapaxes x axis 0%nat) seq in
  let seq2 := map (fun x => np_reverse0 x) seq1 in
  let seq3 := map (fun x => np_swapaxes x 0%nat axis) seq2 in
  seq3.

(** ** Sequence assembly *)

(** ["frame%d.png" % i] *)
Definition frame_name (i : nat) : string :=
  ("frame" ++ NilEmpty.string_of_uint (Nat.to_uint i) ++ ".png")%string.

Fixpoint ends_with_slash (s : string) : bool :=
  match s with
  | EmptyString => false
  | String c EmptyString => Ascii.eqb c "/"%char
  | String _ rest => ends_with_slash rest
  end.

(** [os.path.join(a, b)] for a relative [b] (a frame name is one). *)
Definition os_path_join (a b : string) : string :=
  match a with
  | EmptyString => b
  | _ => if ends_with_slash a then (a ++ b)%string else (a ++ "/" ++ b)%string
  end.

Definition get_sample_frames (sample : string) : M (list string) :=
  contents <- lift_option IOError (os_listdir fs sample) ;;
  let max_frame := List.length contents in
  let filenames := map (fun i => os_path_join sample (frame_name i)) (seq 0 max_frame) in
  ret filenames.

Definition process_img (frame : string) (input_shape : nat * nat * nat) : M ndarray :=
  let '(h_, w_, _) := input_shape in
  image <- lift_option IOError (load_img fs frame (h_, w_)) ;;
  let img_arr := img_to_array image in
  let x := np_scale255 img_arr in
  ret x.

Definition build_image_sequence (frames : list string)
    (input_shape : option (nat * nat * nat)) : M (list ndarray) :=
  let input_shape := default (224, 224, 3)%nat input_shape in
  mapM (fun frame => process_img frame input_shape) frames.

(** ** FrameProcessor *)

(** The arguments of the constructor, as the caller passes them. *)
Record init_args : Type := mkArgs {
  arg_rotation_range : pyval;
  arg_width_shift_range : pyval;
  arg_height_shift_range : pyval;
  arg_shear_range : pyval;
  arg_zoom_range : pyval;
  arg_horizontal_flip : pyval;
  arg_vertical_flip : pyval;
  arg_batch_size : pyval
}.

Definition default_args : init_args :=
  mkArgs (PyInt 0) (PyFloat 0) (PyFloat 0) (PyFloat 0) (PyFloat 0)
         (PyBool false) (PyBool false) (PyInt 4).

(** The attributes of a constructed object.  The assertions of [__init__]
    fix the dynamic type of six of them; [shear_range] and [batch_size]
    are stored unchecked. *)
Record FrameProcessor : Type := mkFrameProcessor {
  rotation_range : Z;
  width_shift_range : Q;
  height_shift_range : Q;
  shear_range : pyval;
  zoom_range : Q;
  horizontal_flip : bool;
  vertical_flip : bool;
  batch_size : pyval
}.

Definition __init__ (a : init_args) : result FrameProcessor :=
  match arg_rotation_range a with
  | PyInt rotation_range =>
  match arg_width_shift_range a with
  | PyFloat width_shift_range =>
  if negb (Qle_bool width_shift_range 1 && Qle_bool 0 width_shift_range) then
    Raise (AssertionError ("width_shift_range should be in [0, 1], got "
                           ++ format_f width_shift_range))
  else
  match arg_height_shift_range a with
  | PyFloat height_shift_range =>
  if negb (Qle_bool height_shift_range 1 && Qle_bool 0 height_shift_range) then
    Raise (AssertionError ("width_shift_range should be in [0, 1], got "
                           ++ format_f height_shift_range))
  else
  match arg_zoom_range a with
  | PyFloat zoom_range =>
  match arg_horizontal_flip a with
  | PyBool horizontal_flip =>
  match arg_vertical_flip a with
  | PyBool vertical_flip =>
      Ok (mkFrameProcessor rotation_range width_shift_range height_shift_range
            (arg_shear_range a) zoom_range horizontal_flip vertical_flip
            (arg_batch_size a))
  | _ => Raise (AssertionError "vertical_flip should be a boolean")
  end
  | _ => Raise (AssertionError "horizontal_flip should be a boolean")
  end
  | _ => Raise (AssertionError "zoom_range should be a float")
  end
  | _ => Raise (AssertionError "height_shift_range should be a float")
  end
  | _ => Raise (AssertionError "width_shift_range should be a float")
  end
  | _ => Raise (AssertionError "rotation_range should be integer valued")
  end.

(** *** The checks of the constructor, in two readings *)

Definition in_unit_interval (q : Q) : bool := Qle_bool q 1 && Qle_bool 0 q.

(** The configurations the specification calls invalid, in its words:
    [rotation_range] negative or non-integer, a shift range outside
    [[0, 1]], a negative [zoom_range], a non-boolean flip flag. *)
Definition spec_invalid (a : init_args) : bool :=
  (match arg_rotation_range a with PyInt z => (z <? 0)%Z | _ => true end)
  || (match as_number (arg_width_shift_range a) with
      | Some q => negb (in_unit_interval q) | None => true end)
  || (match as_number (arg_height_shift_range a) with
      | Some q => negb (in_unit_interval q) | None => true end)
  || (match as_number (arg_zoom_range a) with
      | Some q => negb (Qle_bool 0 q) | None => false end)
  || negb (type_is_bool (arg_horizontal_flip a))
  || negb (type_is_bool (arg_vertical_flip a)).

(** The configurations the assertions of [__init__] let through. *)
Definition passes_assertions (a : init_args) : bool :=
  type_is_int (arg_rotation_range a)
  && (match arg_width_shift_range a with
      | PyFloat q => in_unit_interval q | _ => false end)
  && (match arg_height_shift_range a with
      | PyFloat q => in_unit_interval q | _ => false end)
  && type_is_float (arg_zoom_range a)
  && type_is_bool (arg_horizontal_flip a)
  && type_is_bool (arg_vertical_flip a).

(** [FrameProcessor(rotation_range=-5)] *)
Definition args_negative_rotation : init_args :=
  mkArgs (PyInt (-5)) (PyFloat 0) (PyFloat 0) (PyFloat 0) (PyFloat 0)
         (PyBool false) (PyBool false) (PyInt 4).

(** [FrameProcessor(zoom_range=-0.5)] *)
Definition args_negative_zoom : init_args :=
  mkArgs (PyInt 0) (PyFloat 0) (PyFloat 0) (PyFloat 0) (PyFloat (- (1 # 2)))
         (PyBool false) (PyBool false) (PyInt 4).

(** [FrameProcessor(width_shift_range=1)] *)
Definition args_int_width_shift : init_args :=
  mkArgs (PyInt 0) (PyInt 1) (PyFloat 0) (PyFloat 0) (PyFloat 0)
         (PyBool false) (PyBool false) (PyInt 4).

(** ** Generators *)

Definition label : Type := (Q * Q)%type.

(** [paths2labels] *)
Definition dict : Type := list (string * label).

(** [[pth for pth in paths2labels]] *)
Definition dict_keys (d : dict) : list string := map fst d.

Fixpoint dict_get (d : dict) (k : string) : option label :=
  match d with
  | [] => None
  | (k', v) :: d' => if String.eqb k k' then Some v else dict_get d' k
  end.

(** [paths2labels[pth]] *)
Definition getitem (d : dict) (k : string) : M label :=
  lift_option KeyError (dict_get d k).

(** [next(g)] for a generator whose body is [start] followed by
    [while 1: loop], with one [yield] at the end of [loop]. *)
Definition next {L Y} (start : M L) (loop : L -> M (Y * L)) (g : generator L)
    : world -> result Y * generator L * world :=
  fun w =>
    let resume (l : L) (w : world) :=
      match loop l w with
      | (Ok (y, l'), w') => (Ok y, Suspended l', w')
      | (Raise e, w') => (Raise e, Finished, w')
      end in
    match g with
    | Created =>
        match start w with
        | (Ok l, w') => resume l w'
        | (Raise e, w') => (Raise e, Finished, w')
        end
    | Suspended l => resume l w
    | Finished => (Raise StopIteration, Finished, w)
    end.

Definition decimal (n : nat) : string := NilEmpty.string_of_uint (Nat.to_uint n).

(** *** testing_generator *)

Record testing_locals : Type := mkTestingLocals {
  t_sequence_paths : list string;
  t_current : nat
}.

Definition testing_start (paths2labels : dict) (generator_type : string)
    : M testing_locals :=
  print ("[*] creating a " ++ generator_type ++ " testing generator with "
         ++ decimal (List.length paths2labels) ++ " samples")%string ;;;
  let sequence_paths := dict_keys paths2labels in
  let current := 0%nat in
  ret (mkTestingLocals sequence_paths current).

(** One turn of [while 1].  [X] holds a single sequence, whose frames
    [load_img] has brought to one size, and [y] a pair of numbers: the two
    conversions [np.array(X)] and [np.array(y)] at the [yield] have nothing
    to raise on. *)
Definition testing_loop (paths2labels : dict) (l : testing_locals)
    : M ((list (list ndarray) * label) * testing_locals) :=
  let sequence_paths := t_sequence_paths l in
  let current := t_current l in
  let X := [] in
  selected_path <- index sequence_paths current ;;
  y <- getitem paths2labels selected_path ;;
  frames <- get_sample_frames selected_path ;;
  sequence <- build_image_sequence frames None ;;
  let X := X ++ [sequence] in
  print selected_path ;;;
  let current := (current + 1)%nat in
  let current :=
    if (current =? List.length sequence_paths)%nat then 0%nat else current in
  ret ((X, y), mkTestingLocals sequence_paths current).

Definition testing_generator (self : FrameProcessor) (paths2labels : dict)
    (generator_type : string) : generator testing_locals := Created.

Definition testing_generator_next (self : FrameProcessor) (paths2labels : dict)
    (generator_type : string) :=
  next (testing_start paths2labels generator_type) (testing_loop paths2labels).

(** *** frame_generator *)

(** The local [coin_flip] is bound only once the vertical-flip branch has
    run; it then keeps its value from one sample, and one pull, to the next. *)
Record frame_locals : Type := mkFrameLocals {
  f_sequence_paths : list string;
  f_coin_flip : option bool
}.

Definition frame_start (paths2labels : dict) (generator_type : string)
    : M frame_locals :=
  print ("[*] creating a " ++ generator_type ++ " generator with "
         ++ decimal (List.length paths2labels) ++ " samples")%string ;;;
  let sequence_paths := dict_keys paths2labels in
  ret (mkFrameLocals sequence_paths None).

Definition rotation_step (self : FrameProcessor) (sequence : list ndarray)
    : M (list ndarray) :=
  if Qgt_bool (inject_Z (rotation_range self)) 0 then
    random_sequence_rotation sequence (inject_Z (rotation_range self)) no_kwargs
  else ret sequence.

Definition shift_step (self : FrameProcessor) (sequence : list ndarray)
    : M (list ndarray) :=
  if (Qgt_bool (width_shift_range self) 0 || Qgt_bool (height_shift_range self) 0)%bool then
    random_sequence_shift sequence (width_shift_range self) (height_shift_range self)
                          no_kwargs
  else ret sequence.

Definition shear_step (self : FrameProcessor) (sequence : list ndarray)
    : M (list ndarray) :=
  shear <- lift_option TypeError (as_number (shear_range self)) ;;
  if Qgt_bool shear 0 then random_sequence_shear sequence shear no_kwargs
  else ret sequence.

Definition zoom_step (self : FrameProcessor) (sequence : list ndarray)
    : M (list ndarray) :=
  if Qgt_bool (zoom_range self) 0 then
    random_sequence_zoom sequence (zoom_range self) no_kwargs
  else ret sequence.

Definition vertical_flip_step (self : FrameProcessor) (sequence : list ndarray)
    (coin_flip : option bool) : M (list ndarray * option bool) :=
  if vertical_flip self then
    r <- np_random_sample ;;
    let coin_flip := Qgt_bool r (1 # 2) in
    if coin_flip then ret (sequence_flip_axis sequence 1, Some coin_flip)
    else ret (sequence, Some coin_flip)
  else ret (sequence, coin_flip).

(** The statement [coin_flip - np.random.random_sample() > 0.5] reads
    [coin_flip], draws, and drops the value of the comparison. *)
Definition horizontal_flip_step (self : FrameProcessor) (sequence : list ndarray)
    (coin_flip : option bool) : M (list ndarray * option bool) :=
  if horizontal_flip self then
    c <- lift_option UnboundLocalError coin_flip ;;
    r <- np_random_sample ;;
    let _ := Qgt_bool ((if c then 1 else 0) - r) (1 # 2) in
    c' <- lift_option UnboundLocalError coin_flip ;;
    if c' then ret (sequence_flip_axis sequence 2, coin_flip)
    else ret (sequence, coin_flip)
  else ret (sequence, coin_flip).

(** The body of [for pth in selected_paths] for one path. *)
Definition frame_sample (self : FrameProcessor) (pth : string)
    (coin_flip : option bool) : M (list ndarray * option bool) :=
  frames <- get_sample_frames pth ;;
  sequence <- build_image_sequence frames None ;;
  sequence <- rotation_step self sequence ;;
  sequence <- shift_step self sequence ;;
  sequence <- shear_step self sequence ;;
  sequence <- zoom_step self sequence ;;
  sc <- vertical_flip_step self sequence coin_flip ;;
  sc <- horizontal_flip_step self (fst sc) (snd sc) ;;
  ret sc.

Fixpoint frame_samples (self : FrameProcessor) (selected_paths : list string)
    (X : list (list ndarray)) (coin_flip : option bool)
    : M (list (list ndarray) * option bool) :=
  match selected_paths with
  | [] => ret (X, coin_flip)
  | pth :: rest =>
      sc <- frame_sample self pth coin_flip ;;
      frame_samples self rest (X ++ [fst sc]) (snd sc)
  end.

(** [np.array(X)] at the [yield] *)
Definition np_array (X : list (list ndarray)) : M unit :=
  match np_array_error X with
  | Some e => raise e
  | None => ret tt
  end.

(** One turn of [while 1].  The labels are pairs of numbers, so that
    [np.array(y)] has nothing to raise on. *)
Definition frame_loop (self : FrameProcessor) (paths2labels : dict)
    (l : frame_locals)
    : M ((list (list ndarray) * list label) * frame_locals) :=
  let sequence_paths := f_sequence_paths l in
  let X := [] in
  selected_paths <- random_sample sequence_paths (batch_size self) ;;
  y <- mapM (getitem paths2labels) selected_paths ;;
  Xc <- frame_samples self selected_paths X (f_coin_flip l) ;;
  np_array (fst Xc) ;;;
  ret ((fst Xc, y), mkFrameLocals sequence_paths (snd Xc)).

Definition frame_generator (self : FrameProcessor) (paths2labels : dict)
    (generator_type : string) : generator frame_locals := Created.

Definition frame_generator_next (self : FrameProcessor) (paths2labels : dict)
    (generator_type : string) :=
  next (frame_start paths2labels generator_type) (frame_loop self paths2labels).

(** ** Pulling a generator repeatedly *)

(** The outcome of pull number [n] (counted from 0) in a run of
    consecutive [next] calls that starts at generator state [g]. *)
Fixpoint pull_nth {L Y} (nxt : generator L -> world -> result Y * generator L * world)
    (n : nat) (g : generator L) (w : world) : result Y * generator L * world :=
  match n with
  | O => nxt g w
  | S n' =>
      match nxt g w with
      | (_, g', w') => pull_nth nxt n' g' w'
      end
  end.

(** The two statements with which both generators assemble a sample:
    [frames = get_sample_frames(pth); sequence = build_image_sequence(frames)]. *)
Definition assemble (pth : string) : M (list ndarray) :=
  frames <- get_sample_frames pth ;;
  build_image_sequence frames None.

(** The world after [n] more unit draws from NumPy's generator. *)
Definition after_draws (n : nat) (w : world) : world :=
  mkWorld (np_stream w) (np_drawn w + n) (py_state w) (stdout w).

(** The [i]-th unit draw counted from the cursor of [w]. *)
Definition draw (w : world) (i : nat) : Q := np_stream w (np_drawn w + i).

(** [run] consumes exactly [n] unit draws and returns [seq] with one and
    the same matrix applied to each of its frames. *)
Definition coherent (run : M (list ndarray)) (seq : list ndarray) (n : nat)
    (w : world) : Prop :=
  exists (transform_matrix : matrix) (channel_axis : nat) (fill_mode : string) (cval : Q),
    run w
    = (Ok (map (fun x => apply_transform x transform_matrix channel_axis fill_mode cval)
               seq),
       after_draws n w).

(** Half the distance from 1 to the float below it.  A [zoom_range] of at
    most this magnitude is absorbed by the rounding of both [1 - zoom_range]
    and [1 + zoom_range]. *)
Definition absorbed_range : Q := 2 ^ (-54).

(** The number of unit draws of one call of [random_sequence_zoom]. *)
Definition zoom_draws (zoom_range : Q) : nat :=
  if Qle_bool (Qabs zoom_range) absorbed_range then 0%nat else 2%nat.

(** The size [load_img] is asked for. *)
Definition target_size (input_shape : option (nat * nat * nat)) : nat * nat :=
  let '(h_, w_, _) := default (224, 224, 3)%nat input_shape in (h_, w_).

(** The sample directory convention of the generators: the directory can
    be listed and, for each index below its number of entries, the frame
    of that index loads. *)
Definition well_formed_sample (pth : string) : Prop :=
  exists contents,
    os_listdir fs pth = Some contents
    /\ forall i, (i < List.length contents)%nat ->
         load_img fs (os_path_join pth (frame_name i)) (target_size None) <> None.

(** The random sources of [w'] are those of [w]. *)
Definition same_random (w w' : world) : Prop :=
  np_stream w' = np_stream w /\ np_drawn w' = np_drawn w /\ py_state w' = py_state w.

(** A sample on which every transform can run: it assembles to a non-empty
    sequence of frames of one shape with a row and a column axis. *)
Definition augmentable_sample (pth : string) : Prop :=
  exists (sequence : list ndarray) (shp : list nat),
    (forall w, assemble pth w = (Ok sequence, w))
    /\ sequence <> []
    /\ Forall (fun x => np_shape x = shp) sequence
    /\ (2 <= List.length shp)%nat.

(** [x] is what one run of the loop body of [frame_generator] makes of the
    sample at [pth]. *)
Definition sampled_from (self : FrameProcessor) (pth : string) (x : list ndarray)
    : Prop :=
  exists coin_flip coin_flip' w w',
    frame_sample self pth coin_flip w = (Ok (x, coin_flip'), w').

(** A batch of [b] samples drawn from distinct keys of the mapping, each
    label next to the sequence of its own key. *)
Definition batch_ok (self : FrameProcessor) (paths2labels : dict) (b : nat)
    (batch : list (list ndarray) * list label) : Prop :=
  let (X, y) := batch in
  List.length X = b
  /\ List.length y = b
  /\ exists selected_paths,
       NoDup selected_paths
       /\ incl selected_paths (dict_keys paths2labels)
       /\ Forall2 (fun pth lbl => dict_get paths2labels pth = Some lbl) selected_paths y
       /\ Forall2 (sampled_from self) selected_paths X.

(** A sequence the transforms accept: non-empty, of one shape, with a row
    and a column axis. *)
Definition transformable (shp : list nat) (seq : list ndarray) : Prop :=
  seq <> [] /\ Forall (fun x => np_shape x = shp) seq /\ (2 <= List.length shp)%nat.

(** *** Notions for the further properties *)

(** Every unit draw of NumPy's generator lies in [[0, 1)]. *)
Definition unit_draws (w : world) : Prop :=
  forall n, 0 <= np_stream w n /\ np_stream w n < 1.

(** From [w] to [w'] NumPy's generator made [n] unit draws; the other
    components of the world are free. *)
Definition np_advanced (n : nat) (w w' : world) : Prop :=
  np_stream w' = np_stream w /\ np_drawn w' = (np_drawn w + n)%nat.

(** The unit draws one sample costs in [frame_generator], step by step. *)
Definition rotation_draws (self : FrameProcessor) : nat :=
  if Qgt_bool (inject_Z (rotation_range self)) 0 then 1%nat else 0%nat.

Definition shift_draws (self : FrameProcessor) : nat :=
  if (Qgt_bool (width_shift_range self) 0 || Qgt_bool (height_shift_range self) 0)%bool
  then 2%nat else 0%nat.

Definition shear_draws (self : FrameProcessor) : nat :=
  match as_number (shear_range self) with
  | Some shear => if Qgt_bool shear 0 then 1%nat else 0%nat
  | None => 0%nat
  end.

(** The zoom step runs for a positive [zoom_range] and draws unless the
    range is absorbed. *)
Definition zoom_step_draws (self : FrameProcessor) : nat :=
  if Qgt_bool (zoom_range self) absorbed_range then 2%nat else 0%nat.

Definition flip_draws (self : FrameProcessor) : nat :=
  ((if vertical_flip self then 1 else 0) + (if horizontal_flip self then 1 else 0))%nat.

Definition draws_per_sample (self : FrameProcessor) : nat :=
  (rotation_draws self + shift_draws self + shear_draws self
   + zoom_step_draws self + flip_draws self)%nat.

(** The banner a generator prints when its body starts. *)
Definition testing_banner (paths2labels : dict) (generator_type : string) : string :=
  ("[*] creating a " ++ generator_type ++ " testing generator with "
   ++ decimal (List.length paths2labels) ++ " samples")%string.

(** The states a [frame_generator] of this mapping can be in. *)
Definition frame_state_ok (paths2labels : dict) (g : generator frame_locals) : Prop :=
  match g with
  | Suspended l => f_sequence_paths l = dict_keys paths2labels
  | _ => True
  end.

(** What a yielded batch always satisfies. *)
Definition yielded_ok (self : FrameProcessor) (paths2labels : dict)
    (batch : list (list ndarray) * list label) : Prop :=
  exists b,
    as_index (batch_size self) = Some b
    /\ (0 <= b <= Z.of_nat (List.length paths2labels))%Z
    /\ batch_ok self paths2labels (Z.to_nat b) batch.

(** The states a [testing_generator] of this mapping can be in. *)
Definition testing_state_ok (paths2labels : dict) (g : generator testing_locals)
    : Prop :=
  match g with
  | Suspended l =>
      t_sequence_paths l = dict_keys paths2labels
      /\ (t_current l < List.length paths2labels)%nat
  | _ => True
  end.

(** What a pull of [testing_generator] can come to. *)
Definition testing_outcome (paths2labels : dict) (later : Prop)
    (r : result (list (list ndarray) * label)) : Prop :=
  match r with
  | Ok (X, y) => List.length X = 1%nat /\ In y (map snd paths2labels)
  | Raise e =>
      e = IOError
      \/ (e = IndexError /\ paths2labels = [])
      \/ (e = StopIteration /\ later)
  end.

(** [np.random.uniform(low, high)] at the [i]-th unit draw from [w]. *)
Definition uniform_at (low high : Q) (w : world) (i : nat) : Q :=
  low + (high - low) * draw w i.

(** A step that returns after exactly [k] unit draws and prints nothing;
    it keeps the number of frames and their shape. *)
Definition step_draws (step : list ndarray -> M (list ndarray)) (k : nat) : Prop :=
  forall shp seq w,
    transformable shp seq ->
    exists seq',
      step seq w = (Ok seq', after_draws k w)
      /\ transformable shp seq'
      /\ List.length seq' = List.length seq.

(** A batch that is one block: its sequences have one length and their
    frames one shape. *)
Definition rectangular (X : list (list ndarray)) : Prop :=
  exists (count : nat) (shp : list nat),
    Forall (fun sequence =>
              List.length sequence = count
              /\ Forall (fun x => np_shape x = shp) sequence) X.

(** Samples that all assemble to [count] frames of the shape [shp]. *)
Definition uniform_samples (paths2labels : dict) (count : nat) (shp : list nat)
    : Prop :=
  forall pth,
    In pth (dict_keys paths2labels) ->
    exists sequence,
      (forall w, assemble pth w = (Ok sequence, w))
      /\ List.length sequence = count
      /\ Forall (fun x => np_shape x = shp) sequence.

(** [sequence] with [transform_matrix] applied to each frame, by Keras's
    [apply_transform] with the fill mode and fill value of the defaults. *)
Definition each_frame (transform_matrix : matrix) (channel_axis : nat)
    (sequence : list ndarray) : list ndarray :=
  map (fun x => apply_transform x transform_matrix channel_axis "nearest" 0) sequence.

(** The four affine steps of one sample, all of them drawing, for frames
    of [height] by [width]: rotation with the first unit draw from [w],
    shift with the next two, shear with the fourth, zoom with the fifth
    and sixth, each applied to the outcome of the one before. *)
Definition affine_pipeline (self : FrameProcessor) (shear : Q) (height width : nat)
    (w : world) (sequence : list ndarray) : list ndarray :=
  let r := inject_Z (rotation_range self) in
  let wsr := width_shift_range self in
  let hsr := height_shift_range self in
  let zlower := binary64 (1 - zoom_range self) in
  let zupper := binary64 (1 + zoom_range self) in
  let rotated :=
    each_frame
      (transform_matrix_offset_center
         (rotation_matrix_of (np_deg2rad (uniform_at (- r) r w 0))) height width)
      2 sequence in
  let shifted :=
    each_frame
      (translation_matrix_of
         (uniform_at (- wsr) wsr w 1 * inject_Z (Z.of_nat height))
         (uniform_at (- hsr) hsr w 2 * inject_Z (Z.of_nat width)))
      2 rotated in
  let sheared :=
    each_frame
      (transform_matrix_offset_center
         (shear_matrix_of (np_deg2rad (uniform_at (- shear) shear w 3))) height width)
      2 shifted in
  each_frame
    (transform_matrix_offset_center
       (zoom_matrix_of (uniform_at zlower zupper w 4) (uniform_at zlower zupper w 5))
       height width)
    1 sheared.

End Processing.

(** ** threadsafe_iterator under concurrent callers

    An interleaving model of threads that call [__next__] on wrapped
    generators.  A scheduler event lets one thread take its next atomic
    step; the steps follow the two lines of [__next__]:
    [with self.lock:] (acquire, blocking), [next(self.iterator)] (enter
    the generator, run its body to the [yield]), and the exit of the
    [with] block (release, also when an exception propagates). *)
Module Threadsafe.

(** What CPython keeps for a generator object: whether its frame is
    executing (a second [next] then raises [ValueError: generator already
    executing]) and whether it has finished. *)
Record gen_status : Type := mkStatus {
  gi_running : bool;
  gi_finished : bool
}.

Record threadsafe_iterator : Type := mkIterator {
  iterator : gen_status;
  (** [threading.Lock()]: [true] while held *)
  lock : bool
}.

(** [threadsafe_iterator.__init__] *)
Definition threadsafe_iterator_init (iterator : gen_status) : threadsafe_iterator :=
  mkIterator iterator false.

(** The decorator: every call of the decorated function wraps the new
    generator in an iterator of its own, with a lock of its own. *)
Definition threadsafe_generator {A} (func : A -> gen_status) : A -> threadsafe_iterator :=
  fun a => threadsafe_iterator_init (func a).

(** A generator function: a call creates a generator that has not started. *)
Definition generator_function (_ : unit) : gen_status := mkStatus false false.

Inductive outcome : Type :=
| Returned
| Raised (e : exn).

(** Where a thread stands with respect to a call [it.__next__()]. *)
Inductive pc : Type :=
| Idle
| AtWith (it : nat)
| AtNext (it : nat)
| InGenerator (it : nat)
| AtExit (it : nat) (r : outcome).

Record state : Type := mkState {
  iterators : nat -> threadsafe_iterator;
  threads : nat -> pc;
  (** finished calls: thread, iterator, outcome *)
  log : list (nat * nat * outcome)
}.

(** One scheduling decision: the thread that runs; the iterator it calls
    if it is idle; whether the generator body, if it is the step taken,
    ends in an exception rather than at its [yield]. *)
Record event : Type := mkEvent {
  ev_thread : nat;
  ev_iterator : nat;
  ev_body_raises : bool
}.

Definition update {A} (f : nat -> A) (k : nat) (v : A) : nat -> A :=
  fun k' => if (k' =? k)%nat then v else f k'.

Definition set_lock (it : threadsafe_iterator) (b : bool) : threadsafe_iterator :=
  mkIterator (iterator it) b.

Definition set_status (it : threadsafe_iterator) (g : gen_status) : threadsafe_iterator :=
  mkIterator g (lock it).

(** [wrapped = true]: the callers hold a [threadsafe_iterator];
    [wrapped = false]: they call [next] on the bare generator. *)
Definition step (wrapped : bool) (s : state) (ev : event) : state :=
  let t := ev_thread ev in
  match threads s t with
  | Idle =>
      let i := ev_iterator ev in
      mkState (iterators s)
              (update (threads s) t (if wrapped then AtWith i else AtNext i))
              (log s)
  | AtWith i =>
      if lock (iterators s i) then s
      else mkState (update (iterators s) i (set_lock (iterators s i) true))
                   (update (threads s) t (AtNext i))
                   (log s)
  | AtNext i =>
      let g := iterator (iterators s i) in
      if gi_running g then
        mkState (iterators s) (update (threads s) t (AtExit i (Raised ValueError))) (log s)
      else if gi_finished g then
        mkState (iterators s) (update (threads s) t (AtExit i (Raised StopIteration))) (log s)
      else
        mkState (update (iterators s) i
                        (set_status (iterators s i) (mkStatus true false)))
                (update (threads s) t (InGenerator i))
                (log s)
  | InGenerator i =>
      if ev_body_raises ev then
        mkState (update (iterators s) i
                        (set_status (iterators s i) (mkStatus false true)))
                (update (threads s) t (AtExit i (Raised IOError)))
                (log s)
      else
        mkState (update (iterators s) i
                        (set_status (iterators s i) (mkStatus false false)))
                (update (threads s) t (AtExit i Returned))
                (log s)
  | AtExit i r =>
      mkState (if wrapped
               then update (iterators s) i (set_lock (iterators s i) false)
               else iterators s)
              (update (threads s) t Idle)
              (log s ++ [(t, i, r)])
  end.

Definition run (wrapped : bool) (schedule : list event) (s : state) : state :=
  fold_left (step wrapped) schedule s.

(** Every iterator freshly made by the decorator, every thread idle. *)
Definition initial : state :=
  mkState (fun _ => threadsafe_generator generator_function tt) (fun _ => Idle) [].

(** Thread [t] is between acquiring and releasing the lock of iterator [i]. *)
Definition holds (p : pc) (i : nat) : bool :=
  match p with
  | AtNext j | InGenerator j | AtExit j _ => (j =? i)%nat
  | _ => false
  end.

Definition in_generator (p : pc) (i : nat) : bool :=
  match p with
  | InGenerator j => (j =? i)%nat
  | _ => false
  end.

Definition is_conflict (r : outcome) : bool :=
  match r with
  | Raised ValueError => true
  | _ => false
  end.

Definition at_exit_conflict (p : pc) : bool :=
  match p with
  | AtExit _ r => is_conflict r
  | _ => false
  end.

(** The invariant of the wrapped system. *)
Record invariant (s : state) : Prop := mkInvariant {
  inv_exclusive : forall i t1 t2,
      holds (threads s t1) i = true -> holds (threads s t2) i = true -> t1 = t2;
  inv_unlocked : forall i t,
      lock (iterators s i) = false -> holds (threads s t) i = false;
  inv_running : forall i,
      gi_running (iterator (iterators s i)) = true ->
      exists t, in_generator (threads s t) i = true;
  inv_no_conflict_pending : forall t, at_exit_conflict (threads s t) = false;
  inv_no_conflict_logged : forall e, In e (log s) -> is_conflict (snd e) = false
}.

End Threadsafe.

(** A further notion for the model of [threadsafe_iterator]. *)
Module ThreadsafeNotions.

Import Threadsafe.

(** Every held lock has a thread inside the [with] block that took it. *)
Definition lock_owned (s : state) : Prop :=
  forall i, lock (iterators s i) = true ->
            exists t, holds (threads s t) i = true.

End ThreadsafeNotions.

(** ** A reference model of the libraries

    An executable stand-in for NumPy, Keras, PIL, [random] and the file
    system, on which the embedding runs on concrete inputs.  An array is
    symbolic: the image it was read from, its shape, and the operations
    applied to it so far. *)
Module Reference.

Inductive op : Type :=
| OpScale255
| OpAffine (transform_matrix : matrix) (channel_axis : nat) (fill_mode : string) (cval : Q)
| OpSwapaxes (a b : nat)
| OpReverse0.

Record sym_array : Type := mkArray {
  arr_source : string;
  arr_shape : list nat;
  arr_ops : list op
}.

Definition row_eqb (r1 r2 : list Q) : bool :=
  (List.length r1 =? List.length r2)%nat
  && forallb (fun p => Qeq_bool (fst p) (snd p)) (combine r1 r2).

Definition matrix_eqb (m1 m2 : matrix) : bool :=
  (List.length m1 =? List.length m2)%nat
  && forallb (fun p => row_eqb (fst p) (snd p)) (combine m1 m2).

(** An affine map that is the identity leaves the pixels where they are. *)
Definition ref_apply_transform (x : sym_array) (transform_matrix : matrix)
    (channel_axis : nat) (fill_mode : string) (cval : Q) : sym_array :=
  if matrix_eqb transform_matrix identity_matrix then x
  else mkArray (arr_source x) (arr_shape x)
               (arr_ops x ++ [OpAffine transform_matrix channel_axis fill_mode cval]).

Definition dot (r c : list Q) : Q :=
  fold_right Qplus 0 (map (fun p => fst p * snd p) (combine r c)).

Definition column (j : nat) (m : matrix) : list Q :=
  map (fun row => nth j row 0) m.

Definition mat_mul (a b : matrix) : matrix :=
  map (fun row => map (fun j => Qred (dot row (column j b))) [0; 1; 2]%nat) a.

(** Keras: [o_x = float(x) / 2 + 0.5], [o_y = float(y) / 2 + 0.5], and
    [dot(dot(offset_matrix, matrix), reset_matrix)]. *)
Definition ref_offset_center (m : matrix) (x y : nat) : matrix :=
  let o_x := (Z.of_nat x # 2) + (1 # 2) in
  let o_y := (Z.of_nat y # 2) + (1 # 2) in
  let offset_matrix := [[1; 0; o_x]; [0; 1; o_y]; [0; 0; 1]] in
  let reset_matrix := [[1; 0; - o_x]; [0; 1; - o_y]; [0; 0; 1]] in
  mat_mul (mat_mul offset_matrix m) reset_matrix.

Definition swap_entries (a b : nat) (l : list nat) : list nat :=
  map (fun i => nth (if (i =? a)%nat then b else if (i =? b)%nat then a else i) l 0%nat)
      (seq 0 (List.length l)).

Definition ref_swapaxes (x : sym_array) (a b : nat) : sym_array :=
  mkArray (arr_source x) (swap_entries a b (arr_shape x)) (arr_ops x ++ [OpSwapaxes a b]).

Definition ref_reverse0 (x : sym_array) : sym_array :=
  mkArray (arr_source x) (arr_shape x) (arr_ops x ++ [OpReverse0]).

Definition ref_scale255 (x : sym_array) : sym_array :=
  mkArray (arr_source x) (arr_shape x) (arr_ops x ++ [OpScale255]).

(** A loaded image: its path and the size it was resized to. *)
Definition ref_image : Type := (string * (nat * nat))%type.

Definition ref_img_to_array (im : ref_image) : sym_array :=
  mkArray (fst im) [fst (snd im); snd (snd im); 3%nat] [].

(** Rational stand-ins for the trigonometry. *)
Definition ref_deg2rad (d : Q) : Q := d * (355 # 20340).
Definition ref_sin (t : Q) : Q := t.
Definition ref_cos (t : Q) : Q := 1 - t * t * (1 # 2).

(** [pool[j] = v] *)
Definition list_set (j : nat) (v : nat) (l : list nat) : list nat :=
  firstn j l ++ v :: skipn (S j) l.

(** The pool branch of CPython's [random.sample]: pick [pool[j]] for a
    random [j] below the live length, move the last live item into the
    vacancy, shrink the live part by one.  The random state is the list of
    raw numbers still to come. *)
Fixpoint pool_sample (pool : list nat) (k : nat) (rnd : list nat)
    : list nat * list nat :=
  match k with
  | O => ([], rnd)
  | S k' =>
      let m := List.length pool in
      let j := (hd 0%nat rnd mod m)%nat in
      let picked := nth j pool 0%nat in
      let pool' := firstn (m - 1) (list_set j (nth (m - 1) pool 0%nat) pool) in
      let rest := pool_sample pool' k' (tl rnd) in
      (picked :: fst rest, snd rest)
  end.

Definition ref_sample_positions (s : list nat) (n k : nat) : list nat * list nat :=
  pool_sample (seq 0 n) k s.

Definition shape_eqb (s1 s2 : list nat) : bool :=
  (List.length s1 =? List.length s2)%nat
  && forallb (fun p => (fst p =? snd p)%nat) (combine s1 s2).

(** The sequences of [X] have the length of the first one, and all frames
    the shape of the first frame there is. *)
Definition one_block (X : list (list sym_array)) : bool :=
  match X with
  | [] => true
  | first :: _ =>
      forallb (fun sequence => (List.length sequence =? List.length first)%nat) X
      && match List.concat X with
         | [] => true
         | x0 :: _ =>
             forallb (fun x => shape_eqb (arr_shape x) (arr_shape x0)) (List.concat X)
         end
  end.

(** [np.array] as NumPy 1.24 and later have it: nesting that is not one
    block is refused. *)
Definition ref_array_error (X : list (list sym_array)) : option exn :=
  if one_block X then None else Some ValueError.

Definition reference : External := {|
  ndarray := sym_array;
  image := ref_image;
  np_shape := arr_shape;
  np_deg2rad := ref_deg2rad;
  np_cos := ref_cos;
  np_sin := ref_sin;
  np_swapaxes := ref_swapaxes;
  np_reverse0 := ref_reverse0;
  np_scale255 := ref_scale255;
  np_array_error := ref_array_error;
  img_to_array := ref_img_to_array;
  transform_matrix_offset_center := ref_offset_center;
  apply_transform := ref_apply_transform;
  py_random := list nat;
  sample_positions := ref_sample_positions
|}.

(** A file system given by its directories and their entries: an image
    loads when it is an entry of its directory. *)
Definition ref_listdir (dirs : list (string * list string)) (d : string)
    : option (list string) :=
  option_map snd (find (fun p => String.eqb (fst p) d) dirs).

Definition ref_load_img (dirs : list (string * list string)) (p : string)
    (size : nat * nat) : option ref_image :=
  if existsb (fun d => existsb (fun e => String.eqb (os_path_join (fst d) e) p) (snd d))
             dirs
  then Some (p, size) else None.

Definition ref_fs (dirs : list (string * list string)) : @filesystem reference :=
  @Build_filesystem reference (ref_listdir dirs) (ref_load_img dirs).

(** [n] entries [frame0.png] .. [frame(n-1).png] *)
Definition frames_dir (n : nat) : list string := map frame_name (seq 0 n).

(** The mapping of the scenario in the specification's section 8. *)
Definition two_samples : dict :=
  [("/data/s1", (70, 16)); ("/data/s2", (165 # 2, 91 # 5))]%string.

(** Two samples of three frames each. *)
Definition two_dirs : list (string * list string) :=
  [("/data/s1", frames_dir 3); ("/data/s2", frames_dir 3)]%string.

(** A sample directory of five entries in which [frame2.png] is missing. *)
Definition gap_dirs : list (string * list string) :=
  [("/data/s1", ["frame0.png"; "frame1.png"; "frame3.png"; "frame4.png"; "notes.txt"])]%string.

(** A world whose NumPy draws are all [u] and whose [random] numbers are [rnd]. *)
Definition constant_world (u : Q) (rnd : list nat) : @world reference :=
  @mkWorld reference (fun _ => u) 0 rnd [].

(** A world whose NumPy draws are the items of [draws], then 1/2 for ever. *)
Definition world_of (draws : list Q) (rnd : list nat) : @world reference :=
  @mkWorld reference (fun n => nth n draws (1 # 2)) 0 rnd [].

(** A frame as [process_img] returns it. *)
Definition loaded_frame (path : string) : sym_array :=
  mkArray path [224; 224; 3]%nat [OpScale255].

Definition two_frames : list sym_array :=
  [loaded_frame "/data/s1/frame0.png"; loaded_frame "/data/s1/frame1.png"]%string.

(** Three samples of two frames each. *)
Definition three_samples : dict :=
  [("/data/s1", (70, 16)); ("/data/s2", (165 # 2, 91 # 5)); ("/data/s3", (64, 14))]%string.

Definition three_dirs : list (string * list string) :=
  [("/data/s1", frames_dir 2); ("/data/s2", frames_dir 2); ("/data/s3", frames_dir 2)]%string.

(** [FrameProcessor(horizontal_flip=True, batch_size=2)] *)
Definition args_horizontal_only : init_args :=
  mkArgs (PyInt 0) (PyFloat 0) (PyFloat 0) (PyFloat 0) (PyFloat 0)
         (PyBool true) (PyBool false) (PyInt 2).

(** [FrameProcessor(horizontal_flip=True, vertical_flip=True, batch_size=1)] *)
Definition args_both_flips : init_args :=
  mkArgs (PyInt 0) (PyFloat 0) (PyFloat 0) (PyFloat 0) (PyFloat 0)
         (PyBool true) (PyBool true) (PyInt 1).

(** [FrameProcessor(width_shift_range=0.0, height_shift_range=0.5, batch_size=1)] *)
Definition args_height_shift : init_args :=
  mkArgs (PyInt 0) (PyFloat 0) (PyFloat (1 # 2)) (PyFloat 0) (PyFloat 0)
         (PyBool false) (PyBool false) (PyInt 1).

(** [FrameProcessor(rotation_range=10, width_shift_range=0.1, shear_range=5.0,
    zoom_range=0.2, batch_size=2)] *)
Definition args_augmenting : init_args :=
  mkArgs (PyInt 10) (PyFloat (1 # 10)) (PyFloat 0) (PyFloat 5) (PyFloat (1 # 5))
         (PyBool false) (PyBool false) (PyInt 2).

(** The object [__init__] builds from [a], for arguments it accepts. *)
Definition constructed (a : init_args) : FrameProcessor :=
  match __init__ a with
  | Ok self => self
  | Raise _ => mkFrameProcessor 0 0 0 PyNone 0 false false PyNone
  end.

(** The operations recorded on the frames of a batch. *)
Definition batch_ops (X : list (list sym_array)) : list (list (list op)) :=
  map (map arr_ops) X.

(** The operations a flip along [axis] records. *)
Definition flip_ops (axis : nat) : list op :=
  [OpSwapaxes axis 0; OpReverse0; OpSwapaxes 0 axis].

(** [FrameProcessor(shear_range=None, batch_size=1)] *)
Definition args_shear_none : init_args :=
  mkArgs (PyInt 0) (PyFloat 0) (PyFloat 0) PyNone (PyFloat 0)
         (PyBool false) (PyBool false) (PyInt 1).

(** [FrameProcessor(batch_size=2)] *)
Definition args_batch_two : init_args :=
  mkArgs (PyInt 0) (PyFloat 0) (PyFloat 0) (PyFloat 0) (PyFloat 0)
         (PyBool false) (PyBool false) (PyInt 2).

(** [FrameProcessor(zoom_range=1e-17)] *)
Definition args_absorbed_zoom : init_args :=
  mkArgs (PyInt 0) (PyFloat 0) (PyFloat 0) (PyFloat 0)
         (PyFloat (1 # 100000000000000000))
         (PyBool false) (PyBool false) (PyInt 1).

(** Two samples of three and of two frames. *)
Definition ragged_dirs : list (string * list string) :=
  [("/data/s1", frames_dir 3); ("/data/s2", frames_dir 2)]%string.

(** The batch the first pull yields for [args_batch_two] on the two-sample
    mapping when the sampling picks the second key first. *)
Definition second_then_first : list (list sym_array) * list label :=
  ([map loaded_frame ["/data/s2/frame0.png"; "/data/s2/frame1.png";
                      "/data/s2/frame2.png"];
    map loaded_frame ["/data/s1/frame0.png"; "/data/s1/frame1.png";
                      "/data/s1/frame2.png"]]%string,
   [(165 # 2, 91 # 5); (70, 16)]).

End Reference.

(** ** One-dimensional arrays

    A second model of the libraries, for the axis operations alone: an
    array is the list of its items, its only axis is axis 0, so that
    [swapaxes(0, 0)] leaves it as it is and [x[::-1, ...]] reverses it. *)
Module Flat.

Definition flat : External := {|
  ndarray := list Q;
  image := list Q;
  np_shape := fun x => [List.length x];
  np_deg2rad := Reference.ref_deg2rad;
  np_cos := Reference.ref_cos;
  np_sin := Reference.ref_sin;
  np_swapaxes := fun x _ _ => x;
  np_reverse0 := @rev Q;
  np_scale255 := map (fun v => v / 255);
  np_array_error := fun _ => None;
  img_to_array := fun im => im;
  transform_matrix_offset_center := Reference.ref_offset_center;
  apply_transform := fun x _ _ _ _ => x;
  py_random := list nat;
  sample_positions := Reference.ref_sample_positions
|}.

Definition two_rows : list (list Q) := [[1; 2; 3]; [4; 5]].

End Flat.

(** * Properties *)

Lemma Qgt_bool_iff (a b : Q) : Qgt_bool a b = true <-> b < a.
Proof.
  unfold Qgt_bool. rewrite negb_true_iff.
  split; intro H.
  - apply Qnot_le_lt. intro Hle. apply Qle_bool_iff in Hle. congruence.
  - destruct (Qle_bool a b) eqn:E; [|reflexivity].
    apply Qle_bool_iff in E. exfalso. apply (Qlt_not_le _ _ H E).
Qed.

(** ** Rounding to binary64 *)

Unset Implicit Arguments.

Lemma Qfloor_unique (x : Q) (n : Z) :
  inject_Z n <= x -> x < inject_Z (n + 1) -> Qfloor x = n.
Proof.
  intros Hlo Hhi.
  pose proof (Qfloor_le x) as H1. pose proof (Qlt_floor x) as H2.
  assert (A : (Qfloor x < n + 1)%Z).
  { rewrite Zlt_Qlt. eapply Qle_lt_trans; eauto. }
  assert (B : (n < Qfloor x + 1)%Z).
  { rewrite Zlt_Qlt. eapply Qle_lt_trans; eauto. }
  lia.
Qed.

Lemma Qceiling_unique (x : Q) (n : Z) :
  inject_Z (n - 1) < x -> x <= inject_Z n -> Qceiling x = n.
Proof.
  intros Hlo Hhi.
  pose proof (Qle_ceiling x) as H1. pose proof (Qceiling_lt x) as H2.
  assert (A : (n - 1 < Qceiling x)%Z).
  { rewrite Zlt_Qlt. eapply Qlt_le_trans; eauto. }
  assert (B : (Qceiling x - 1 < n)%Z).
  { rewrite Zlt_Qlt. eapply Qlt_le_trans; eauto. }
  lia.
Qed.

(** Rounding moves its argument by at most one half. *)
Lemma round_half_even_bounds (x : Q) :
  x - (1 # 2) <= inject_Z (round_half_even x)
  /\ inject_Z (round_half_even x) <= x + (1 # 2).
Proof.
  unfold round_half_even.
  pose proof (Qfloor_le x) as H1. pose proof (Qlt_floor x) as H2.
  rewrite inject_Z_plus in H2. change (inject_Z 1) with 1 in H2.
  destruct (Qcompare (x - inject_Z (Qfloor x)) (1 # 2)) eqn:E.
  - apply Qeq_alt in E.
    destruct (Z.even (Qfloor x)).
    + split; lra.
    + rewrite inject_Z_plus. change (inject_Z 1) with 1. split; lra.
  - apply Qlt_alt in E. split; lra.
  - apply Qgt_alt in E. rewrite inject_Z_plus. change (inject_Z 1) with 1. split; lra.
Qed.

Lemma inject_Z_lt_1 (a b : Z) : inject_Z a < inject_Z b + 1 -> (a <= b)%Z.
Proof.
  intro H. change 1 with (inject_Z 1) in H. rewrite <- inject_Z_plus in H.
  rewrite <- Zlt_Qlt in H. lia.
Qed.

Lemma inject_Z_pred (n : Z) : inject_Z (n - 1) == inject_Z n - 1.
Proof. unfold Zminus. now rewrite inject_Z_plus, inject_Z_opp. Qed.

Lemma inject_Z_succ (n : Z) : inject_Z (n + 1) == inject_Z n + 1.
Proof. now rewrite inject_Z_plus. Qed.

(** An even integer takes both of its ties. *)
Lemma round_half_even_even (x : Q) (n : Z) :
  Z.even n = true ->
  inject_Z n - (1 # 2) <= x -> x <= inject_Z n + (1 # 2) ->
  round_half_even x = n.
Proof.
  intros Hev Hlo Hhi.
  unfold round_half_even.
  pose proof (Qfloor_le x) as H1. pose proof (Qlt_floor x) as H2.
  rewrite inject_Z_plus in H2. change (inject_Z 1) with 1 in H2.
  assert (A : (Qfloor x <= n)%Z).
  { apply inject_Z_lt_1. lra. }
  assert (B : (n - 1 <= Qfloor x)%Z).
  { assert (inject_Z (n - 1) < inject_Z (Qfloor x) + 1).
    { rewrite inject_Z_pred. lra. }
    now apply inject_Z_lt_1. }
  assert (C : Qfloor x = n \/ Qfloor x = (n - 1)%Z) by lia.
  destruct C as [C | C]; rewrite C in *.
  - destruct (Qcompare (x - inject_Z n) (1 # 2)) eqn:E.
    + now rewrite Hev.
    + reflexivity.
    + apply Qgt_alt in E. lra.
  - rewrite inject_Z_pred in H1, H2.
    replace (Z.even (n - 1)) with false.
    2: { rewrite Z.even_sub, Hev. reflexivity. }
    destruct (Qcompare (x - inject_Z (n - 1)) (1 # 2)) eqn:E.
    + lia.
    + apply Qlt_alt in E. rewrite inject_Z_pred in E. lra.
    + lia.
Qed.

Lemma binade_unit (x : Q) : 1 <= x -> x < 2 -> binade x = 0%Z.
Proof.
  intros H1 H2. unfold binade.
  apply Qle_bool_iff in H1 as Hb. rewrite Hb.
  rewrite (Qfloor_unique x 1); [reflexivity | exact H1 | exact H2].
Qed.

Lemma binade_half (x : Q) : 1 # 2 <= x -> x < 1 -> binade x = (-1)%Z.
Proof.
  intros H1 H2. unfold binade.
  destruct (Qle_bool 1 x) eqn:Hb.
  { apply Qle_bool_iff in Hb. lra. }
  assert (Hx : 0 < x) by lra.
  assert (Hinv : 1 < / x /\ / x <= 2).
  { split.
    - apply Qlt_shift_inv_l; [exact Hx | lra].
    - apply Qle_shift_inv_r; [exact Hx | lra]. }
  rewrite (Qceiling_unique (/ x) 2); [reflexivity | | ].
  - change (inject_Z (2 - 1)) with 1. tauto.
  - change (inject_Z 2) with 2. tauto.
Qed.

Lemma binade_small (x : Q) : 0 < x -> x < 1 # 2 -> (binade x <= -2)%Z.
Proof.
  intros H1 H2. unfold binade.
  destruct (Qle_bool 1 x) eqn:Hb.
  { apply Qle_bool_iff in Hb. lra. }
  assert (Hinv : 2 < / x).
  { apply Qlt_shift_inv_l; [exact H1 | lra]. }
  pose proof (Qle_ceiling (/ x)) as Hc.
  assert (Hc3 : (3 <= Qceiling (/ x))%Z).
  { assert (H : inject_Z 2 < inject_Z (Qceiling (/ x))).
    { change (inject_Z 2) with 2. lra. }
    rewrite <- Zlt_Qlt in H. lia. }
  pose proof (Z.log2_up_le_mono _ _ Hc3) as Hl.
  change (Z.log2_up 3) with 2%Z in Hl. lia.
Qed.

Lemma ulp_positive (e : Z) : 0 < 2 ^ e.
Proof. apply Qpower_0_lt. reflexivity. Qed.

(** What rounds to 1 from above: up to half the spacing [2^-52] of the
    binade of 1, the tie included. *)
Lemma binary64_one_above (q : Q) :
  1 <= q -> q <= 1 + 2 ^ (-53) -> binary64 q == 1.
Proof.
  change (2 ^ (-53)) with (1 # 9007199254740992).
  intros H1 H2. unfold binary64.
  destruct (Qeq_bool q 0) eqn:E0.
  { apply Qeq_bool_iff in E0. lra. }
  assert (Habs : Qabs q == q) by (apply Qabs_pos; lra).
  rewrite (binade_unit (Qabs q)) by (rewrite Habs; lra).
  change (2 ^ (Z.max 0 (-1022) - 52)) with (1 # 4503599627370496).
  rewrite (round_half_even_even (q / (1 # 4503599627370496)) 4503599627370496).
  - reflexivity.
  - reflexivity.
  - change (inject_Z 4503599627370496) with 4503599627370496.
    apply Qle_shift_div_l; [reflexivity | lra].
  - change (inject_Z 4503599627370496) with 4503599627370496.
    apply Qle_shift_div_r; [reflexivity | lra].
Qed.

(** What rounds to 1 from below: down to half the spacing [2^-53] of the
    binade below 1, the tie included. *)
Lemma binary64_one_below (q : Q) :
  1 - 2 ^ (-54) <= q -> q < 1 -> binary64 q == 1.
Proof.
  change (2 ^ (-54)) with (1 # 18014398509481984).
  intros H1 H2. unfold binary64.
  destruct (Qeq_bool q 0) eqn:E0.
  { apply Qeq_bool_iff in E0. lra. }
  assert (Habs : Qabs q == q) by (apply Qabs_pos; lra).
  rewrite (binade_half (Qabs q)) by (rewrite Habs; lra).
  change (2 ^ (Z.max (-1) (-1022) - 52)) with (1 # 9007199254740992).
  rewrite (round_half_even_even (q / (1 # 9007199254740992)) 9007199254740992).
  - reflexivity.
  - reflexivity.
  - change (inject_Z 9007199254740992) with 9007199254740992.
    apply Qle_shift_div_l; [reflexivity | lra].
  - change (inject_Z 9007199254740992) with 9007199254740992.
    apply Qle_shift_div_r; [reflexivity | lra].
Qed.

Lemma round_half_even_lt (x : Q) (n : Z) :
  x < inject_Z n - (1 # 2) -> (round_half_even x < n)%Z.
Proof.
  intro H. destruct (round_half_even_bounds x) as (_ & Hhi).
  rewrite Zlt_Qlt. lra.
Qed.

Lemma round_half_even_ge (x : Q) (n : Z) :
  inject_Z n <= x -> (n <= round_half_even x)%Z.
Proof.
  intro H. destruct (round_half_even_bounds x) as (Hlo & _).
  apply inject_Z_lt_1. lra.
Qed.

(** Below [1 - 2^-54] the rounded value stays below 1. *)
Lemma binary64_below_one (q : Q) :
  q < 1 - 2 ^ (-54) -> binary64 q < 1.
Proof.
  change (2 ^ (-54)) with (1 # 18014398509481984).
  intro H. unfold binary64.
  destruct (Qeq_bool q 0) eqn:E0; [reflexivity|].
  apply Qeq_bool_neq in E0.
  set (e := Z.max (binade (Qabs q)) (-1022)).
  pose proof (ulp_positive (e - 52)) as Hu.
  set (ulp := 2 ^ (e - 52)) in *.
  destruct (round_half_even_bounds (q / ulp)) as (_ & Hhi).
  assert (Hq : q / ulp * ulp == q) by (field; lra).
  destruct (Qlt_le_dec q 0) as [Hneg | Hpos].
  - (* negative: the result is not positive *)
    assert (Hx : q / ulp < 0).
    { apply Qlt_shift_div_r; [exact Hu | lra]. }
    assert (Hr : (round_half_even (q / ulp) < 1)%Z).
    { apply round_half_even_lt. change (inject_Z 1) with 1. lra. }
    assert (Hr0 : inject_Z (round_half_even (q / ulp)) <= 0).
    { change 0 with (inject_Z 0). rewrite <- Zle_Qle. lia. }
    nra.
  - assert (Hq0 : 0 < q) by lra.
    assert (Habs : Qabs q == q) by (apply Qabs_pos; lra).
    destruct (Qlt_le_dec q (1 # 2)) as [Hsmall | Hhalf].
    + (* below one half: ulp <= 2^-54 *)
      assert (He : (e <= -2)%Z).
      { unfold e. assert (Hb : (binade (Qabs q) <= -2)%Z).
        { apply binade_small; rewrite Habs; assumption. }
        lia. }
      assert (Hulp : ulp <= 1 # 18014398509481984).
      { change (1 # 18014398509481984) with (2 ^ (-54)). unfold ulp.
        apply Qpower_le_compat_l; [lia | lra]. }
      nra.
    + (* in [1/2, 1 - 2^-54) *)
      assert (He : e = (-1)%Z).
      { unfold e. rewrite (binade_half (Qabs q)) by (rewrite Habs; lra).
        reflexivity. }
      assert (Hulp : ulp == 1 # 9007199254740992).
      { unfold ulp. rewrite He. reflexivity. }
      assert (Hx : q / ulp < inject_Z 9007199254740992 - (1 # 2)).
      { change (inject_Z 9007199254740992) with 9007199254740992.
        apply Qlt_shift_div_r; [exact Hu | rewrite Hulp; lra]. }
      apply round_half_even_lt in Hx.
      assert (Hr : inject_Z (round_half_even (q / ulp)) <= 9007199254740991).
      { change 9007199254740991 with (inject_Z 9007199254740991).
        rewrite <- Zle_Qle. lia. }
      set (r := inject_Z (round_half_even (q / ulp))) in *.
      rewrite Hulp. lra.
Qed.

(** Rounding does not cross the value 1. *)
Lemma binary64_le_one (q : Q) : q <= 1 -> binary64 q <= 1.
Proof.
  intro H.
  destruct (Qlt_le_dec q (1 - 2 ^ (-54))) as [Hlow | Hnear].
  - apply Qlt_le_weak. now apply binary64_below_one.
  - destruct (Qlt_le_dec q 1) as [Hlt | Hge].
    + rewrite (binary64_one_below q Hnear Hlt). apply Qle_refl.
    + rewrite (binary64_one_above q Hge).
      * apply Qle_refl.
      * change (2 ^ (-53)) with (1 # 9007199254740992). lra.
Qed.

Lemma binade_spec_ge_one (q : Q) :
  1 <= q -> (0 <= binade q)%Z /\ 2 ^ binade q <= q.
Proof.
  intro H. unfold binade. apply Qle_bool_iff in H as Hb. rewrite Hb.
  assert (Hf : (1 <= Qfloor q)%Z).
  { change 1%Z with (Qfloor 1). now apply Qfloor_resp_le. }
  split; [apply Z.log2_nonneg|].
  destruct (Z.log2_spec (Qfloor q)) as (Hlo & _); [lia|].
  rewrite Zle_Qle in Hlo.
  rewrite Zpower_Qpower in Hlo by apply Z.log2_nonneg.
  change (inject_Z 2) with 2 in Hlo.
  eapply Qle_trans; [exact Hlo | apply Qfloor_le].
Qed.

Lemma binary64_ge_one (q : Q) : 1 <= q -> 1 <= binary64 q.
Proof.
  intro H. unfold binary64.
  destruct (Qeq_bool q 0) eqn:E0.
  { apply Qeq_bool_iff in E0. lra. }
  assert (Habs : Qabs q == q) by (apply Qabs_pos; lra).
  destruct (binade_spec_ge_one (Qabs q)) as (He0 & Hlo'); [rewrite Habs; exact H|].
  assert (Hlo : 2 ^ binade (Qabs q) <= q).
  { eapply Qle_trans; [exact Hlo' | rewrite Habs; apply Qle_refl]. }
  clear Hlo'.
  set (e := binade (Qabs q)) in *.
  rewrite Z.max_l by lia.
  pose proof (ulp_positive (e - 52)) as Hu.
  assert (Hsplit : 2 ^ (e - 52) * 4503599627370496 == 2 ^ e).
  { rewrite Qpower_minus by discriminate.
    change (2 ^ 52) with 4503599627370496. field. }
  assert (H1e : 1 <= 2 ^ e) by (apply Qpower_1_le; [lra | exact He0]).
  set (ulp := 2 ^ (e - 52)) in *.
  assert (Hx : inject_Z 4503599627370496 <= q / ulp).
  { change (inject_Z 4503599627370496) with 4503599627370496.
    apply Qle_shift_div_l; [exact Hu | lra]. }
  apply round_half_even_ge in Hx. rewrite Zle_Qle in Hx.
  change (inject_Z 4503599627370496) with 4503599627370496 in Hx.
  set (r := inject_Z (round_half_even (q / ulp))) in *.
  nra.
Qed.

(** [binade q] is the exponent of the power of two at or below [q]. *)
Lemma binade_spec (q : Q) :
  0 < q -> 2 ^ binade q <= q /\ q < 2 ^ (binade q + 1).
Proof.
  intro Hq. unfold binade.
  destruct (Qle_bool 1 q) eqn:Hb.
  - apply Qle_bool_iff in Hb.
    assert (Hf : (1 <= Qfloor q)%Z).
    { change 1%Z with (Qfloor 1). now apply Qfloor_resp_le. }
    destruct (Z.log2_spec (Qfloor q)) as (Hlo & Hhi); [lia|].
    pose proof (Z.log2_nonneg (Qfloor q)) as He.
    split.
    + rewrite Zle_Qle in Hlo. rewrite Zpower_Qpower in Hlo by exact He.
      eapply Qle_trans; [exact Hlo | apply Qfloor_le].
    + assert (Hhi' : (Qfloor q + 1 <= 2 ^ (Z.log2 (Qfloor q) + 1))%Z)
        by (unfold Z.succ in Hhi; lia).
      rewrite Zle_Qle in Hhi'. rewrite Zpower_Qpower in Hhi' by lia.
      eapply Qlt_le_trans; [apply Qlt_floor | exact Hhi'].
  - assert (Hlt : q < 1).
    { apply Qnot_le_lt. intro H. apply Qle_bool_iff in H. congruence. }
    assert (Hinv : 1 < / q).
    { apply Qlt_shift_inv_l; [exact Hq | lra]. }
    pose proof (Qle_ceiling (/ q)) as Hc. pose proof (Qceiling_lt (/ q)) as Hc'.
    set (a := Qceiling (/ q)) in *.
    assert (Ha : (1 < a)%Z).
    { rewrite Zlt_Qlt. eapply Qlt_le_trans; [exact Hinv | exact Hc]. }
    destruct (Z.log2_up_spec a Ha) as (Hlo & Hhi).
    set (L := Z.log2_up a) in *.
    assert (HL : (0 < L)%Z) by (apply Z.log2_up_pos; exact Ha).
    assert (Hpow : 0 < 2 ^ L) by apply ulp_positive.
    assert (Hphi : / q <= 2 ^ L).
    { rewrite Zle_Qle in Hhi. rewrite Zpower_Qpower in Hhi by lia.
      eapply Qle_trans; [exact Hc | exact Hhi]. }
    assert (Hplo : 2 ^ (L - 1) < / q).
    { assert (H : (2 ^ (L - 1) <= a - 1)%Z).
      { replace (L - 1)%Z with (Z.pred L) by lia. lia. }
      rewrite Zle_Qle in H. rewrite Zpower_Qpower in H by lia.
      eapply Qle_lt_trans; [exact H | exact Hc']. }
    assert (Hqinv : q * / q == 1) by (field; lra).
    split.
    + rewrite Qpower_opp.
      apply Qle_shift_inv_r; [exact Hpow|].
      assert (q * / q <= q * 2 ^ L) by (apply Qmult_le_l; assumption).
      lra.
    + replace (- L + 1)%Z with (- (L - 1))%Z by lia.
      rewrite Qpower_opp.
      apply Qlt_shift_inv_l; [apply ulp_positive|].
      assert (q * 2 ^ (L - 1) < q * / q) by (apply Qmult_lt_l; assumption).
      lra.
Qed.

(** The rounded value is a multiple of the spacing of its binade, within
    half a spacing of the exact one. *)
Lemma binary64_nearest (q : Q) :
  let ulp := 2 ^ (Z.max (binade (Qabs q)) (-1022) - 52) in
  (exists n : Z, binary64 q == inject_Z n * ulp)
  /\ Qabs (binary64 q - q) <= ulp * (1 # 2).
Proof.
  intro ulp. unfold binary64. fold ulp.
  pose proof (ulp_positive (Z.max (binade (Qabs q)) (-1022) - 52)) as Hu.
  fold ulp in Hu.
  destruct (Qeq_bool q 0) eqn:E0.
  - apply Qeq_bool_iff in E0. split.
    + exists 0%Z. change (inject_Z 0) with 0. lra.
    + assert (H : 0 - q == 0) by lra. rewrite H. simpl. nra.
  - split; [eexists; reflexivity|].
    destruct (round_half_even_bounds (q / ulp)) as (Hlo & Hhi).
    assert (Hq : q / ulp * ulp == q) by (field; lra).
    set (r := inject_Z (round_half_even (q / ulp))) in *.
    set (x := q / ulp) in *.
    apply Qabs_Qle_condition. split; nra.
Qed.

(** The test [zlower == 1 and zupper == 1] of [random_sequence_zoom] in
    binary64: it holds exactly for ranges of magnitude up to [2^-54]. *)
Lemma sum_and_difference_absorbed (z : Q) :
  (Qeq_bool (binary64 (1 - z)) 1 && Qeq_bool (binary64 (1 + z)) 1)%bool = true
  <-> Qabs z <= 2 ^ (-54).
Proof.
  rewrite andb_true_iff, !Qeq_bool_iff.
  rewrite Qabs_Qle_condition.
  assert (H53 : 2 ^ (-53) == 2 * 2 ^ (-54)) by reflexivity.
  assert (Hpos : 0 < 2 ^ (-54)) by reflexivity.
  split.
  - intros (Hlo & Hup). split.
    + destruct (Qlt_le_dec z (- 2 ^ (-54))) as [Hlt | Hge]; [|exact Hge].
      exfalso. assert (Hb : binary64 (1 + z) < 1).
      { apply binary64_below_one. lra. }
      rewrite Hup in Hb. lra.
    + destruct (Qlt_le_dec (2 ^ (-54)) z) as [Hlt | Hge]; [|exact Hge].
      exfalso. assert (Hb : binary64 (1 - z) < 1).
      { apply binary64_below_one. lra. }
      rewrite Hlo in Hb. lra.
  - intros (Hlo & Hup). split.
    + destruct (Qlt_le_dec (1 - z) 1) as [Hlt | Hge].
      * apply binary64_one_below; lra.
      * apply binary64_one_above; lra.
    + destruct (Qlt_le_dec (1 + z) 1) as [Hlt | Hge].
      * apply binary64_one_below; lra.
      * apply binary64_one_above; lra.
Qed.

Set Implicit Arguments.

Section ProcessingProofs.

Context `{Ext : External}.
Variable fs : filesystem.

(** ** The sequence transforms *)


Lemma after_draws_0 (w : world) : after_draws 0 w = w.
Proof.
  destruct w as [st d p o]. unfold after_draws. simpl.
  now rewrite Nat.add_0_r.
Qed.

Lemma np_random_uniform_run (low high : Q) (w : world) :
  np_random_uniform low high w
  = (Ok (low + (high - low) * draw w 0), after_draws 1 w).
Proof.
  unfold np_random_uniform, bind, np_random_sample, ret, draw, after_draws.
  simpl. now rewrite Nat.add_0_r, Nat.add_1_r.
Qed.

Lemma after_draws_add (n m : nat) (w : world) :
  after_draws m (after_draws n w) = after_draws (n + m) w.
Proof.
  unfold after_draws. simpl. now rewrite Nat.add_assoc.
Qed.

Lemma np_random_uniform2_run (low high : Q) (w : world) :
  np_random_uniform2 low high w
  = (Ok (low + (high - low) * draw w 0, low + (high - low) * draw w 1),
     after_draws 2 w).
Proof.
  unfold np_random_uniform2, bind.
  rewrite np_random_uniform_run, np_random_uniform_run.
  rewrite after_draws_add. unfold ret, draw. simpl.
  now rewrite !Nat.add_0_r.
Qed.

Lemma frame_size_run (seq : list ndarray) (shp : list nat) (row_axis col_axis : nat)
    (w : world) :
  seq <> [] ->
  Forall (fun x => np_shape x = shp) seq ->
  (row_axis < List.length shp)%nat ->
  (col_axis < List.length shp)%nat ->
  frame_size seq row_axis col_axis w
  = (Ok (nth row_axis shp 0%nat, nth col_axis shp 0%nat), w).
Proof.
  intros Hne Hall Hr Hc.
  destruct seq as [|x0 rest]; [contradiction|].
  pose proof (Forall_inv Hall) as Hx0. simpl in Hx0.
  unfold frame_size, bind, index, lift_option. simpl.
  rewrite Hx0.
  rewrite (nth_error_nth' _ 0%nat Hr), (nth_error_nth' _ 0%nat Hc).
  reflexivity.
Qed.

(** The test [zlower == 1 and zupper == 1] holds exactly for the ranges
    that rounding absorbs. *)
Lemma zoom_degenerate_iff (zoom_range : Q) :
  (Qeq_bool (binary64 (1 - zoom_range)) 1
   && Qeq_bool (binary64 (1 + zoom_range)) 1)%bool = true
  <-> Qabs zoom_range <= absorbed_range.
Proof. apply sum_and_difference_absorbed. Qed.

Lemma zoom_degenerate_draws (zoom_range : Q) :
  (Qeq_bool (binary64 (1 - zoom_range)) 1
   && Qeq_bool (binary64 (1 + zoom_range)) 1)%bool
  = Qle_bool (Qabs zoom_range) absorbed_range.
Proof.
  destruct (Qle_bool (Qabs zoom_range) absorbed_range) eqn:E.
  - apply zoom_degenerate_iff. now apply Qle_bool_iff.
  - apply not_true_is_false. intro H. apply zoom_degenerate_iff in H.
    apply Qle_bool_iff in H. congruence.
Qed.

Lemma zoom_factors_absorbed (zoom_range : Q) (w : world) :
  Qabs zoom_range <= absorbed_range ->
  zoom_factors zoom_range w = (Ok (1, 1), w).
Proof.
  intro H. unfold zoom_factors.
  now rewrite (proj2 (zoom_degenerate_iff zoom_range) H).
Qed.

Lemma zoom_factors_drawn (zoom_range : Q) (w : world) :
  absorbed_range < Qabs zoom_range ->
  let zlower := binary64 (1 - zoom_range) in
  let zupper := binary64 (1 + zoom_range) in
  zoom_factors zoom_range w
  = (Ok (zlower + (zupper - zlower) * draw w 0, zlower + (zupper - zlower) * draw w 1),
     after_draws 2 w).
Proof.
  intros H zlower zupper. unfold zoom_factors.
  rewrite zoom_degenerate_draws.
  destruct (Qle_bool (Qabs zoom_range) absorbed_range) eqn:E.
  - apply Qle_bool_iff in E. exfalso. apply (Qlt_not_le _ _ H E).
  - apply np_random_uniform2_run.
Qed.

Lemma zoom_factors_run (zoom_range : Q) (w : world) :
  exists z, zoom_factors zoom_range w = (Ok z, after_draws (zoom_draws zoom_range) w).
Proof.
  unfold zoom_factors, zoom_draws. rewrite zoom_degenerate_draws.
  destruct (Qle_bool (Qabs zoom_range) absorbed_range).
  - exists (1, 1). unfold ret. now rewrite after_draws_0.
  - eexists. apply np_random_uniform2_run.
Qed.

Section Coherence.

Variables (seq : list ndarray) (shp : list nat) (kw : kwargs).
Hypothesis seq_nonempty : seq <> [].
Hypothesis same_shape : Forall (fun x => np_shape x = shp) seq.
Hypothesis row_axis_ok : (default 0%nat (kw_row_axis kw) < List.length shp)%nat.
Hypothesis col_axis_ok : (default 1%nat (kw_col_axis kw) < List.length shp)%nat.

Lemma rotation_coherent (rotation_range : Q) (w : world) :
  coherent (random_sequence_rotation seq rotation_range kw) seq 1 w.
Proof.
  unfold coherent, random_sequence_rotation, bind.
  rewrite np_random_uniform_run.
  rewrite (frame_size_run _ seq_nonempty same_shape row_axis_ok col_axis_ok).
  unfold ret. do 4 eexists. reflexivity.
Qed.

Lemma shift_coherent (height_shift_range width_shift_range : Q) (w : world) :
  coherent (random_sequence_shift seq height_shift_range width_shift_range kw) seq 2 w.
Proof.
  unfold coherent, random_sequence_shift, bind.
  rewrite (frame_size_run _ seq_nonempty same_shape row_axis_ok col_axis_ok).
  rewrite !np_random_uniform_run, after_draws_add.
  unfold ret. do 4 eexists. reflexivity.
Qed.

Lemma shear_coherent (shear_range : Q) (w : world) :
  coherent (random_sequence_shear seq shear_range kw) seq 1 w.
Proof.
  unfold coherent, random_sequence_shear, bind.
  rewrite np_random_uniform_run.
  rewrite (frame_size_run _ seq_nonempty same_shape row_axis_ok col_axis_ok).
  unfold ret. do 4 eexists. reflexivity.
Qed.

Lemma zoom_coherent (zoom_range : Q) (w : world) :
  coherent (random_sequence_zoom seq zoom_range kw) seq (zoom_draws zoom_range) w.
Proof.
  unfold coherent, random_sequence_zoom, bind.
  destruct (zoom_factors_run zoom_range w) as [z Hz]. rewrite Hz.
  rewrite (frame_size_run _ seq_nonempty same_shape row_axis_ok col_axis_ok).
  unfold ret. do 4 eexists. reflexivity.
Qed.

(** The zoom of an absorbed range, with the matrix spelled out: no draw,
    and the centred unit scaling applied to each frame. *)
Lemma zoom_absorbed_run (zoom_range : Q) (w : world) :
  Qabs zoom_range <= absorbed_range ->
  random_sequence_zoom seq zoom_range kw w
  = (Ok (apply_to_sequence seq
           (transform_matrix_offset_center (zoom_matrix_of 1 1)
              (nth (default 0%nat (kw_row_axis kw)) shp 0%nat)
              (nth (default 1%nat (kw_col_axis kw)) shp 0%nat))
           (default 1%nat (kw_channel_axis kw))
           (default "nearest"%string (kw_fill_mode kw))
           (default 0 (kw_cval kw))),
     w).
Proof.
  intro Hz. unfold random_sequence_zoom, bind.
  rewrite (@zoom_factors_absorbed zoom_range w Hz).
  rewrite (frame_size_run _ seq_nonempty same_shape row_axis_ok col_axis_ok).
  reflexivity.
Qed.

End Coherence.

(** C1, amended.  One call of [random_sequence_rotation],
    [random_sequence_shift], [random_sequence_shear] or
    [random_sequence_zoom] on a non-empty sequence of frames of one shape
    reads the random source a number of times that does not depend on the
    frames, and returns the input with one and the same transform matrix
    applied to every frame by [apply_transform]: one unit draw for the
    rotation angle, one for the shear angle, one each for [tx] and [ty],
    and one call for the pair [zx, zy].  The zoom makes that call only if
    [zoom_range] survives the rounding of [1 - zoom_range] or of
    [1 + zoom_range]: for a range of magnitude at most [2^-54], 0 among
    them, it draws nothing and applies the centred matrix of the factors
    [1, 1]. *)
Theorem C1_temporal_coherence :
  forall (seq : list ndarray) (shp : list nat) (kw : kwargs) (w : world),
    seq <> [] ->
    Forall (fun x => np_shape x = shp) seq ->
    (default 0%nat (kw_row_axis kw) < List.length shp)%nat ->
    (default 1%nat (kw_col_axis kw) < List.length shp)%nat ->
    (forall rotation_range,
        coherent (random_sequence_rotation seq rotation_range kw) seq 1 w)
    /\ (forall height_shift_range width_shift_range,
        coherent (random_sequence_shift seq height_shift_range width_shift_range kw)
                 seq 2 w)
    /\ (forall shear_range,
        coherent (random_sequence_shear seq shear_range kw) seq 1 w)
    /\ (forall zoom_range,
        coherent (random_sequence_zoom seq zoom_range kw) seq
                 (if Qle_bool (Qabs zoom_range) (2 ^ (-54)) then 0 else 2) w)
    /\ (forall zoom_range,
        Qabs zoom_range <= 2 ^ (-54) ->
        random_sequence_zoom seq zoom_range kw w
        = (Ok (map (fun x =>
                      apply_transform x
                        (transform_matrix_offset_center (zoom_matrix_of 1 1)
                           (nth (default 0%nat (kw_row_axis kw)) shp 0%nat)
                           (nth (default 1%nat (kw_col_axis kw)) shp 0%nat))
                        (default 1%nat (kw_channel_axis kw))
                        (default "nearest"%string (kw_fill_mode kw))
                        (default 0 (kw_cval kw)))
                   seq),
           w)).
Proof.
  intros seq shp kw w Hne Hshape Hrow Hcol.
  split; [|split; [|split; [|split]]].
  - intro r. now apply rotation_coherent with (shp := shp).
  - intros hsr wsr. now apply shift_coherent with (shp := shp).
  - intro sr. now apply shear_coherent with (shp := shp).
  - intro zr. exact (zoom_coherent kw Hne Hshape Hrow Hcol zr w).
  - intros zr Hz. exact (@zoom_absorbed_run seq shp kw Hne Hshape Hrow Hcol zr w Hz).
Qed.

(** A coherent run, frame by frame: the output has the length of the input
    and any two of its frames went through the same matrix. *)
Lemma coherent_framewise (run : M (list ndarray)) (seq : list ndarray) (n : nat)
    (w : world) :
  coherent run seq n w ->
  exists transform_matrix channel_axis fill_mode cval out,
    fst (run w) = Ok out
    /\ List.length out = List.length seq
    /\ forall i x, nth_error seq i = Some x ->
         nth_error out i
         = Some (apply_transform x transform_matrix channel_axis fill_mode cval).
Proof.
  intros (m & ca & fm & cv & Hrun).
  exists m, ca, fm, cv, (map (fun x => apply_transform x m ca fm cv) seq).
  rewrite Hrun. repeat split.
  - apply length_map.
  - intros i x Hi.
    now apply (map_nth_error (fun x => apply_transform x m ca fm cv)).
Qed.

(** ** Zoom with a zero range *)

Lemma zero_absorbed (zoom_range : Q) :
  zoom_range == 0 -> Qabs zoom_range <= absorbed_range.
Proof. intro Hz. rewrite Hz. discriminate. Qed.

(** The zoom of range 0 on a non-empty sequence, with the matrix spelled
    out: no draw, and the centred identity scaling applied to each frame. *)
Lemma zoom_zero_run (seq : list ndarray) (shp : list nat) (kw : kwargs)
    (zoom_range : Q) (w : world) :
  seq <> [] ->
  Forall (fun x => np_shape x = shp) seq ->
  (default 0%nat (kw_row_axis kw) < List.length shp)%nat ->
  (default 1%nat (kw_col_axis kw) < List.length shp)%nat ->
  zoom_range == 0 ->
  random_sequence_zoom seq zoom_range kw w
  = (Ok (apply_to_sequence seq
           (transform_matrix_offset_center identity_matrix
              (nth (default 0%nat (kw_row_axis kw)) shp 0%nat)
              (nth (default 1%nat (kw_col_axis kw)) shp 0%nat))
           (default 1%nat (kw_channel_axis kw))
           (default "nearest"%string (kw_fill_mode kw))
           (default 0 (kw_cval kw))),
     w).
Proof.
  intros Hne Hshape Hrow Hcol Hz.
  exact (@zoom_absorbed_run seq shp kw Hne Hshape Hrow Hcol zoom_range w
           (zero_absorbed Hz)).
Qed.

Lemma apply_identity_to_sequence (seq : list ndarray) (channel_axis : nat)
    (fill_mode : string) (cval : Q) :
  (forall x ca fm cv, apply_transform x identity_matrix ca fm cv = x) ->
  apply_to_sequence seq identity_matrix channel_axis fill_mode cval = seq.
Proof.
  intro Hid. unfold apply_to_sequence.
  induction seq as [|x rest IH]; simpl; [reflexivity|].
  now rewrite Hid, IH.
Qed.

(** C6, amended.  On a non-empty sequence of frames of one shape,
    [random_sequence_zoom] with a zoom range equal to 0 returns every frame
    as it was and leaves the random source untouched, given that Keras
    centres the identity matrix to itself and that the identity transform
    leaves a frame unchanged. *)
Theorem C6_zoom_zero_identity :
  forall (seq : list ndarray) (shp : list nat) (kw : kwargs) (zoom_range : Q)
         (w : world),
    (forall h w', transform_matrix_offset_center identity_matrix h w' = identity_matrix) ->
    (forall x ca fm cv, apply_transform x identity_matrix ca fm cv = x) ->
    seq <> [] ->
    Forall (fun x => np_shape x = shp) seq ->
    (default 0%nat (kw_row_axis kw) < List.length shp)%nat ->
    (default 1%nat (kw_col_axis kw) < List.length shp)%nat ->
    zoom_range == 0 ->
    random_sequence_zoom seq zoom_range kw w = (Ok seq, w).
Proof.
  intros seq shp kw zoom_range w Hcentre Hid Hne Hshape Hrow Hcol Hz.
  rewrite (zoom_zero_run kw w Hne Hshape Hrow Hcol Hz).
  rewrite Hcentre. now rewrite apply_identity_to_sequence.
Qed.

(** On the empty sequence the same call raises at [seq[0]]. *)
Lemma zoom_empty_raises (kw : kwargs) (zoom_range : Q) (w : world) :
  zoom_range == 0 ->
  random_sequence_zoom [] zoom_range kw w = (Raise IndexError, w).
Proof.
  intro Hz. unfold random_sequence_zoom, bind.
  now rewrite (@zoom_factors_absorbed zoom_range w (zero_absorbed Hz)).
Qed.

(** ** The transform steps of frame_generator *)

Lemma draw_after (n i : nat) (w : world) :
  draw (after_draws n w) i = draw w (n + i).
Proof.
  unfold draw, after_draws. simpl. now rewrite Nat.add_assoc.
Qed.

Section Steps.

Variables (self : FrameProcessor) (seq : list ndarray) (shp : list nat).
Hypothesis seq_nonempty : seq <> [].
Hypothesis same_shape : Forall (fun x => np_shape x = shp) seq.
Hypothesis two_axes : (2 <= List.length shp)%nat.

Let frame_height : nat := nth 0 shp 0%nat.
Let frame_width : nat := nth 1 shp 0%nat.

Lemma frame_size_default (w : world) :
  frame_size seq 0 1 w = (Ok (frame_height, frame_width), w).
Proof.
  apply frame_size_run; auto; lia.
Qed.

Lemma rotation_step_run (w : world) :
  Qgt_bool (inject_Z (rotation_range self)) 0 = true ->
  let r := inject_Z (rotation_range self) in
  rotation_step self seq w
  = (Ok (apply_to_sequence seq
           (transform_matrix_offset_center
              (rotation_matrix_of (np_deg2rad (- r + (r - - r) * draw w 0)))
              frame_height frame_width)
           2 "nearest" 0),
     after_draws 1 w).
Proof.
  intros Hon r. unfold rotation_step. rewrite Hon.
  unfold random_sequence_rotation, bind. simpl default.
  rewrite np_random_uniform_run, frame_size_default. reflexivity.
Qed.

(** The call passes [width_shift_range] where the function expects
    [height_shift_range], and the other way round. *)
Lemma shift_step_run (w : world) :
  (Qgt_bool (width_shift_range self) 0 || Qgt_bool (height_shift_range self) 0)%bool = true ->
  let wsr := width_shift_range self in
  let hsr := height_shift_range self in
  shift_step self seq w
  = (Ok (apply_to_sequence seq
           (translation_matrix_of
              ((- wsr + (wsr - - wsr) * draw w 0) * inject_Z (Z.of_nat frame_height))
              ((- hsr + (hsr - - hsr) * draw w 1) * inject_Z (Z.of_nat frame_width)))
           2 "nearest" 0),
     after_draws 2 w).
Proof.
  intros Hon wsr hsr. unfold shift_step. rewrite Hon.
  unfold random_sequence_shift, bind. simpl default.
  rewrite frame_size_default.
  rewrite !np_random_uniform_run, after_draws_add, draw_after.
  reflexivity.
Qed.

Lemma shear_step_run (shear : Q) (w : world) :
  as_number (shear_range self) = Some shear ->
  Qgt_bool shear 0 = true ->
  shear_step self seq w
  = (Ok (apply_to_sequence seq
           (transform_matrix_offset_center
              (shear_matrix_of (np_deg2rad (- shear + (shear - - shear) * draw w 0)))
              frame_height frame_width)
           2 "nearest" 0),
     after_draws 1 w).
Proof.
  intros Hnum Hon. unfold shear_step, bind, lift_option. rewrite Hnum.
  unfold ret at 1. rewrite Hon.
  unfold random_sequence_shear, bind. simpl default.
  rewrite np_random_uniform_run, frame_size_default. reflexivity.
Qed.

Lemma zoom_step_run (w : world) :
  Qgt_bool (zoom_range self) absorbed_range = true ->
  let zlower := binary64 (1 - zoom_range self) in
  let zupper := binary64 (1 + zoom_range self) in
  zoom_step self seq w
  = (Ok (apply_to_sequence seq
           (transform_matrix_offset_center
              (zoom_matrix_of (zlower + (zupper - zlower) * draw w 0)
                              (zlower + (zupper - zlower) * draw w 1))
              frame_height frame_width)
           1 "nearest" 0),
     after_draws 2 w).
Proof.
  intros Hon zlower zupper. apply Qgt_bool_iff in Hon.
  assert (Hpos : 0 < zoom_range self).
  { eapply Qlt_trans; [|exact Hon]. reflexivity. }
  unfold zoom_step. rewrite (proj2 (Qgt_bool_iff _ _) Hpos).
  unfold random_sequence_zoom, bind. simpl default.
  rewrite zoom_factors_drawn.
  - rewrite frame_size_default. reflexivity.
  - rewrite Qabs_pos by now apply Qlt_le_weak. exact Hon.
Qed.

(** A positive range that rounding absorbs: the step runs, draws nothing
    and applies the centred matrix of the factors [1, 1]. *)
Lemma zoom_step_absorbed (w : world) :
  Qgt_bool (zoom_range self) 0 = true ->
  zoom_range self <= absorbed_range ->
  zoom_step self seq w
  = (Ok (apply_to_sequence seq
           (transform_matrix_offset_center (zoom_matrix_of 1 1)
              frame_height frame_width)
           1 "nearest" 0),
     w).
Proof.
  intros Hon Hsmall. unfold zoom_step. rewrite Hon.
  apply Qgt_bool_iff in Hon.
  unfold random_sequence_zoom, bind. simpl default.
  rewrite zoom_factors_absorbed.
  - rewrite frame_size_default. reflexivity.
  - rewrite Qabs_pos by now apply Qlt_le_weak. exact Hsmall.
Qed.

End Steps.

(** C10.  In [frame_generator], on a non-empty sample of frames of one
    shape with at least two axes, the zoom step (taken when
    [zoom_range > 0]) has [apply_transform] called on every frame with
    channel axis 1, the index at which it also reads the frame width,
    while the rotation, shift and shear steps have it called with channel
    axis 2.  (The zoom step makes its two draws unless the range is at most
    [2^-54], which rounding absorbs.) *)
Theorem C10_zoom_channel_axis :
  forall (self : FrameProcessor) (seq : list ndarray) (shp : list nat) (w : world),
    seq <> [] ->
    Forall (fun x => np_shape x = shp) seq ->
    (2 <= List.length shp)%nat ->
    (Qgt_bool (zoom_range self) 0 = true ->
     exists zx zy,
       zoom_step self seq w
       = (Ok (map (fun x =>
                     apply_transform x
                       (transform_matrix_offset_center (zoom_matrix_of zx zy)
                          (nth 0 shp 0%nat) (nth 1 shp 0%nat))
                       1 "nearest" 0)
                  seq),
          after_draws (if Qle_bool (zoom_range self) (2 ^ (-54)) then 0 else 2) w))
    /\ (Qgt_bool (inject_Z (rotation_range self)) 0 = true ->
        exists m,
          rotation_step self seq w
          = (Ok (map (fun x => apply_transform x m 2 "nearest" 0) seq),
             after_draws 1 w))
    /\ ((Qgt_bool (width_shift_range self) 0
         || Qgt_bool (height_shift_range self) 0)%bool = true ->
        exists m,
          shift_step self seq w
          = (Ok (map (fun x => apply_transform x m 2 "nearest" 0) seq),
             after_draws 2 w))
    /\ (forall shear,
           as_number (shear_range self) = Some shear ->
           Qgt_bool shear 0 = true ->
           exists m,
             shear_step self seq w
             = (Ok (map (fun x => apply_transform x m 2 "nearest" 0) seq),
                after_draws 1 w)).
Proof.
  intros self seq shp w Hne Hshape Haxes.
  split; [|split; [|split]].
  - intro Hon.
    destruct (Qle_bool (zoom_range self) (2 ^ (-54))) eqn:Esmall.
    + apply Qle_bool_iff in Esmall. exists 1, 1.
      rewrite (zoom_step_absorbed self Hne Hshape Haxes w Hon Esmall).
      now rewrite after_draws_0.
    + do 2 eexists.
      exact (zoom_step_run self Hne Hshape Haxes w (f_equal negb Esmall)).
  - intro Hon. eexists. exact (rotation_step_run self Hne Hshape Haxes w Hon).
  - intro Hon. eexists. exact (shift_step_run self Hne Hshape Haxes w Hon).
  - intros shear Hnum Hon. eexists.
    exact (shear_step_run self Hne Hshape Haxes w Hnum Hon).
Qed.

(** ** Sequence assembly *)

Lemma get_sample_frames_run (sample : string) (contents : list string) (w : world) :
  os_listdir fs sample = Some contents ->
  get_sample_frames fs sample w
  = (Ok (map (fun i => os_path_join sample (frame_name i))
             (seq 0 (List.length contents))), w).
Proof.
  intro Hls. unfold get_sample_frames, bind, lift_option. now rewrite Hls.
Qed.

Lemma process_img_run (frame : string) (input_shape : nat * nat * nat) (w : world) :
  process_img fs frame input_shape w
  = (match load_img fs frame (target_size (Some input_shape)) with
     | Some im => Ok (np_scale255 (img_to_array im))
     | None => Raise IOError
     end, w).
Proof.
  destruct input_shape as [[h_ w_] c_].
  unfold process_img, bind, lift_option, target_size. simpl.
  now destruct (load_img fs frame (h_, w_)).
Qed.

Lemma target_size_default (input_shape : option (nat * nat * nat)) :
  target_size (Some (default (224, 224, 3)%nat input_shape)) = target_size input_shape.
Proof. now destruct input_shape. Qed.

(** A missing frame anywhere in the list makes the whole assembly raise. *)
Lemma build_image_sequence_missing (frames : list string)
    (input_shape : option (nat * nat * nat)) (frame : string) (w : world) :
  In frame frames ->
  load_img fs frame (target_size input_shape) = None ->
  build_image_sequence fs frames input_shape w = (Raise IOError, w).
Proof.
  intros Hin Hmiss. unfold build_image_sequence.
  induction frames as [|f rest IH]; [contradiction|].
  simpl. unfold bind at 1. rewrite process_img_run, target_size_default.
  destruct (load_img fs f (target_size input_shape)) as [im|] eqn:Ef.
  - destruct Hin as [Heq | Hin]; [subst; congruence|].
    unfold bind. now rewrite (IH Hin).
  - reflexivity.
Qed.

(** When every frame loads, the assembly returns them all, in order and
    without touching the world. *)
Lemma build_image_sequence_ok (frames : list string)
    (input_shape : option (nat * nat * nat)) :
  (forall frame, In frame frames ->
                 load_img fs frame (target_size input_shape) <> None) ->
  exists sequence,
    List.length sequence = List.length frames
    /\ forall w, build_image_sequence fs frames input_shape w = (Ok sequence, w).
Proof.
  unfold build_image_sequence.
  induction frames as [|f rest IH]; intro Hall.
  - exists []. split; reflexivity.
  - destruct IH as (sequence & Hlen & Hrun).
    { intros frame Hin. apply Hall. now right. }
    destruct (load_img fs f (target_size input_shape)) as [im|] eqn:Ef.
    2: { exfalso. apply (Hall f); [now left | exact Ef]. }
    exists (np_scale255 (img_to_array im) :: sequence). split.
    + simpl. now rewrite Hlen.
    + intro w. simpl. unfold bind at 1.
      rewrite process_img_run, target_size_default, Ef.
      unfold bind. now rewrite Hrun.
Qed.

Lemma assemble_well_formed (pth : string) :
  well_formed_sample fs pth ->
  exists sequence, forall w, assemble fs pth w = (Ok sequence, w).
Proof.
  intros (contents & Hls & Hload).
  destruct (@build_image_sequence_ok
              (map (fun i => os_path_join pth (frame_name i))
                   (seq 0 (List.length contents))) None)
    as (sequence & _ & Hrun).
  { intros frame Hin. apply in_map_iff in Hin. destruct Hin as (i & <- & Hi).
    apply in_seq in Hi. apply Hload. lia. }
  exists sequence. intro w.
  unfold assemble, bind. now rewrite (get_sample_frames_run _ w Hls).
Qed.

Lemma ends_with_slash_iff (s : string) :
  ends_with_slash s = true <-> exists dir, s = (dir ++ "/")%string.
Proof.
  induction s as [|c s IH].
  - split; [discriminate|]. intros ([|d dir] & H); discriminate.
  - destruct s as [|c' s'].
    + simpl. split.
      * intro H. apply Ascii.eqb_eq in H. subst. now exists ""%string.
      * intros ([|d dir] & H).
        -- simpl in H. inversion H. apply Ascii.eqb_refl.
        -- simpl in H. inversion H. destruct dir; discriminate.
    + change (ends_with_slash (String c (String c' s')))
        with (ends_with_slash (String c' s')).
      rewrite IH. split.
      * intros (dir & H). exists (String c dir). simpl. now rewrite H.
      * intros ([|d dir] & H).
        -- discriminate.
        -- simpl in H. inversion H. now exists dir.
Qed.

Lemma string_append_assoc (a b c : string) :
  ((a ++ b) ++ c = a ++ (b ++ c))%string.
Proof. induction a as [|x a IH]; simpl; [reflexivity | now rewrite IH]. Qed.

(** [os.path.join(sample, name)] puts [name] behind the directory name and
    one separator; the separator is left out after the empty name and
    after a name that ends in one. *)
Lemma os_path_join_prefix (sample : string) :
  exists prefix : string,
    ((sample = ""%string /\ prefix = ""%string)
     \/ ((exists dir, sample = (dir ++ "/")%string) /\ prefix = sample)
     \/ (sample <> ""%string
         /\ (forall dir, sample <> (dir ++ "/")%string)
         /\ prefix = (sample ++ "/")%string))
    /\ forall name, os_path_join sample name = (prefix ++ name)%string.
Proof.
  destruct sample as [|c s].
  - exists ""%string. split; [now left | reflexivity].
  - unfold os_path_join.
    destruct (ends_with_slash (String c s)) eqn:E.
    + exists (String c s). split; [|reflexivity].
      right. left. split; [now apply ends_with_slash_iff | reflexivity].
    + exists (String c s ++ "/")%string. split.
      * right. right. split; [discriminate|]. split; [|reflexivity].
        intros dir H.
        assert (Ht : ends_with_slash (String c s) = true)
          by (apply ends_with_slash_iff; now exists dir).
        congruence.
      * intro name. now rewrite string_append_assoc.
Qed.

(** C8.  For a sample directory with [count] entries, [get_sample_frames]
    returns the [count] paths [<sample>/frame<i>.png], [i] in decimal from
    0 to [count - 1], in that order ([<sample>/] being the directory name
    and a separator, the separator left out after the empty name and after
    a trailing one); the listing enters only through its length, so any
    reordering of it gives the same paths; and if the frame of one of
    these indices does not load, building the sequence raises [IOError]
    and returns no sequence. *)
Theorem C8_index_driven_assembly :
  forall (sample : string) (contents : list string) (w : world),
    os_listdir fs sample = Some contents ->
    let count := List.length contents in
    exists prefix : string,
      ((sample = ""%string /\ prefix = ""%string)
       \/ ((exists dir, sample = (dir ++ "/")%string) /\ prefix = sample)
       \/ (sample <> ""%string
           /\ (forall dir, sample <> (dir ++ "/")%string)
           /\ prefix = (sample ++ "/")%string))
      /\ let path := fun i : nat =>
           (prefix ++ "frame" ++ NilEmpty.string_of_uint (Nat.to_uint i) ++ ".png")%string in
         let paths := map path (seq 0 count) in
         get_sample_frames fs sample w = (Ok paths, w)
         /\ List.length paths = count
         /\ (forall i, (i < count)%nat -> nth_error paths i = Some (path i))
         /\ (forall (fs' : filesystem) (contents' : list string),
                os_listdir fs' sample = Some contents' ->
                Permutation contents contents' ->
                get_sample_frames fs' sample w = (Ok paths, w))
         /\ (forall i : nat,
                (i < count)%nat ->
                load_img fs (path i) (224, 224)%nat = None ->
                build_image_sequence fs paths None w = (Raise IOError, w)
                /\ assemble fs sample w = (Raise IOError, w))
         /\ (forall (i h_ w_ c_ : nat),
                (i < count)%nat ->
                load_img fs (path i) (h_, w_) = None ->
                build_image_sequence fs paths (Some (h_, w_, c_)) w
                = (Raise IOError, w)).
Proof.
  intros sample contents w Hls count.
  destruct (os_path_join_prefix sample) as (prefix & Hprefix & Hjoin).
  exists prefix. split; [exact Hprefix|].
  intros path paths.
  assert (Hpaths : map (fun i => os_path_join sample (frame_name i)) (seq 0 count)
                   = paths).
  { unfold paths, path. apply map_ext. intro i. now rewrite Hjoin. }
  assert (Hnth : forall i, (i < count)%nat -> nth_error paths i = Some (path i)).
  { intros i Hi. unfold paths. apply (map_nth_error path).
    rewrite nth_error_nth' with (d := 0%nat); [|now rewrite length_seq].
    now rewrite seq_nth. }
  assert (Hmissing : forall i input_shape,
             (i < count)%nat ->
             load_img fs (path i) (target_size input_shape) = None ->
             build_image_sequence fs paths input_shape w = (Raise IOError, w)).
  { intros i input_shape Hi Hmiss.
    apply build_image_sequence_missing with (frame := path i); [|exact Hmiss].
    eapply nth_error_In. now apply Hnth. }
  split; [|split; [|split; [|split; [|split]]]].
  - rewrite <- Hpaths. now apply get_sample_frames_run.
  - unfold paths. now rewrite length_map, length_seq.
  - exact Hnth.
  - intros fs' contents' Hls' Hperm.
    unfold get_sample_frames, bind, lift_option. rewrite Hls'.
    unfold ret. rewrite <- (Permutation_length Hperm). fold count.
    now rewrite Hpaths.
  - intros i Hi Hmiss.
    assert (Hbuild : build_image_sequence fs paths None w = (Raise IOError, w))
      by exact (Hmissing i None Hi Hmiss).
    split; [exact Hbuild|].
    unfold assemble, bind.
    rewrite (get_sample_frames_run _ w Hls). fold count. rewrite Hpaths.
    exact Hbuild.
  - intros i h_ w_ c_ Hi Hmiss.
    exact (Hmissing i (Some (h_, w_, c_)) Hi Hmiss).
Qed.

(** ** testing_generator *)

Lemma same_random_refl (w : world) : same_random w w.
Proof. repeat split. Qed.

Lemma same_random_trans (w1 w2 w3 : world) :
  same_random w1 w2 -> same_random w2 w3 -> same_random w1 w3.
Proof.
  unfold same_random. intros (A1 & A2 & A3) (B1 & B2 & B3).
  repeat split; congruence.
Qed.

Lemma print_run (s : string) (w : world) :
  exists w', print s w = (Ok tt, w') /\ same_random w w'.
Proof. eexists. split; [reflexivity|]. repeat split. Qed.

Lemma dict_get_nth (d : dict) (i : nat) (k : string) (v : label) :
  NoDup (dict_keys d) ->
  nth_error d i = Some (k, v) ->
  dict_get d k = Some v.
Proof.
  revert i. induction d as [|[k' v'] d IH]; intros i Hnd Hi.
  - destruct i; discriminate.
  - simpl in Hnd. inversion Hnd as [|? ? Hnotin Hnd']; subst.
    destruct i as [|i]; simpl in *.
    + inversion Hi; subst. now rewrite String.eqb_refl.
    + destruct (String.eqb k k') eqn:E.
      * apply String.eqb_eq in E. subst k'. exfalso. apply Hnotin.
        apply nth_error_In in Hi. unfold dict_keys.
        change k with (fst (k, v)). now apply in_map.
      * now apply IH with (i := i).
Qed.

Lemma next_current (c K : nat) :
  (c < K)%nat ->
  (if (c + 1 =? K)%nat then 0%nat else (c + 1)%nat) = ((c + 1) mod K)%nat.
Proof.
  intro Hc. destruct (c + 1 =? K)%nat eqn:E.
  - apply Nat.eqb_eq in E. subst K. now rewrite Nat.Div0.mod_same.
  - apply Nat.eqb_neq in E. rewrite Nat.mod_small; lia.
Qed.

Section TestingGenerator.

Variables (self : FrameProcessor) (paths2labels : dict) (generator_type : string).
Hypothesis keys_unique : NoDup (dict_keys paths2labels).
Hypothesis samples_ok :
  forall pth, In pth (dict_keys paths2labels) -> well_formed_sample fs pth.

Let K : nat := List.length paths2labels.
Let keys : list string := dict_keys paths2labels.

(** One turn of the loop at cursor [c]: the sample of the key at position
    [c], assembled and nothing else, and the cursor moved round-robin. *)
Lemma testing_loop_run (c : nat) (w : world) :
  (c < K)%nat ->
  exists pth lbl sequence w',
    nth_error paths2labels c = Some (pth, lbl)
    /\ (forall w0, assemble fs pth w0 = (Ok sequence, w0))
    /\ testing_loop fs paths2labels (mkTestingLocals keys c) w
       = (Ok (([sequence], lbl), mkTestingLocals keys ((c + 1) mod K)), w')
    /\ same_random w w'.
Proof.
  intro Hc.
  destruct (nth_error paths2labels c) as [[pth lbl]|] eqn:Hnth.
  2: { apply nth_error_None in Hnth. unfold K in Hc. lia. }
  assert (Hkey : nth_error keys c = Some pth).
  { unfold keys, dict_keys. exact (map_nth_error fst c paths2labels Hnth). }
  destruct (@assemble_well_formed pth) as (sequence & Hasm).
  { apply samples_ok. eapply nth_error_In. exact Hkey. }
  exists pth, lbl, sequence.
  exists (mkWorld (np_stream w) (np_drawn w) (py_state w) (stdout w ++ [pth])).
  split; [reflexivity|]. split; [exact Hasm|]. split; [|repeat split].
  unfold testing_loop, bind, index, getitem, lift_option. simpl.
  rewrite Hkey. unfold ret at 1.
  rewrite (@dict_get_nth paths2labels c pth lbl keys_unique Hnth). unfold ret at 1.
  pose proof (Hasm w) as Hw. unfold assemble, bind in Hw.
  destruct (get_sample_frames fs pth w) as [[frames|e] w1]; [|discriminate].
  destruct (build_image_sequence fs frames None w1) as [[sequence'|e] w2] eqn:Eb;
    [|discriminate].
  inversion Hw; subst sequence' w2.
  unfold ret.
  replace (List.length keys) with K
    by (unfold keys, dict_keys, K; now rewrite length_map).
  now rewrite next_current.
Qed.

Lemma testing_pulls_from (n c : nat) (w : world) :
  (c < K)%nat ->
  exists pth lbl sequence g' w',
    nth_error paths2labels ((c + n) mod K) = Some (pth, lbl)
    /\ (forall w0, assemble fs pth w0 = (Ok sequence, w0))
    /\ pull_nth (testing_generator_next fs self paths2labels generator_type) n
                (Suspended (mkTestingLocals keys c)) w
       = (Ok ([sequence], lbl), g', w')
    /\ same_random w w'.
Proof.
  revert c w. induction n as [|n IH]; intros c w Hc.
  - destruct (testing_loop_run w Hc) as (pth & lbl & sequence & w' & Hnth & Hasm & Hloop & Hsame).
    exists pth, lbl, sequence, (Suspended (mkTestingLocals keys ((c + 1) mod K))), w'.
    rewrite Nat.add_0_r, Nat.mod_small by exact Hc.
    repeat split; try assumption; try apply Hsame.
    simpl. unfold testing_generator_next, next. now rewrite Hloop.
  - destruct (testing_loop_run w Hc) as (pth0 & lbl0 & seq0 & w1 & _ & _ & Hloop & Hsame1).
    assert (Hc' : ((c + 1) mod K < K)%nat) by (apply Nat.mod_upper_bound; lia).
    destruct (IH _ w1 Hc') as (pth & lbl & sequence & g' & w' & Hnth & Hasm & Hpull & Hsame2).
    exists pth, lbl, sequence, g', w'.
    split.
    { rewrite <- Hnth. f_equal.
      rewrite Nat.Div0.add_mod_idemp_l. f_equal. lia. }
    split; [exact Hasm|]. split; [|exact (same_random_trans Hsame1 Hsame2)].
    simpl. unfold testing_generator_next at 1, next. rewrite Hloop. exact Hpull.
Qed.

Lemma testing_first_pull (n : nat) (w : world) :
  exists w0,
    same_random w w0
    /\ pull_nth (testing_generator_next fs self paths2labels generator_type) n
                (testing_generator self paths2labels generator_type) w
       = pull_nth (testing_generator_next fs self paths2labels generator_type) n
                  (Suspended (mkTestingLocals keys 0)) w0.
Proof.
  destruct (print_run ("[*] creating a " ++ generator_type ++ " testing generator with "
         ++ decimal (List.length paths2labels) ++ " samples")%string w)
    as (w0 & Hprint & Hsame).
  exists w0. split; [exact Hsame|].
  assert (Hnext : testing_generator_next fs self paths2labels generator_type Created w
                  = testing_generator_next fs self paths2labels generator_type
                      (Suspended (mkTestingLocals keys 0)) w0).
  { unfold testing_generator_next, next, testing_start, bind.
    rewrite Hprint. reflexivity. }
  unfold testing_generator.
  destruct n; cbn [pull_nth]; now rewrite Hnext.
Qed.

End TestingGenerator.

(** C7.  For a non-empty mapping of [K] distinct keys whose samples follow
    the directory convention, pull number [n] (from 0) of
    [testing_generator] returns one sample: the sequence assembled from the
    key at position [n mod K] of the mapping, as assembled, and the label
    of that key; no random number is drawn. *)
Theorem C7_testing_round_robin :
  forall (self : FrameProcessor) (paths2labels : dict) (generator_type : string)
         (n : nat) (w : world),
    paths2labels <> [] ->
    NoDup (dict_keys paths2labels) ->
    (forall pth, In pth (dict_keys paths2labels) -> well_formed_sample fs pth) ->
    exists pth lbl sequence g' w',
      nth_error paths2labels (n mod List.length paths2labels) = Some (pth, lbl)
      /\ (forall w0, assemble fs pth w0 = (Ok sequence, w0))
      /\ pull_nth (testing_generator_next fs self paths2labels generator_type) n
                  (testing_generator self paths2labels generator_type) w
         = (Ok ([sequence], lbl), g', w')
      /\ same_random w w'.
Proof.
  intros self paths2labels generator_type n w Hne Hnd Hok.
  destruct (testing_first_pull self paths2labels generator_type n w)
    as (w0 & Hsame0 & Hfirst).
  assert (HK : (0 < List.length paths2labels)%nat).
  { destruct paths2labels; [contradiction | simpl; lia]. }
  destruct (@testing_pulls_from self paths2labels generator_type Hnd Hok n 0%nat w0 HK)
    as (pth & lbl & sequence & g' & w' & Hnth & Hasm & Hpull & Hsame).
  exists pth, lbl, sequence, g', w'.
  repeat split; try assumption; try apply (same_random_trans Hsame0 Hsame).
  now rewrite Hfirst.
Qed.

(** ** The constructor *)

(** Closes a case in which an assertion fails. *)
Ltac rejected :=
  split; split;
  [ discriminate
  | intros (? & H & _); discriminate H
  | intros _; eexists; reflexivity
  | reflexivity ].

(** C5, amended.  [__init__] raises an [AssertionError] exactly when
    [rotation_range] is not an [int], or a shift range is not a [float]
    within [[0, 1]], or [zoom_range] is not a [float], or a flip flag is not
    a [bool]; otherwise it returns the object with the arguments stored as
    given.  The sign of [rotation_range] and of [zoom_range], and
    [shear_range] and [batch_size] altogether, are not examined. *)
Theorem C5_init_checks :
  forall a : init_args,
    (passes_assertions a = true <->
     exists self,
       __init__ a = Ok self
       /\ arg_rotation_range a = PyInt (rotation_range self)
       /\ arg_width_shift_range a = PyFloat (width_shift_range self)
       /\ arg_height_shift_range a = PyFloat (height_shift_range self)
       /\ arg_zoom_range a = PyFloat (zoom_range self)
       /\ arg_horizontal_flip a = PyBool (horizontal_flip self)
       /\ arg_vertical_flip a = PyBool (vertical_flip self)
       /\ arg_shear_range a = shear_range self
       /\ arg_batch_size a = batch_size self)
    /\ (passes_assertions a = false <->
        exists msg, __init__ a = Raise (AssertionError msg)).
Proof.
  intros [rr wsr hsr sr zr hf vf bs].
  unfold passes_assertions, __init__, in_unit_interval. simpl.
  destruct rr; simpl; try rejected.
  destruct wsr as [|w| | |]; simpl; try rejected.
  destruct (Qle_bool w 1 && Qle_bool 0 w)%bool; simpl; try rejected.
  destruct hsr as [|h| | |]; simpl; try rejected.
  destruct (Qle_bool h 1 && Qle_bool 0 h)%bool; simpl; try rejected.
  destruct zr; simpl; try rejected.
  destruct hf; simpl; try rejected.
  destruct vf; simpl; try rejected.
  split; split.
  - intros _. eexists. repeat split.
  - reflexivity.
  - discriminate.
  - intros (msg & H). discriminate H.
Qed.

(** ** frame_generator *)

Lemma mapM_index_run {A} (population : list A) (idx : list nat) (w : world) :
  Forall (fun j => (j < List.length population)%nat) idx ->
  exists selected,
    mapM (index population) idx w = (Ok selected, w)
    /\ List.length selected = List.length idx
    /\ (forall i j, nth_error idx i = Some j ->
                    nth_error selected i = nth_error population j).
Proof.
  induction idx as [|j idx IH]; intro Hall.
  - exists []. repeat split. intros [|i] j H; discriminate.
  - inversion Hall as [|? ? Hj Hrest]; subst.
    destruct (IH Hrest) as (selected & Hrun & Hlen & Hnth).
    destruct (nth_error population j) as [a|] eqn:Ea.
    2: { apply nth_error_None in Ea. lia. }
    exists (a :: selected). split; [|split].
    + simpl. unfold bind at 1. unfold index at 1, lift_option. rewrite Ea.
      unfold ret at 1, bind. now rewrite Hrun.
    + simpl. now rewrite Hlen.
    + intros [|i] j' H; simpl in *.
      * inversion H; subst. now rewrite Ea.
      * now apply Hnth.
Qed.

(** Distinct positions of a duplicate-free population hold distinct items. *)
Lemma selected_NoDup {A} (population selected : list A) (idx : list nat) :
  NoDup population ->
  NoDup idx ->
  List.length selected = List.length idx ->
  (forall i j, nth_error idx i = Some j ->
               nth_error selected i = nth_error population j) ->
  Forall (fun j => (j < List.length population)%nat) idx ->
  NoDup selected /\ incl selected population.
Proof.
  intros Hpop Hidx Hlen Hnth Hbound. split.
  - apply (proj2 (NoDup_nth_error selected)).
    intros i1 i2 Hi1 Heq.
    rewrite Hlen in Hi1.
    destruct (nth_error idx i1) as [j1|] eqn:E1.
    2: { apply nth_error_None in E1. lia. }
    assert (Hsome : nth_error selected i1 <> None).
    { apply nth_error_Some. lia. }
    destruct (nth_error idx i2) as [j2|] eqn:E2.
    2: { apply nth_error_None in E2. rewrite <- Hlen in E2.
         apply nth_error_None in E2. congruence. }
    rewrite (Hnth _ _ E1), (Hnth _ _ E2) in Heq.
    assert (Hj1 : (j1 < List.length population)%nat).
    { rewrite Forall_forall in Hbound. apply Hbound. eapply nth_error_In; eauto. }
    pose proof (proj1 (NoDup_nth_error population) Hpop j1 j2 Hj1 Heq). subst j2.
    apply (proj1 (NoDup_nth_error idx) Hidx i1 i2); [lia | congruence].
  - intros a Ha. apply In_nth_error in Ha. destruct Ha as (i & Hi).
    destruct (nth_error idx i) as [j|] eqn:E.
    + rewrite (Hnth _ _ E) in Hi. eapply nth_error_In; eauto.
    + apply nth_error_None in E. rewrite <- Hlen in E.
      apply nth_error_None in E. congruence.
Qed.

Lemma random_sample_run (population : list string) (b : Z) (w : world) :
  sample_contract ->
  NoDup population ->
  (0 <= b <= Z.of_nat (List.length population))%Z ->
  exists selected w',
    random_sample population (PyInt b) w = (Ok selected, w')
    /\ List.length selected = Z.to_nat b
    /\ NoDup selected
    /\ incl selected population
    /\ np_stream w' = np_stream w /\ np_drawn w' = np_drawn w.
Proof.
  intros Hcontract Hpop Hb.
  assert (Hrange : ((0 <=? b)%Z && (b <=? Z.of_nat (List.length population))%Z)%bool
                   = true)
    by (apply andb_true_iff; split; apply Z.leb_le; lia).
  destruct (sample_positions (py_state w) (List.length population) (Z.to_nat b))
    as [idx s'] eqn:Es.
  destruct (Hcontract (py_state w) (List.length population) (Z.to_nat b))
    as (Hlen & Hnd & Hbound); [lia|].
  rewrite Es in Hlen, Hnd, Hbound. simpl in Hlen, Hnd, Hbound.
  destruct (mapM_index_run population
              (mkWorld (np_stream w) (np_drawn w) s' (stdout w)) Hbound)
    as (selected & Hrun & Hlen' & Hnth).
  destruct (@selected_NoDup _ population selected idx Hpop Hnd Hlen' Hnth Hbound)
    as (Hnd' & Hincl).
  exists selected. eexists. split.
  { unfold random_sample. cbn [as_index]. rewrite Hrange, Es. exact Hrun. }
  repeat split; try assumption. congruence.
Qed.

Lemma dict_get_key (d : dict) (k : string) :
  In k (dict_keys d) -> exists v, dict_get d k = Some v.
Proof.
  induction d as [|[k' v'] d IH]; intro Hin; [contradiction|].
  simpl. destruct (String.eqb k k') eqn:E; [eauto|].
  destruct Hin as [Heq | Hin]; [|now apply IH].
  simpl in Heq. subst k'. now rewrite String.eqb_refl in E.
Qed.

Lemma mapM_getitem_run (d : dict) (selected : list string) (w : world) :
  incl selected (dict_keys d) ->
  exists y,
    mapM (getitem d) selected w = (Ok y, w)
    /\ Forall2 (fun pth lbl => dict_get d pth = Some lbl) selected y.
Proof.
  induction selected as [|pth rest IH]; intro Hincl.
  - exists []. split; [reflexivity | constructor].
  - destruct IH as (y & Hrun & Hall).
    { intros a Ha. apply Hincl. now right. }
    destruct (@dict_get_key d pth) as (lbl & Hlbl).
    { apply Hincl. now left. }
    exists (lbl :: y). split; [|now constructor].
    simpl. unfold bind at 1. unfold getitem at 1, lift_option. rewrite Hlbl.
    unfold ret at 1, bind. now rewrite Hrun.
Qed.

Lemma transformable_apply (shp : list nat) (seq : list ndarray) (m : matrix)
    (ca : nat) (fm : string) (cv : Q) :
  (forall x m ca fm cv, np_shape (apply_transform x m ca fm cv) = np_shape x) ->
  transformable shp seq -> transformable shp (apply_to_sequence seq m ca fm cv).
Proof.
  intros Hkeep (Hne & Hshape & Haxes). unfold apply_to_sequence. repeat split; auto.
  - destruct seq; [contradiction | discriminate].
  - apply Forall_map. eapply Forall_impl; [|exact Hshape].
    intros x Hx. simpl. now rewrite Hkeep.
Qed.

(** *** The two flip steps *)

(** With the vertical flip off, [coin_flip] is never bound, and the
    horizontal flip step raises before it draws. *)
Lemma horizontal_flip_unbound (self : FrameProcessor) (seq : list ndarray) (w : world) :
  horizontal_flip self = true ->
  horizontal_flip_step self seq None w = (Raise UnboundLocalError, w).
Proof.
  intro Hh. unfold horizontal_flip_step. now rewrite Hh.
Qed.

(** With both flips on, the horizontal flip follows the coin of the
    vertical flip: the second draw is made and dropped. *)
Lemma flips_share_coin (self : FrameProcessor) (seq : list ndarray)
    (coin_flip : option bool) (w : world) :
  vertical_flip self = true ->
  horizontal_flip self = true ->
  let coin := Qgt_bool (draw w 0) (1 # 2) in
  bind (vertical_flip_step self seq coin_flip)
       (fun sc => horizontal_flip_step self (fst sc) (snd sc)) w
  = (Ok (if coin then sequence_flip_axis (sequence_flip_axis seq 1) 2 else seq,
         Some coin),
     after_draws 2 w).
Proof.
  intros Hv Hh coin.
  unfold bind, vertical_flip_step, horizontal_flip_step, np_random_sample, bind.
  rewrite Hv, Hh. unfold coin, draw. rewrite Nat.add_0_r.
  destruct (Qgt_bool (np_stream w (np_drawn w)) (1 # 2)); simpl;
    unfold ret, after_draws; repeat f_equal; lia.
Qed.

(** * Further properties of the module *)

(** ** The transforms at their edges *)

(** X1.  Flipping a sequence twice along the same axis gives the sequence
    back, provided the two axis swaps of NumPy undo each other and
    reversing twice is the identity. *)
Theorem flip_twice_restores :
  forall (seq : list ndarray) (axis : nat),
    (forall x, np_swapaxes (np_swapaxes x 0%nat axis) axis 0%nat = x) ->
    (forall x, np_swapaxes (np_swapaxes x axis 0%nat) 0%nat axis = x) ->
    (forall x, np_reverse0 (np_reverse0 x) = x) ->
    sequence_flip_axis (sequence_flip_axis seq axis) axis = seq.
Proof.
  intros seq axis Hback Hforth Hrev. unfold sequence_flip_axis.
  rewrite !map_map.
  induction seq as [|x rest IH]; simpl; [reflexivity|].
  now rewrite Hback, Hrev, Hforth, IH.
Qed.

(** X2.  On the empty sequence all four transforms raise [IndexError] at
    [seq[0]].  The rotation, the shear and the zoom have drawn their
    parameters by then (the zoom none for a range of magnitude at most
    [2^-54], which rounding absorbs); the shift raises before it draws. *)
Theorem transforms_on_empty_sequence :
  forall (kw : kwargs) (w : world) (rotation_range height_shift_range
          width_shift_range shear_range zoom_range : Q),
    random_sequence_rotation [] rotation_range kw w
    = (Raise IndexError, after_draws 1 w)
    /\ random_sequence_shift [] height_shift_range width_shift_range kw w
       = (Raise IndexError, w)
    /\ random_sequence_shear [] shear_range kw w
       = (Raise IndexError, after_draws 1 w)
    /\ random_sequence_zoom [] zoom_range kw w
       = (Raise IndexError,
          after_draws (if Qle_bool (Qabs zoom_range) (2 ^ (-54)) then 0 else 2) w).
Proof.
  intros kw w rr hsr wsr sr zr. split; [|split; [|split]].
  - unfold random_sequence_rotation, bind. now rewrite np_random_uniform_run.
  - reflexivity.
  - unfold random_sequence_shear, bind. now rewrite np_random_uniform_run.
  - unfold random_sequence_zoom, bind.
    destruct (zoom_factors_run zr w) as (z & Hz). rewrite Hz.
    reflexivity.
Qed.

Lemma uniform_within (low high u : Q) :
  low <= high -> 0 <= u -> u < 1 ->
  low <= low + (high - low) * u /\ low + (high - low) * u <= high.
Proof. intros. split; nra. Qed.

Lemma unit_draw (w : world) (i : nat) :
  unit_draws w -> 0 <= draw w i /\ draw w i < 1.
Proof. intro H. apply H. Qed.

(** X3.  With a range of at least 0 and unit draws in [[0, 1)], the
    rotation and the shear each apply the centred matrix of an angle of at
    most the range, in degrees, to either side. *)
Theorem rotation_and_shear_angle_within_range :
  forall (seq : list ndarray) (shp : list nat) (kw : kwargs) (range : Q) (w : world),
    seq <> [] ->
    Forall (fun x => np_shape x = shp) seq ->
    (default 0%nat (kw_row_axis kw) < List.length shp)%nat ->
    (default 1%nat (kw_col_axis kw) < List.length shp)%nat ->
    0 <= range ->
    unit_draws w ->
    exists degrees,
      - range <= degrees /\ degrees <= range
      /\ random_sequence_rotation seq range kw w
         = (Ok (apply_to_sequence seq
                  (transform_matrix_offset_center
                     (rotation_matrix_of (np_deg2rad degrees))
                     (nth (default 0%nat (kw_row_axis kw)) shp 0%nat)
                     (nth (default 1%nat (kw_col_axis kw)) shp 0%nat))
                  (default 2%nat (kw_channel_axis kw))
                  (default "nearest"%string (kw_fill_mode kw))
                  (default 0 (kw_cval kw))),
            after_draws 1 w)
      /\ random_sequence_shear seq range kw w
         = (Ok (apply_to_sequence seq
                  (transform_matrix_offset_center
                     (shear_matrix_of (np_deg2rad degrees))
                     (nth (default 0%nat (kw_row_axis kw)) shp 0%nat)
                     (nth (default 1%nat (kw_col_axis kw)) shp 0%nat))
                  (default 2%nat (kw_channel_axis kw))
                  (default "nearest"%string (kw_fill_mode kw))
                  (default 0 (kw_cval kw))),
            after_draws 1 w).
Proof.
  intros seq shp kw range w Hne Hshape Hrow Hcol Hrange Hunit.
  destruct (unit_draw 0 Hunit) as (Hu0 & Hu1).
  exists (- range + (range - - range) * draw w 0).
  destruct (@uniform_within (- range) range (draw w 0)) as (Hlo & Hhi);
    [lra | assumption | assumption |].
  split; [exact Hlo|]. split; [exact Hhi|]. split.
  - unfold random_sequence_rotation, bind.
    rewrite np_random_uniform_run, (frame_size_run _ Hne Hshape Hrow Hcol).
    reflexivity.
  - unfold random_sequence_shear, bind.
    rewrite np_random_uniform_run, (frame_size_run _ Hne Hshape Hrow Hcol).
    reflexivity.
Qed.

(** X4.  With a zoom range of at least 0 and unit draws in [[0, 1)], the
    zoom scales rows and columns by factors that lie between the floats
    [zlower = 1 - zoom_range] and [zupper = 1 + zoom_range], which lie to
    either side of 1.  The factors are drawn, unless the range is at most
    [2^-54]: then both bounds are 1 and so are the factors. *)
Theorem zoom_factors_within_range :
  forall (seq : list ndarray) (shp : list nat) (kw : kwargs) (zoom_range : Q)
         (w : world),
    seq <> [] ->
    Forall (fun x => np_shape x = shp) seq ->
    (default 0%nat (kw_row_axis kw) < List.length shp)%nat ->
    (default 1%nat (kw_col_axis kw) < List.length shp)%nat ->
    0 <= zoom_range ->
    unit_draws w ->
    let zlower := binary64 (1 - zoom_range) in
    let zupper := binary64 (1 + zoom_range) in
    (zlower <= 1 /\ 1 <= zupper)
    /\ exists zx zy,
         (zlower <= zx /\ zx <= zupper)
         /\ (zlower <= zy /\ zy <= zupper)
         /\ random_sequence_zoom seq zoom_range kw w
            = (Ok (map (fun x =>
                          apply_transform x
                            (transform_matrix_offset_center (zoom_matrix_of zx zy)
                               (nth (default 0%nat (kw_row_axis kw)) shp 0%nat)
                               (nth (default 1%nat (kw_col_axis kw)) shp 0%nat))
                            (default 1%nat (kw_channel_axis kw))
                            (default "nearest"%string (kw_fill_mode kw))
                            (default 0 (kw_cval kw)))
                       seq),
               after_draws (if Qle_bool zoom_range (2 ^ (-54)) then 0 else 2) w).
Proof.
  intros seq shp kw zoom_range w Hne Hshape Hrow Hcol Hrange Hunit zlower zupper.
  assert (Hlow : zlower <= 1) by (apply binary64_le_one; lra).
  assert (Hup : 1 <= zupper) by (apply binary64_ge_one; lra).
  split; [now split|].
  subst zlower zupper.
  assert (Habs : Qabs zoom_range == zoom_range) by now apply Qabs_pos.
  destruct (Qle_bool zoom_range (2 ^ (-54))) eqn:E.
  - apply Qle_bool_iff in E.
    assert (Hz : Qabs zoom_range <= absorbed_range) by now rewrite Habs.
    pose proof (proj2 (zoom_degenerate_iff zoom_range) Hz) as Htest.
    apply andb_true_iff in Htest. destruct Htest as (Hl1 & Hu1).
    apply Qeq_bool_iff in Hl1, Hu1.
    exists 1, 1. split; [split; lra|]. split; [split; lra|].
    rewrite (@zoom_absorbed_run seq shp kw Hne Hshape Hrow Hcol zoom_range w Hz).
    now rewrite after_draws_0.
  - assert (Hz : absorbed_range < Qabs zoom_range).
    { rewrite Habs. apply Qnot_le_lt. intro Hle. apply Qle_bool_iff in Hle.
      unfold absorbed_range in Hle. congruence. }
    destruct (unit_draw 0 Hunit) as (Ha0 & Ha1).
    destruct (unit_draw 1 Hunit) as (Hb0 & Hb1).
    do 2 eexists. split; [|split].
    3: { unfold random_sequence_zoom, bind.
         rewrite (@zoom_factors_drawn zoom_range w Hz).
         rewrite (frame_size_run _ Hne Hshape Hrow Hcol).
         reflexivity. }
    + apply uniform_within; [lra | assumption | assumption].
    + apply uniform_within; [lra | assumption | assumption].
Qed.

Lemma init_shift_ranges (a : init_args) (self : FrameProcessor) :
  __init__ a = Ok self ->
  (0 <= width_shift_range self /\ width_shift_range self <= 1)
  /\ (0 <= height_shift_range self /\ height_shift_range self <= 1).
Proof.
  unfold __init__.
  destruct (arg_rotation_range a); try discriminate.
  destruct (arg_width_shift_range a) as [|wsr| | |]; try discriminate.
  destruct (Qle_bool wsr 1 && Qle_bool 0 wsr)%bool eqn:Ew; try discriminate.
  destruct (arg_height_shift_range a) as [|hsr| | |]; try discriminate.
  destruct (Qle_bool hsr 1 && Qle_bool 0 hsr)%bool eqn:Eh; try discriminate.
  destruct (arg_zoom_range a); try discriminate.
  destruct (arg_horizontal_flip a); try discriminate.
  destruct (arg_vertical_flip a); try discriminate.
  simpl. intro H. inversion H; subst; simpl.
  apply andb_true_iff in Ew, Eh.
  destruct Ew as (Ew1 & Ew0). destruct Eh as (Eh1 & Eh0).
  apply Qle_bool_iff in Ew1, Ew0, Eh1, Eh0. tauto.
Qed.

Lemma scaled_within (r u size : Q) :
  0 <= r -> r <= 1 -> 0 <= u -> u < 1 -> 0 <= size ->
  - size <= (- r + (r - - r) * u) * size /\ (- r + (r - - r) * u) * size <= size.
Proof.
  intros.
  assert (- r <= - r + (r - - r) * u) by nra.
  assert (- r + (r - - r) * u <= r) by nra.
  split; nra.
Qed.

Lemma size_nonneg (n : nat) : 0 <= inject_Z (Z.of_nat n).
Proof.
  change 0 with (inject_Z 0). rewrite <- Zle_Qle. lia.
Qed.

(** X5.  For a processor that [__init__] accepted, the shift step of
    [frame_generator], when it runs, translates every frame of the sample
    by one and the same offset, of at most the frame height along the rows
    and at most the frame width along the columns. *)
Theorem shift_translation_within_frame :
  forall (a : init_args) (self : FrameProcessor) (seq : list ndarray)
         (shp : list nat) (w : world),
    __init__ a = Ok self ->
    seq <> [] ->
    Forall (fun x => np_shape x = shp) seq ->
    (2 <= List.length shp)%nat ->
    unit_draws w ->
    (Qgt_bool (width_shift_range self) 0
     || Qgt_bool (height_shift_range self) 0)%bool = true ->
    let height := inject_Z (Z.of_nat (nth 0 shp 0%nat)) in
    let width := inject_Z (Z.of_nat (nth 1 shp 0%nat)) in
    exists tx ty,
      (- height <= tx /\ tx <= height)
      /\ (- width <= ty /\ ty <= width)
      /\ shift_step self seq w
         = (Ok (apply_to_sequence seq (translation_matrix_of tx ty) 2 "nearest" 0),
            after_draws 2 w).
Proof.
  intros a self seq shp w Hinit Hne Hshape Haxes Hunit Hon height width.
  destruct (init_shift_ranges a Hinit) as ((Hw0 & Hw1) & (Hh0 & Hh1)).
  destruct (unit_draw 0 Hunit) as (Ha0 & Ha1).
  destruct (unit_draw 1 Hunit) as (Hb0 & Hb1).
  do 2 eexists. split; [|split].
  3: exact (shift_step_run self Hne Hshape Haxes w Hon).
  - apply scaled_within;
      [exact Hw0 | exact Hw1 | exact Ha0 | exact Ha1 | apply size_nonneg].
  - apply scaled_within;
      [exact Hh0 | exact Hh1 | exact Hb0 | exact Hb1 | apply size_nonneg].
Qed.

(** ** More on sequence assembly *)

Lemma append_inj_l (p a b : string) : (p ++ a = p ++ b)%string -> a = b.
Proof.
  induction p as [|c p IH]; simpl; intro H; [exact H|].
  inversion H. now apply IH.
Qed.

Lemma length_append (a b : string) :
  String.length (a ++ b) = (String.length a + String.length b)%nat.
Proof. induction a as [|c a IH]; simpl; [reflexivity | now rewrite IH]. Qed.

Lemma append_inj_r (t a b : string) : (a ++ t = b ++ t)%string -> a = b.
Proof.
  revert b. induction a as [|c a IH]; intros [|d b] H; simpl in H.
  - reflexivity.
  - exfalso. apply (f_equal String.length) in H. simpl in H.
    rewrite length_append in H. lia.
  - exfalso. apply (f_equal String.length) in H. simpl in H.
    rewrite length_append in H. lia.
  - inversion H. f_equal. now apply IH.
Qed.

Lemma frame_name_inj (i j : nat) : frame_name i = frame_name j -> i = j.
Proof.
  unfold frame_name. intro H.
  apply append_inj_l, append_inj_r in H.
  assert (Hu : Nat.to_uint i = Nat.to_uint j).
  { pose proof (NilEmpty.usu (Nat.to_uint i)) as Hi.
    pose proof (NilEmpty.usu (Nat.to_uint j)) as Hj.
    rewrite H in Hi. rewrite Hi in Hj. now inversion Hj. }
  now apply DecimalNat.Unsigned.to_uint_inj.
Qed.

Lemma os_path_join_inj (a b1 b2 : string) :
  os_path_join a b1 = os_path_join a b2 -> b1 = b2.
Proof.
  unfold os_path_join. destruct a as [|c a]; [auto|].
  destruct (ends_with_slash (String c a)); intro H.
  - now apply append_inj_l in H.
  - now apply append_inj_l, append_inj_l in H.
Qed.

Lemma NoDup_map_injective {A B} (f : A -> B) (l : list A) :
  (forall x y, f x = f y -> x = y) -> NoDup l -> NoDup (map f l).
Proof.
  intros Hinj Hnd. induction Hnd as [|x l Hnotin Hnd IH]; simpl; constructor.
  - intro Hin. apply in_map_iff in Hin. destruct Hin as (y & Hy & Hin).
    apply Hinj in Hy. now subst.
  - exact IH.
Qed.

(** X6.  The paths [get_sample_frames] returns for a listable directory are
    pairwise distinct: no two indices name the same frame file. *)
Theorem sample_frames_distinct :
  forall (sample : string) (contents : list string) (w : world),
    os_listdir fs sample = Some contents ->
    exists paths,
      get_sample_frames fs sample w = (Ok paths, w)
      /\ List.length paths = List.length contents
      /\ NoDup paths.
Proof.
  intros sample contents w Hls. eexists.
  split; [exact (get_sample_frames_run sample w Hls)|]. split.
  - now rewrite length_map, length_seq.
  - apply NoDup_map_injective; [|apply seq_NoDup].
    intros i j H. now apply os_path_join_inj, frame_name_inj in H.
Qed.

Lemma build_image_sequence_frames (frames : list string)
    (input_shape : option (nat * nat * nat)) :
  (forall frame, In frame frames ->
                 load_img fs frame (target_size input_shape) <> None) ->
  exists sequence,
    (forall w, build_image_sequence fs frames input_shape w = (Ok sequence, w))
    /\ Forall2 (fun frame x =>
                  exists im, load_img fs frame (target_size input_shape) = Some im
                             /\ x = np_scale255 (img_to_array im))
               frames sequence.
Proof.
  unfold build_image_sequence.
  induction frames as [|f rest IH]; intro Hall.
  - exists []. split; [reflexivity | constructor].
  - destruct IH as (sequence & Hrun & Hframes).
    { intros frame Hin. apply Hall. now right. }
    destruct (load_img fs f (target_size input_shape)) as [im|] eqn:Ef.
    2: { exfalso. apply (Hall f); [now left | exact Ef]. }
    exists (np_scale255 (img_to_array im) :: sequence). split.
    + intro w. simpl. unfold bind at 1.
      rewrite process_img_run, target_size_default, Ef.
      unfold bind. now rewrite Hrun.
    + constructor; [now exists im | exact Hframes].
Qed.

(** X7.  A sample whose directory lists [count] entries and whose frames
    0 to [count - 1] all load assembles, without a draw or a print, to
    exactly [count] frames: frame [i] is the image read from
    [sample/frame<i>.png] at 224 by 224, converted and scaled. *)
Theorem assembled_sequence_frames :
  forall (sample : string) (contents : list string),
    os_listdir fs sample = Some contents ->
    (forall i, (i < List.length contents)%nat ->
               load_img fs (os_path_join sample (frame_name i)) (224, 224)%nat
               <> None) ->
    exists sequence,
      (forall w, assemble fs sample w = (Ok sequence, w))
      /\ Forall2 (fun i x =>
                    exists im,
                      load_img fs (os_path_join sample (frame_name i)) (224, 224)%nat
                      = Some im
                      /\ x = np_scale255 (img_to_array im))
                 (seq 0 (List.length contents)) sequence.
Proof.
  intros sample contents Hls Hload.
  destruct (@build_image_sequence_frames
              (map (fun i => os_path_join sample (frame_name i))
                   (seq 0 (List.length contents))) None)
    as (sequence & Hrun & Hframes).
  { intros frame Hin. apply in_map_iff in Hin. destruct Hin as (i & <- & Hi).
    apply in_seq in Hi. apply Hload. lia. }
  exists sequence. split.
  - intro w. unfold assemble, bind. now rewrite (get_sample_frames_run _ w Hls).
  - clear Hrun Hload.
    revert sequence Hframes.
    induction (seq 0 (List.length contents)) as [|i l IH]; intros sequence Hframes;
      inversion Hframes; subst; constructor; auto.
Qed.

(** ** More on the generators *)

Lemma Qgt_bool_false (a b : Q) : a <= b -> Qgt_bool a b = false.
Proof.
  intro H. unfold Qgt_bool. apply Qle_bool_iff in H. now rewrite H.
Qed.

(** X8.  Non-positive ranges and cleared flip flags switch every step of
    [frame_generator] off: the sample is the assembled sequence itself, no
    random number is drawn, and an error of the assembly is the error of
    the sample.  A negative range, which [__init__] accepts, is such a
    range. *)
Theorem frame_sample_without_augmentation :
  forall (self : FrameProcessor) (shear : Q) (pth : string)
         (coin_flip : option bool) (w : world),
    (rotation_range self <= 0)%Z ->
    width_shift_range self <= 0 ->
    height_shift_range self <= 0 ->
    as_number (shear_range self) = Some shear ->
    shear <= 0 ->
    zoom_range self <= 0 ->
    vertical_flip self = false ->
    horizontal_flip self = false ->
    frame_sample fs self pth coin_flip w
    = match assemble fs pth w with
      | (Ok sequence, w') => (Ok (sequence, coin_flip), w')
      | (Raise e, w') => (Raise e, w')
      end.
Proof.
  intros self shear pth coin_flip w Hrot Hws Hhs Hshear Hsh Hzoom Hv Hh.
  unfold frame_sample, assemble, bind.
  destruct (get_sample_frames fs pth w) as [[frames|e] w0]; [|reflexivity].
  destruct (build_image_sequence fs frames None w0) as [[sequence|e] w1];
    [|reflexivity].
  unfold rotation_step. rewrite Qgt_bool_false.
  2: { change 0 with (inject_Z 0). now rewrite <- Zle_Qle. }
  unfold ret at 1.
  unfold shift_step. rewrite !Qgt_bool_false by assumption. simpl orb.
  unfold ret at 1.
  unfold shear_step, bind, lift_option. rewrite Hshear. unfold ret at 1.
  rewrite Qgt_bool_false by assumption. unfold ret at 1.
  unfold zoom_step. rewrite Qgt_bool_false by assumption. unfold ret at 1.
  unfold vertical_flip_step, horizontal_flip_step. rewrite Hv, Hh.
  reflexivity.
Qed.

(** A finished generator stays finished. *)
Lemma pull_nth_finished {L Y} (start : M L) (loop : L -> M (Y * L)) (n : nat)
    (w : world) :
  pull_nth (next start loop) n Finished w = (Raise StopIteration, Finished, w).
Proof. induction n as [|n IH]; simpl; [reflexivity | exact IH]. Qed.

(** A pull that raises finishes the generator, so that every later pull
    raises [StopIteration] and leaves the world as the failure left it. *)
Lemma pull_after_failure {L Y} (start : M L) (loop : L -> M (Y * L))
    (g : generator L) (w w' : world) (e : exn) (g' : generator L) (n : nat) :
  next start loop g w = (Raise e, g', w') ->
  pull_nth (next start loop) (S n) g w = (Raise StopIteration, Finished, w').
Proof.
  intro Hnext. cbn [pull_nth]. rewrite Hnext.
  assert (g' = Finished) as ->.
  { unfold next in Hnext.
    destruct g as [|l|].
    - destruct (start w) as [[l|e0] w0].
      + destruct (loop l w0) as [[[y l']|e1] w1]; inversion Hnext; reflexivity.
      + inversion Hnext; reflexivity.
    - destruct (loop l w) as [[[y l']|e1] w1]; inversion Hnext; reflexivity.
    - inversion Hnext; reflexivity. }
  apply pull_nth_finished.
Qed.

(** X9.  A [batch_size] that is negative or exceeds the number of keys is
    not noticed by [__init__]: it makes the first pull of
    [frame_generator] raise [ValueError] (from [random.sample], after the
    banner is printed), and every later pull raise [StopIteration]. *)
Theorem frame_generator_batch_out_of_range :
  forall (self : FrameProcessor) (paths2labels : dict) (generator_type : string)
         (b : Z) (n : nat) (w : world),
    batch_size self = PyInt b ->
    (b < 0 \/ Z.of_nat (List.length paths2labels) < b)%Z ->
    fst (pull_nth (frame_generator_next fs self paths2labels generator_type) n
                  (frame_generator self paths2labels generator_type) w)
    = (Raise (if (n =? 0)%nat then ValueError else StopIteration), Finished).
Proof.
  intros self paths2labels generator_type b n w Hb Hrange.
  assert (Hfirst : exists w',
             frame_generator_next fs self paths2labels generator_type
               (frame_generator self paths2labels generator_type) w
             = (Raise ValueError, Finished, w')).
  { eexists. unfold frame_generator_next, frame_generator, next, frame_start, bind.
    assert (Hout : ((0 <=? b)%Z
                    && (b <=? Z.of_nat (List.length (dict_keys paths2labels)))%Z)%bool
                   = false).
    { apply andb_false_iff. unfold dict_keys. rewrite length_map.
      destruct Hrange; [left; apply Z.leb_gt | right; apply Z.leb_gt]; lia. }
    unfold print, ret. unfold frame_loop, bind, random_sample.
    cbn [f_sequence_paths]. rewrite Hb. cbn [as_index]. rewrite Hout.
    reflexivity. }
  destruct Hfirst as (w' & Hfirst).
  destruct n as [|n].
  - cbn [pull_nth]. unfold frame_generator_next in *. now rewrite Hfirst.
  - unfold frame_generator_next in *.
    now rewrite (pull_after_failure _ _ _ _ n Hfirst).
Qed.

(** X10.  On the empty mapping the first pull of [testing_generator] raises
    [IndexError] (at [sequence_paths[0]]) and every later pull raises
    [StopIteration]. *)
Theorem testing_generator_empty_mapping :
  forall (self : FrameProcessor) (generator_type : string) (n : nat) (w : world),
    fst (pull_nth (testing_generator_next fs self [] generator_type) n
                  (testing_generator self [] generator_type) w)
    = (Raise (if (n =? 0)%nat then IndexError else StopIteration), Finished).
Proof.
  intros self generator_type n w.
  assert (Hfirst : exists w',
             testing_generator_next fs self [] generator_type
               (testing_generator self [] generator_type) w
             = (Raise IndexError, Finished, w')).
  { eexists. reflexivity. }
  destruct Hfirst as (w' & Hfirst).
  destruct n as [|n].
  - cbn [pull_nth]. now rewrite Hfirst.
  - unfold testing_generator_next in *.
    now rewrite (pull_after_failure _ _ _ _ n Hfirst).
Qed.

Lemma random_sample_inv (population selected : list string) (k : pyval)
    (w w' : world) :
  sample_contract ->
  NoDup population ->
  random_sample population k w = (Ok selected, w') ->
  exists b,
    as_index k = Some b
    /\ (0 <= b <= Z.of_nat (List.length population))%Z
    /\ List.length selected = Z.to_nat b
    /\ NoDup selected
    /\ incl selected population.
Proof.
  intros Hcontract Hpop. unfold random_sample.
  destruct (as_index k) as [b|] eqn:Ek.
  2: { destruct k as [| q | | |]; try discriminate.
       destruct (Qle_bool 0 q
                 && Qle_bool q (inject_Z (Z.of_nat (List.length population))))%bool;
         discriminate. }
  destruct ((0 <=? b)%Z && (b <=? Z.of_nat (List.length population))%Z)%bool eqn:Er;
    [|discriminate].
  apply andb_true_iff in Er. destruct Er as (Er0 & Er1).
  apply Z.leb_le in Er0, Er1.
  destruct (sample_positions (py_state w) (List.length population) (Z.to_nat b))
    as [idx s'] eqn:Es.
  destruct (Hcontract (py_state w) (List.length population) (Z.to_nat b))
    as (Hlen & Hnd & Hbound); [lia|].
  rewrite Es in Hlen, Hnd, Hbound. simpl in Hlen, Hnd, Hbound.
  destruct (mapM_index_run population
              (mkWorld (np_stream w) (np_drawn w) s' (stdout w)) Hbound)
    as (selected0 & Hrun & Hlen' & Hnth).
  rewrite Hrun. intro H. inversion H; subst selected0 w'.
  destruct (@selected_NoDup _ population selected idx Hpop Hnd Hlen' Hnth Hbound)
    as (Hnd' & Hincl).
  exists b. repeat split; try assumption; congruence.
Qed.

Lemma mapM_getitem_inv (d : dict) (selected : list string) (y : list label)
    (w w' : world) :
  mapM (getitem d) selected w = (Ok y, w') ->
  Forall2 (fun pth lbl => dict_get d pth = Some lbl) selected y.
Proof.
  revert y w w'. induction selected as [|pth rest IH]; intros y w w'; simpl.
  - unfold ret. intro H. inversion H. constructor.
  - unfold bind at 1. unfold getitem at 1, lift_option.
    destruct (dict_get d pth) as [lbl|] eqn:El; [|discriminate].
    unfold ret at 1, bind.
    destruct (mapM (getitem d) rest w) as [[y'|e] w1] eqn:Er; [|discriminate].
    unfold ret. intro H. inversion H; subst.
    constructor; [exact El | eapply IH; eauto].
Qed.

Lemma frame_samples_inv (self : FrameProcessor) (selected_paths : list string) :
  forall X coin_flip w X' coin_flip' w',
    frame_samples fs self selected_paths X coin_flip w = (Ok (X', coin_flip'), w') ->
    exists xs, X' = X ++ xs /\ Forall2 (sampled_from fs self) selected_paths xs.
Proof.
  induction selected_paths as [|pth rest IH]; intros X c w X' c' w'; simpl.
  - unfold ret. intro H. inversion H; subst. exists []. split; [|constructor].
    now rewrite app_nil_r.
  - unfold bind.
    destruct (frame_sample fs self pth c w) as [[[x c1]|e] w1] eqn:E1; [|discriminate].
    simpl. intro H. destruct (IH _ _ _ _ _ _ H) as (xs & -> & Hall).
    exists (x :: xs). split; [now rewrite <- app_assoc|].
    constructor; [|exact Hall]. now exists c, c1, w, w1.
Qed.

Section YieldedBatches.

Variables (self : FrameProcessor) (paths2labels : dict) (generator_type : string).
Hypothesis sample_distinct : sample_contract.
Hypothesis keys_unique : NoDup (dict_keys paths2labels).

Lemma frame_loop_inv (l l' : frame_locals) (w w' : world)
    (batch : list (list ndarray) * list label) :
  f_sequence_paths l = dict_keys paths2labels ->
  frame_loop fs self paths2labels l w = (Ok (batch, l'), w') ->
  yielded_ok fs self paths2labels batch /\ f_sequence_paths l' = dict_keys paths2labels.
Proof.
  intros Hkeys. unfold frame_loop. rewrite Hkeys. unfold bind at 1.
  destruct (random_sample (dict_keys paths2labels) (batch_size self) w)
    as [[selected|e] w1] eqn:Es; [|discriminate].
  destruct (@random_sample_inv _ _ _ _ _ sample_distinct keys_unique Es)
    as (b & Hb & Hrange & Hlen & Hnd & Hincl).
  unfold bind at 1.
  destruct (mapM (getitem paths2labels) selected w1) as [[y|e] w2] eqn:Ey;
    [|discriminate].
  pose proof (@mapM_getitem_inv _ _ _ _ _ Ey) as Hy.
  unfold bind at 1.
  destruct (frame_samples fs self selected [] (f_coin_flip l) w2)
    as [[[X c']|e] w3] eqn:EX; [|discriminate].
  destruct (@frame_samples_inv _ _ _ _ _ _ _ _ EX) as (xs & HX & Hxs). simpl in HX. subst X.
  unfold bind, np_array. cbn [fst snd].
  destruct (np_array_error xs); [discriminate|].
  unfold ret. intro H. inversion H; subst. simpl. split; [|reflexivity].
  exists b. split; [exact Hb|]. split.
  { unfold dict_keys in Hrange. now rewrite length_map in Hrange. }
  unfold batch_ok. split; [|split].
  - rewrite <- Hlen. symmetry. eapply Forall2_length; eauto.
  - rewrite <- Hlen. symmetry. eapply Forall2_length; eauto.
  - exists selected. now repeat split.
Qed.

Lemma frame_next_inv (g g' : generator frame_locals) (w w' : world)
    (r : result (list (list ndarray) * list label)) :
  frame_state_ok paths2labels g ->
  frame_generator_next fs self paths2labels generator_type g w = (r, g', w') ->
  frame_state_ok paths2labels g' /\ (forall batch, r = Ok batch -> yielded_ok fs self paths2labels batch).
Proof.
  intros Hg. unfold frame_generator_next, next.
  assert (Hresume : forall l w0,
             f_sequence_paths l = dict_keys paths2labels ->
             match frame_loop fs self paths2labels l w0 with
             | (Ok (y, l'), w1) => (Ok y, Suspended l', w1)
             | (Raise e, w1) => (Raise e, Finished, w1)
             end = (r, g', w') ->
             frame_state_ok paths2labels g' /\ (forall batch, r = Ok batch -> yielded_ok fs self paths2labels batch)).
  { intros l w0 Hl.
    destruct (frame_loop fs self paths2labels l w0) as [[[y l']|e] w1] eqn:El;
      intro H; inversion H; subst.
    - destruct (@frame_loop_inv _ _ _ _ _ Hl El) as (Hy & Hl'). split; [exact Hl'|].
      intros batch Hb. now inversion Hb; subst.
    - split; [exact I | discriminate]. }
  destruct g as [|l|].
  - unfold frame_start, bind, print, ret. apply Hresume. reflexivity.
  - apply Hresume. exact Hg.
  - intro H. inversion H; subst. split; [exact I | discriminate].
Qed.

Lemma frame_pull_inv (n : nat) :
  forall (g g' : generator frame_locals) (w w' : world)
         (batch : list (list ndarray) * list label),
    frame_state_ok paths2labels g ->
    pull_nth (frame_generator_next fs self paths2labels generator_type) n g w
    = (Ok batch, g', w') ->
    yielded_ok fs self paths2labels batch.
Proof.
  induction n as [|n IH]; intros g g' w w' batch Hg; cbn [pull_nth].
  - intro H. now apply (proj2 (@frame_next_inv _ _ _ _ _ Hg H)).
  - destruct (frame_generator_next fs self paths2labels generator_type g w)
      as [[r g1] w1] eqn:E1.
    apply (IH g1). exact (proj1 (@frame_next_inv _ _ _ _ _ Hg E1)).
Qed.

End YieldedBatches.

(** X11.  Whatever the configuration and the state of the file system, a
    pull of [frame_generator] that yields, yields a full and aligned
    batch: [batch_size] is an integer between 0 and the number of keys,
    [X] and [y] both have that length, the paths behind them are distinct
    keys of the mapping, [y[i]] is the label of path [i] and [X[i]] was
    built from path [i].  A sample that fails is never skipped. *)
Theorem frame_generator_yields_aligned :
  forall (self : FrameProcessor) (paths2labels : dict) (generator_type : string)
         (n : nat) (w w' : world) (g' : generator frame_locals)
         (batch : list (list ndarray) * list label),
    sample_contract ->
    NoDup (dict_keys paths2labels) ->
    pull_nth (frame_generator_next fs self paths2labels generator_type) n
             (frame_generator self paths2labels generator_type) w
    = (Ok batch, g', w') ->
    exists b,
      as_index (batch_size self) = Some b
      /\ (0 <= b <= Z.of_nat (List.length paths2labels))%Z
      /\ batch_ok fs self paths2labels (Z.to_nat b) batch.
Proof.
  intros self paths2labels generator_type n w w' g' batch Hcontract Hnd Hpull.
  destruct (@frame_pull_inv self paths2labels generator_type Hcontract Hnd n
              Created g' w w' batch I Hpull) as (b & Hb).
  now exists b.
Qed.

Lemma build_image_sequence_outcome (frames : list string)
    (input_shape : option (nat * nat * nat)) (w : world) :
  exists r,
    build_image_sequence fs frames input_shape w = (r, w)
    /\ (r = Raise IOError \/ exists sequence, r = Ok sequence).
Proof.
  unfold build_image_sequence.
  induction frames as [|f rest IH].
  - exists (Ok []). split; [reflexivity | right; now exists []].
  - simpl. unfold bind at 1. rewrite process_img_run.
    destruct (load_img fs f _) as [im|].
    + destruct IH as (r & Hrun & Hr). unfold bind. rewrite Hrun.
      destruct Hr as [-> | (sequence & ->)].
      * exists (Raise IOError). split; [reflexivity | now left].
      * eexists. split; [reflexivity | right; eauto].
    + exists (Raise IOError). split; [reflexivity | now left].
Qed.

Lemma assemble_outcome (pth : string) (w : world) :
  exists r,
    assemble fs pth w = (r, w)
    /\ (r = Raise IOError \/ exists sequence, r = Ok sequence).
Proof.
  unfold assemble, bind, get_sample_frames, lift_option.
  destruct (os_listdir fs pth) as [contents|].
  - unfold bind, ret. apply build_image_sequence_outcome.
  - exists (Raise IOError). split; [reflexivity | now left].
Qed.

Section TestingOutcomes.

Variables (self : FrameProcessor) (paths2labels : dict) (generator_type : string).

Lemma dict_get_in (d : dict) (k : string) (v : label) :
  dict_get d k = Some v -> In v (map snd d).
Proof.
  induction d as [|[k' v'] d IH]; simpl; [discriminate|].
  destruct (String.eqb k k'); intro H.
  - inversion H. now left.
  - right. now apply IH.
Qed.

Lemma testing_loop_outcome (l : testing_locals) (w : world) :
  testing_state_ok paths2labels (Suspended l) ->
  exists r w',
    testing_loop fs paths2labels l w = (r, w')
    /\ same_random w w'
    /\ match r with
       | Ok (batch, l') =>
           testing_outcome paths2labels False (Ok batch)
           /\ testing_state_ok paths2labels (Suspended l')
       | Raise e => e = IOError
       end.
Proof.
  destruct l as [paths c]. simpl. intros (-> & Hc).
  destruct (nth_error (dict_keys paths2labels) c) as [pth|] eqn:Ekey.
  2: { apply nth_error_None in Ekey. unfold dict_keys in Ekey.
       rewrite length_map in Ekey. lia. }
  destruct (@dict_get_key paths2labels pth) as (lbl & Hlbl).
  { eapply nth_error_In; eauto. }
  unfold testing_loop, bind, index, getitem, lift_option. simpl.
  rewrite Ekey. unfold ret at 1. rewrite Hlbl. unfold ret at 1.
  pose proof (assemble_outcome pth w) as (r & Hasm & Hr).
  unfold assemble, bind in Hasm.
  destruct (get_sample_frames fs pth w) as [[frames|e] w0].
  - destruct (build_image_sequence fs frames None w0) as [[sequence|e] w1].
    + inversion Hasm; subst. do 2 eexists. split; [reflexivity|].
      split; [repeat split|]. simpl. split.
      * split; [reflexivity | now apply dict_get_in with (k := pth)].
      * split; [reflexivity|].
        unfold dict_keys. rewrite length_map.
        destruct (c + 1 =? List.length paths2labels)%nat eqn:E; [lia|].
        apply Nat.eqb_neq in E. lia.
    + inversion Hasm; subst. do 2 eexists. split; [reflexivity|].
      split; [repeat split|].
      destruct Hr as [Hr | (s & Hr)]; [now inversion Hr | discriminate].
  - inversion Hasm; subst. do 2 eexists. split; [reflexivity|].
    split; [repeat split|].
    destruct Hr as [Hr | (s & Hr)]; [now inversion Hr | discriminate].
Qed.

Lemma testing_next_outcome (g : generator testing_locals) (w : world) :
  testing_state_ok paths2labels g ->
  exists r g' w',
    testing_generator_next fs self paths2labels generator_type g w = (r, g', w')
    /\ same_random w w'
    /\ testing_state_ok paths2labels g'
    /\ testing_outcome paths2labels (g = Finished) r.
Proof.
  intro Hg. unfold testing_generator_next, next.
  assert (Hresume : forall l w0,
             same_random w w0 ->
             testing_state_ok paths2labels (Suspended l) ->
             exists r g' w',
               match testing_loop fs paths2labels l w0 with
               | (Ok (y, l'), w1) => (Ok y, Suspended l', w1)
               | (Raise e, w1) => (Raise e, Finished, w1)
               end = (r, g', w')
               /\ same_random w w'
               /\ testing_state_ok paths2labels g'
               /\ testing_outcome paths2labels (g = Finished) r).
  { intros l w0 Hsame Hl.
    destruct (testing_loop_outcome w0 Hl) as (r & w1 & Hloop & Hsame1 & Hr).
    rewrite Hloop. destruct r as [[batch l']|e].
    - destruct Hr as (Hbatch & Hl'). do 3 eexists. split; [reflexivity|].
      split; [exact (same_random_trans Hsame Hsame1)|]. split; [exact Hl'|].
      destruct batch as [X y]. exact Hbatch.
    - subst e. do 3 eexists. split; [reflexivity|].
      split; [exact (same_random_trans Hsame Hsame1)|]. split; [exact I|].
      now left. }
  destruct g as [|l|].
  - unfold testing_start, bind, print, ret.
    destruct paths2labels as [|kv rest] eqn:Ed.
    + do 3 eexists. split; [reflexivity|]. split; [repeat split|].
      split; [exact I|]. right. left. now split.
    + apply Hresume; [repeat split|]. simpl. split; [reflexivity | lia].
  - apply Hresume; [apply same_random_refl | exact Hg].
  - do 3 eexists. split; [reflexivity|]. split; [apply same_random_refl|].
    split; [exact I|]. right. right. now split.
Qed.

Lemma testing_pull_outcome (n : nat) :
  forall (g : generator testing_locals) (w : world),
    testing_state_ok paths2labels g ->
    exists r g' w',
      pull_nth (testing_generator_next fs self paths2labels generator_type) n g w
      = (r, g', w')
      /\ same_random w w'
      /\ testing_outcome paths2labels (g = Finished \/ (0 < n)%nat) r.
Proof.
  induction n as [|n IH]; intros g w Hg; cbn [pull_nth];
    destruct (@testing_next_outcome g w Hg)
      as (r & g1 & w1 & Hnext & Hsame & Hg1 & Hr).
  - exists r, g1, w1. split; [exact Hnext|]. split; [exact Hsame|].
    destruct r as [[X y]|e]; [exact Hr|].
    simpl in Hr |- *. destruct Hr as [Hr | [Hr | (He & Hf)]]; auto.
  - rewrite Hnext.
    destruct (IH g1 w1 Hg1) as (r' & g' & w' & Hpull & Hsame' & Hr').
    exists r', g', w'. split; [exact Hpull|].
    split; [exact (same_random_trans Hsame Hsame')|].
    destruct r' as [[X y]|e]; [exact Hr'|].
    simpl in Hr' |- *. destruct Hr' as [Hr' | [Hr' | (He & Hf)]]; auto.
    right. right. split; [exact He | right; lia].
Qed.

End TestingOutcomes.

(** X12.  Whatever the mapping and the file system, a pull of
    [testing_generator] never touches the random sources and comes to one
    of four things: a batch of exactly one sequence with a label of the
    mapping; an [IOError] from the assembly; an [IndexError], on the empty
    mapping only; or [StopIteration], on a later pull only.  In
    particular no [KeyError] and no other exception can come out. *)
Theorem testing_generator_outcomes :
  forall (self : FrameProcessor) (paths2labels : dict) (generator_type : string)
         (n : nat) (w : world),
  exists r g' w',
    pull_nth (testing_generator_next fs self paths2labels generator_type) n
             (testing_generator self paths2labels generator_type) w
    = (r, g', w')
    /\ same_random w w'
    /\ match r with
       | Ok (X, y) => List.length X = 1%nat /\ In y (map snd paths2labels)
       | Raise e =>
           e = IOError
           \/ (e = IndexError /\ paths2labels = [])
           \/ (e = StopIteration /\ (0 < n)%nat)
       end.
Proof.
  intros self paths2labels generator_type n w.
  destruct (@testing_pull_outcome self paths2labels generator_type n Created w I)
    as (r & g' & w' & Hpull & Hsame & Hr).
  exists r, g', w'. split; [exact Hpull|]. split; [exact Hsame|].
  destruct r as [[X y]|e]; [exact Hr|].
  simpl in Hr. destruct Hr as [Hr | [Hr | (He & [Hf | Hn])]]; auto.
  discriminate.
Qed.

(** *** The random draws of a pull *)

Lemma np_advanced_after (n : nat) (w : world) : np_advanced n w (after_draws n w).
Proof. split; reflexivity. Qed.

Lemma np_advanced_trans (n m : nat) (w1 w2 w3 : world) :
  np_advanced n w1 w2 -> np_advanced m w2 w3 -> np_advanced (n + m) w1 w3.
Proof.
  unfold np_advanced. intros (A1 & A2) (B1 & B2). split; [congruence | lia].
Qed.

Lemma sequence_flip_axis_length (seq : list ndarray) (axis : nat) :
  List.length (sequence_flip_axis seq axis) = List.length seq.
Proof. unfold sequence_flip_axis. now rewrite !length_map. Qed.

Lemma sequence_flip_axis_shape (seq : list ndarray) (shp : list nat) (axis : nat) :
  (forall x axis,
      List.length (np_shape x) = 3%nat -> (axis < 3)%nat ->
      np_shape (np_swapaxes (np_reverse0 (np_swapaxes x axis 0%nat)) 0%nat axis)
      = np_shape x) ->
  List.length shp = 3%nat ->
  (axis < 3)%nat ->
  Forall (fun x => np_shape x = shp) seq ->
  Forall (fun x => np_shape x = shp) (sequence_flip_axis seq axis).
Proof.
  intros Hflip Hshp Haxis Hall. unfold sequence_flip_axis.
  rewrite !map_map. apply Forall_map.
  eapply Forall_impl; [|exact Hall].
  intros x Hx. simpl. rewrite Hflip; [exact Hx | now rewrite Hx | exact Haxis].
Qed.

Section FrameGeneratorDraws.

Variables (self : FrameProcessor) (paths2labels : dict) (generator_type : string).
Variables (shear : Q) (b : Z) (count : nat) (shp : list nat).

Hypothesis sample_distinct : sample_contract.
Hypothesis transform_keeps_shape :
  forall x m ca fm cv, np_shape (apply_transform x m ca fm cv) = np_shape x.
Hypothesis flip_keeps_shape :
  forall x axis,
    List.length (np_shape x) = 3%nat -> (axis < 3)%nat ->
    np_shape (np_swapaxes (np_reverse0 (np_swapaxes x axis 0%nat)) 0%nat axis)
    = np_shape x.
Hypothesis array_of_block :
  forall X, rectangular X -> np_array_error X = None.
Hypothesis flip_bound :
  horizontal_flip self = true -> vertical_flip self = true.
Hypothesis shear_number : as_number (shear_range self) = Some shear.
Hypothesis batch_int : batch_size self = PyInt b.
Hypothesis batch_fits : (0 <= b <= Z.of_nat (List.length paths2labels))%Z.
Hypothesis keys_unique : NoDup (dict_keys paths2labels).
Hypothesis three_axes : List.length shp = 3%nat.
Hypothesis some_frames : count <> 0%nat.
Hypothesis samples_ok : uniform_samples fs paths2labels count shp.

Let keys : list string := dict_keys paths2labels.

Lemma applied_step (seq : list ndarray) (m : matrix) (ca : nat) (fm : string)
    (cv : Q) (shp0 : list nat) :
  transformable shp0 seq ->
  transformable shp0 (apply_to_sequence seq m ca fm cv)
  /\ List.length (apply_to_sequence seq m ca fm cv) = List.length seq.
Proof.
  intro Ht. split.
  - now apply transformable_apply.
  - unfold apply_to_sequence. apply length_map.
Qed.

Lemma rotation_step_draws : step_draws (rotation_step self) (rotation_draws self).
Proof.
  intros shp0 seq w Ht. unfold rotation_draws.
  destruct (Qgt_bool (inject_Z (rotation_range self)) 0) eqn:Hon.
  - pose proof Ht as (Hne & Hshape & Haxes).
    eexists. split; [exact (rotation_step_run self Hne Hshape Haxes w Hon)|].
    now apply applied_step.
  - exists seq. unfold rotation_step. rewrite Hon, after_draws_0.
    split; [reflexivity | split; [exact Ht | reflexivity]].
Qed.

Lemma shift_step_draws : step_draws (shift_step self) (shift_draws self).
Proof.
  intros shp0 seq w Ht. unfold shift_draws.
  destruct (Qgt_bool (width_shift_range self) 0 || Qgt_bool (height_shift_range self) 0)%bool
    eqn:Hon.
  - pose proof Ht as (Hne & Hshape & Haxes).
    eexists. split; [exact (shift_step_run self Hne Hshape Haxes w Hon)|].
    now apply applied_step.
  - exists seq. unfold shift_step. rewrite Hon, after_draws_0.
    split; [reflexivity | split; [exact Ht | reflexivity]].
Qed.

Lemma shear_step_draws : step_draws (shear_step self) (shear_draws self).
Proof.
  intros shp0 seq w Ht. unfold shear_draws. rewrite shear_number.
  destruct (Qgt_bool shear 0) eqn:Hon.
  - pose proof Ht as (Hne & Hshape & Haxes).
    eexists.
    split; [exact (shear_step_run self Hne Hshape Haxes w shear_number Hon)|].
    now apply applied_step.
  - exists seq. unfold shear_step, bind, lift_option.
    rewrite shear_number. unfold ret at 1. rewrite Hon, after_draws_0.
    split; [reflexivity | split; [exact Ht | reflexivity]].
Qed.

Lemma zoom_step_draws_ok : step_draws (zoom_step self) (zoom_step_draws self).
Proof.
  intros shp0 seq w Ht. unfold zoom_step_draws.
  pose proof Ht as (Hne & Hshape & Haxes).
  destruct (Qgt_bool (zoom_range self) absorbed_range) eqn:Hdraws.
  - eexists. split; [exact (zoom_step_run self Hne Hshape Haxes w Hdraws)|].
    now apply applied_step.
  - assert (Hsmall : zoom_range self <= absorbed_range).
    { apply Qnot_lt_le. intro Hlt. apply Qgt_bool_iff in Hlt. congruence. }
    destruct (Qgt_bool (zoom_range self) 0) eqn:Hon.
    + eexists. rewrite after_draws_0.
      split; [exact (zoom_step_absorbed self Hne Hshape Haxes w Hon Hsmall)|].
      now apply applied_step.
    + exists seq. unfold zoom_step. rewrite Hon, after_draws_0.
    split; [reflexivity | split; [exact Ht | reflexivity]].
Qed.

Lemma flip_steps_draws (seq : list ndarray) (coin_flip : option bool) (w : world) :
  Forall (fun x => np_shape x = shp) seq ->
  exists seq' coin_flip',
    bind (vertical_flip_step self seq coin_flip)
         (fun sc => horizontal_flip_step self (fst sc) (snd sc)) w
    = (Ok (seq', coin_flip'), after_draws (flip_draws self) w)
    /\ List.length seq' = List.length seq
    /\ Forall (fun x => np_shape x = shp) seq'.
Proof.
  intro Hshape.
  assert (Hflip : forall s axis,
             (axis < 3)%nat ->
             Forall (fun x => np_shape x = shp) s ->
             Forall (fun x => np_shape x = shp) (sequence_flip_axis s axis)).
  { intros s axis Haxis Hs.
    now apply sequence_flip_axis_shape. }
  unfold flip_draws, bind, vertical_flip_step, horizontal_flip_step,
    np_random_sample, bind.
  destruct (vertical_flip self) eqn:Hv.
  - destruct (Qgt_bool (np_stream w (np_drawn w)) (1 # 2));
      destruct (horizontal_flip self); simpl;
      do 2 eexists;
      (split; [unfold ret, after_draws; simpl; repeat f_equal; lia|]);
      rewrite ?sequence_flip_axis_length;
      (split; [reflexivity|]);
      repeat (apply Hflip; [lia|]); exact Hshape.
  - destruct (horizontal_flip self) eqn:Hh.
    + specialize (flip_bound eq_refl). discriminate.
    + do 2 eexists. unfold ret. simpl. rewrite after_draws_0.
      split; [reflexivity|]. now split.
Qed.

Lemma frame_sample_draws (pth : string) (coin_flip : option bool) (w : world) :
  In pth keys ->
  exists x coin_flip',
    frame_sample fs self pth coin_flip w
    = (Ok (x, coin_flip'), after_draws (draws_per_sample self) w)
    /\ List.length x = count
    /\ Forall (fun x0 => np_shape x0 = shp) x.
Proof.
  intro Hin.
  destruct (samples_ok pth Hin) as (sequence & Hasm & Hcount & Hshape).
  assert (Ht : transformable shp sequence).
  { split; [|split; [exact Hshape | lia]].
    intros ->. simpl in Hcount. now apply some_frames. }
  unfold frame_sample.
  pose proof (Hasm w) as Hw. unfold assemble, bind in Hw. unfold bind at 1.
  destruct (get_sample_frames fs pth w) as [[frames|e] w0]; [|discriminate].
  unfold bind at 1.
  destruct (build_image_sequence fs frames None w0) as [[sequence'|e] w0'];
    [|discriminate].
  inversion Hw; subst sequence' w0'. clear Hw.
  destruct (rotation_step_draws w Ht) as (s1 & E1 & Ht1 & L1).
  unfold bind at 1. rewrite E1.
  destruct (shift_step_draws (after_draws (rotation_draws self) w) Ht1)
    as (s2 & E2 & Ht2 & L2).
  unfold bind at 1. rewrite E2.
  destruct (shear_step_draws
              (after_draws (shift_draws self) (after_draws (rotation_draws self) w))
              Ht2) as (s3 & E3 & Ht3 & L3).
  unfold bind at 1. rewrite E3.
  destruct (zoom_step_draws_ok
              (after_draws (shear_draws self)
                 (after_draws (shift_draws self)
                    (after_draws (rotation_draws self) w))) Ht3)
    as (s4 & E4 & Ht4 & L4).
  unfold bind at 1. rewrite E4.
  set (w4 := after_draws (zoom_step_draws self)
               (after_draws (shear_draws self)
                  (after_draws (shift_draws self)
                     (after_draws (rotation_draws self) w)))).
  destruct Ht4 as (_ & Hshape4 & _).
  destruct (flip_steps_draws coin_flip w4 Hshape4) as (s5 & c5 & E5 & L5 & Hshape5).
  exists s5, c5.
  assert (Hw : after_draws (flip_draws self) w4
               = after_draws (draws_per_sample self) w).
  { unfold w4, draws_per_sample. rewrite !after_draws_add. f_equal. lia. }
  rewrite <- Hw.
  split; [|split; [congruence | exact Hshape5]].
  unfold bind in E5 |- *.
  destruct (vertical_flip_step self s4 coin_flip w4) as [[sc|e] w5]; [|discriminate].
  destruct (horizontal_flip_step self (fst sc) (snd sc) w5) as [[sc'|e] w6];
    [|discriminate].
  inversion E5; subst. reflexivity.
Qed.

Lemma frame_samples_draws (selected_paths : list string) :
  incl selected_paths keys ->
  forall X coin_flip w,
  exists xs coin_flip',
    frame_samples fs self selected_paths X coin_flip w
    = (Ok (X ++ xs, coin_flip'),
       after_draws (List.length selected_paths * draws_per_sample self) w)
    /\ Forall (fun sequence =>
                 List.length sequence = count
                 /\ Forall (fun x => np_shape x = shp) sequence) xs.
Proof.
  induction selected_paths as [|pth rest IH]; intros Hok X coin_flip w.
  - exists [], coin_flip. simpl. rewrite after_draws_0, app_nil_r. now split.
  - destruct (@frame_sample_draws pth coin_flip w) as (x & c1 & E1 & Lx & Sx).
    { apply Hok. now left. }
    destruct IH with (X := X ++ [x]) (coin_flip := c1)
                     (w := after_draws (draws_per_sample self) w)
      as (xs & c2 & E2 & Hxs).
    { intros p Hp. apply Hok. now right. }
    exists (x :: xs), c2. split; [|constructor; [now split | exact Hxs]].
    simpl. unfold bind. rewrite E1. simpl fst. simpl snd.
    rewrite E2, after_draws_add, <- app_assoc. reflexivity.
Qed.

Lemma frame_loop_draws (coin_flip : option bool) (w : world) :
  exists batch coin_flip' w',
    frame_loop fs self paths2labels (mkFrameLocals keys coin_flip) w
    = (Ok (batch, mkFrameLocals keys coin_flip'), w')
    /\ np_advanced (Z.to_nat b * draws_per_sample self) w w'.
Proof.
  unfold frame_loop. simpl f_sequence_paths. simpl f_coin_flip.
  destruct (@random_sample_run keys b w sample_distinct keys_unique)
    as (selected & w1 & Esel & Hlen & Hnd & Hincl & Hst & Hdr).
  { unfold keys, dict_keys. now rewrite length_map. }
  unfold bind at 1. rewrite batch_int, Esel.
  destruct (@mapM_getitem_run paths2labels selected w1 Hincl) as (y & Ey & Hy).
  unfold bind at 1. rewrite Ey.
  destruct (@frame_samples_draws selected Hincl (@nil (list ndarray)) coin_flip w1)
    as (xs & c' & EX & Hxs).
  unfold bind at 1. rewrite EX. cbn [app fst snd].
  unfold bind, np_array.
  rewrite (array_of_block (X := xs)) by (exists count, shp; exact Hxs).
  unfold ret.
  do 3 eexists. split; [reflexivity|].
  rewrite Hlen. unfold np_advanced, after_draws. simpl. split; congruence.
Qed.

Lemma frame_pulls_draws (n : nat) (coin_flip : option bool) (w : world) :
  exists batch g' w',
    pull_nth (frame_generator_next fs self paths2labels generator_type) n
             (Suspended (mkFrameLocals keys coin_flip)) w
    = (Ok batch, g', w')
    /\ np_advanced (S n * (Z.to_nat b * draws_per_sample self)) w w'.
Proof.
  revert coin_flip w. induction n as [|n IH]; intros coin_flip w;
    destruct (frame_loop_draws coin_flip w) as (batch & c' & w' & Eloop & Hadv).
  - exists batch, (Suspended (mkFrameLocals keys c')), w'. split.
    + cbn [pull_nth]. unfold frame_generator_next, next. now rewrite Eloop.
    + now rewrite Nat.mul_1_l.
  - destruct (IH c' w') as (batch' & g' & w'' & Epull & Hadv').
    exists batch', g', w''. split.
    + cbn [pull_nth]. unfold frame_generator_next at 1, next. rewrite Eloop.
      exact Epull.
    + replace (S (S n) * (Z.to_nat b * draws_per_sample self))%nat
        with (Z.to_nat b * draws_per_sample self
              + S n * (Z.to_nat b * draws_per_sample self))%nat by lia.
      exact (np_advanced_trans Hadv Hadv').
Qed.

Lemma frame_generator_draws_from_start (n : nat) (w : world) :
  exists batch g' w',
    pull_nth (frame_generator_next fs self paths2labels generator_type) n
             (frame_generator self paths2labels generator_type) w
    = (Ok batch, g', w')
    /\ np_advanced (S n * (Z.to_nat b * draws_per_sample self)) w w'.
Proof.
  set (w0 := mkWorld (np_stream w) (np_drawn w) (py_state w)
               (stdout w ++ [("[*] creating a " ++ generator_type ++ " generator with "
                  ++ decimal (List.length paths2labels) ++ " samples")%string])).
  assert (Hnext : frame_generator_next fs self paths2labels generator_type Created w
                  = frame_generator_next fs self paths2labels generator_type
                      (Suspended (mkFrameLocals keys None)) w0).
  { reflexivity. }
  destruct (frame_pulls_draws n None w0) as (batch & g' & w' & Epull & Hadv).
  exists batch, g', w'. split; [|exact Hadv].
  rewrite <- Epull. unfold frame_generator.
  destruct n; cbn [pull_nth]; now rewrite Hnext.
Qed.

(** Every pull of [frame_generator] yields a batch of [batch_size] samples
    of distinct keys with their labels in step, on the conditions of this
    section: samples that assemble to one number of frames of one shape,
    a NumPy that builds the array of such a batch, a numeric
    [shear_range], an integer [batch_size] between 0 and the number of
    keys, and no horizontal flip without the vertical one. *)
Lemma frame_generator_batches (n : nat) (w : world) :
  exists batch g' w',
    pull_nth (frame_generator_next fs self paths2labels generator_type) n
             (frame_generator self paths2labels generator_type) w
    = (Ok batch, g', w')
    /\ batch_ok fs self paths2labels (Z.to_nat b) batch.
Proof.
  destruct (frame_generator_draws_from_start n w) as (batch & g' & w' & Epull & _).
  exists batch, g', w'. split; [exact Epull|].
  destruct (@frame_pull_inv self paths2labels generator_type sample_distinct
              keys_unique n Created g' w w' batch I Epull) as (b' & Hb' & _ & Hbatch).
  rewrite batch_int in Hb'. simpl in Hb'. inversion Hb'; subst b'. exact Hbatch.
Qed.

End FrameGeneratorDraws.

(** X13.  The NumPy draws of [frame_generator] are fixed by the
    configuration: one sample costs one unit draw for the rotation, two
    for the shift, one for the shear, two for the zoom and one for each
    flip, counting the steps that are switched on, the zoom only for a
    range above [2^-54]; and pull number [n] (from 0) yields with
    [(n + 1) * batch_size] times that many draws made.  This holds when
    all samples assemble to one number (not 0) of frames of one
    three-axis shape, [apply_transform] and the flips keep that shape,
    [np.array] builds the array of such a batch, [shear_range] is a
    number and the horizontal flip is not on without the vertical one. *)
Theorem frame_generator_draw_count :
  forall (self : FrameProcessor) (paths2labels : dict) (generator_type : string)
         (shear : Q) (b : Z) (count : nat) (shp : list nat) (n : nat) (w : world),
    sample_contract ->
    (forall x m ca fm cv, np_shape (apply_transform x m ca fm cv) = np_shape x) ->
    (forall x axis,
        List.length (np_shape x) = 3%nat -> (axis < 3)%nat ->
        np_shape (np_swapaxes (np_reverse0 (np_swapaxes x axis 0%nat)) 0%nat axis)
        = np_shape x) ->
    (forall X, rectangular X -> np_array_error X = None) ->
    (horizontal_flip self = true -> vertical_flip self = true) ->
    as_number (shear_range self) = Some shear ->
    batch_size self = PyInt b ->
    (0 <= b <= Z.of_nat (List.length paths2labels))%Z ->
    NoDup (dict_keys paths2labels) ->
    List.length shp = 3%nat ->
    count <> 0%nat ->
    uniform_samples fs paths2labels count shp ->
    exists batch g' w',
      pull_nth (frame_generator_next fs self paths2labels generator_type) n
               (frame_generator self paths2labels generator_type) w
      = (Ok batch, g', w')
      /\ np_advanced (S n * (Z.to_nat b * draws_per_sample self)) w w'.
Proof.
  intros self paths2labels generator_type shear b count shp n w
         Hcontract Hshape Hflips Harray Hflip Hshear Hb Hfits Hnd Haxes Hcount Hok.
  exact (@frame_generator_draws_from_start self paths2labels generator_type shear b
           count shp Hcontract Hshape Hflips Harray Hflip Hshear Hb Hfits Hnd
           Haxes Hcount Hok n w).
Qed.

(** *** The order of the steps *)

(** X14.  With rotation, shift and shear switched on and a zoom range
    above [2^-54], [frame_generator] applies the four transforms to the
    assembled sample in this order, each to the outcome of the one before,
    the rotation taking the first unit draw, the shift the next two, the
    shear the fourth and the zoom the fifth and sixth; the two flip steps
    then run on that outcome with the draws that follow. *)
Theorem frame_sample_pipeline :
  forall (self : FrameProcessor) (shear : Q) (pth : string)
         (sequence : list ndarray) (shp : list nat) (coin_flip : option bool)
         (w : world),
    (forall x m ca fm cv, np_shape (apply_transform x m ca fm cv) = np_shape x) ->
    (forall w0, assemble fs pth w0 = (Ok sequence, w0)) ->
    sequence <> [] ->
    Forall (fun x => np_shape x = shp) sequence ->
    (2 <= List.length shp)%nat ->
    Qgt_bool (inject_Z (rotation_range self)) 0 = true ->
    (Qgt_bool (width_shift_range self) 0
     || Qgt_bool (height_shift_range self) 0)%bool = true ->
    as_number (shear_range self) = Some shear ->
    Qgt_bool shear 0 = true ->
    Qgt_bool (zoom_range self) (2 ^ (-54)) = true ->
    frame_sample fs self pth coin_flip w
    = bind (vertical_flip_step self
              (affine_pipeline self shear (nth 0 shp 0%nat) (nth 1 shp 0%nat) w
                               sequence)
              coin_flip)
           (fun sc => horizontal_flip_step self (fst sc) (snd sc))
           (after_draws 6 w).
Proof.
  intros self shear pth sequence shp coin_flip w
         Hkeep Hasm Hne Hshape Haxes Hrot Hshift Hshear Hshear_on Hzoom.
  assert (Ht0 : transformable shp sequence) by now repeat split.
  unfold frame_sample.
  pose proof (Hasm w) as Hw. unfold assemble, bind in Hw. unfold bind at 1.
  destruct (get_sample_frames fs pth w) as [[frames|e] w0]; [|discriminate].
  unfold bind at 1.
  destruct (build_image_sequence fs frames None w0) as [[sequence'|e] w0'];
    [|discriminate].
  inversion Hw; subst sequence' w0'. clear Hw.
  unfold bind at 1.
  rewrite (rotation_step_run self Hne Hshape Haxes w Hrot).
  match goal with
  | |- context [shift_step self ?s1] =>
      assert (Ht1 : transformable shp s1)
        by (apply transformable_apply; assumption)
  end.
  destruct Ht1 as (Hne1 & Hshape1 & _).
  unfold bind at 1.
  rewrite (shift_step_run self Hne1 Hshape1 Haxes (after_draws 1 w) Hshift).
  match goal with
  | |- context [shear_step self ?s2] =>
      assert (Ht2 : transformable shp s2)
        by (apply transformable_apply; [assumption | now repeat split])
  end.
  destruct Ht2 as (Hne2 & Hshape2 & _).
  unfold bind at 1.
  rewrite (shear_step_run self Hne2 Hshape2 Haxes
             (after_draws 2 (after_draws 1 w)) Hshear Hshear_on).
  match goal with
  | |- context [zoom_step self ?s3] =>
      assert (Ht3 : transformable shp s3)
        by (apply transformable_apply; [assumption | now repeat split])
  end.
  destruct Ht3 as (Hne3 & Hshape3 & _).
  unfold bind at 1.
  rewrite (zoom_step_run self Hne3 Hshape3 Haxes
             (after_draws 1 (after_draws 2 (after_draws 1 w))) Hzoom).
  rewrite !after_draws_add, !draw_after. simpl Nat.add.
  unfold affine_pipeline, each_frame, apply_to_sequence, uniform_at.
  unfold bind.
  destruct (vertical_flip_step self _ coin_flip (after_draws 6 w)) as [[sc|e] w5];
    [|reflexivity].
  destruct (horizontal_flip_step self (fst sc) (snd sc) w5) as [[sc'|e] w6];
    reflexivity.
Qed.

(** *** A shear range that is no number *)

(** X15.  A [shear_range] that is not a number passes [__init__], which
    does not look at it, and fails the first pull instead: on well-formed
    samples and with a [batch_size] of at least 1, the pull raises
    [TypeError] at the comparison [self.shear_range > 0.0] of the first
    sample, and the generator is finished. *)
Theorem frame_generator_shear_not_a_number :
  forall (self : FrameProcessor) (paths2labels : dict) (generator_type : string)
         (b : Z) (w : world),
    sample_contract ->
    (forall x m ca fm cv, np_shape (apply_transform x m ca fm cv) = np_shape x) ->
    as_number (shear_range self) = None ->
    batch_size self = PyInt b ->
    (1 <= b <= Z.of_nat (List.length paths2labels))%Z ->
    NoDup (dict_keys paths2labels) ->
    (forall pth, In pth (dict_keys paths2labels) -> augmentable_sample fs pth) ->
    fst (frame_generator_next fs self paths2labels generator_type
           (frame_generator self paths2labels generator_type) w)
    = (Raise TypeError, Finished).
Proof.
  intros self paths2labels generator_type b w
         Hcontract Hkeep Hshear Hb Hfits Hnd Hok.
  unfold frame_generator_next, frame_generator, next, frame_start, bind, print, ret.
  set (w0 := mkWorld _ _ _ _).
  unfold frame_loop. cbn [f_sequence_paths f_coin_flip].
  destruct (@random_sample_run (dict_keys paths2labels) b w0 Hcontract Hnd)
    as (selected & w1 & Esel & Hlen & _ & Hincl & _).
  { unfold dict_keys. rewrite length_map. lia. }
  unfold bind at 1. rewrite Hb, Esel.
  destruct (@mapM_getitem_run paths2labels selected w1 Hincl) as (y & Ey & _).
  unfold bind at 1. rewrite Ey.
  destruct selected as [|pth rest]; [simpl in Hlen; lia|].
  destruct (Hok pth) as (sequence & shp & Hasm & Hne & Hshape & Haxes).
  { apply Hincl. now left. }
  assert (Ht : transformable shp sequence) by now repeat split.
  assert (Hsample : exists w', frame_sample fs self pth None w1 = (Raise TypeError, w')).
  { unfold frame_sample.
    pose proof (Hasm w1) as Hw. unfold assemble, bind in Hw. unfold bind at 1.
    destruct (get_sample_frames fs pth w1) as [[frames|e] w2]; [|discriminate].
    unfold bind at 1.
    destruct (build_image_sequence fs frames None w2) as [[sequence'|e] w2'];
      [|discriminate].
    inversion Hw; subst sequence' w2'. clear Hw.
    destruct (rotation_step_draws self Hkeep w1 Ht) as (s1 & E1 & Ht1 & _).
    unfold bind at 1. rewrite E1.
    destruct (shift_step_draws self Hkeep (after_draws (rotation_draws self) w1) Ht1)
      as (s2 & E2 & _).
    unfold bind at 1. rewrite E2.
    unfold bind at 1. unfold shear_step, bind, lift_option. rewrite Hshear.
    eexists. reflexivity. }
  destruct Hsample as (w' & Hsample).
  unfold bind. cbn [frame_samples]. unfold bind. rewrite Hsample. reflexivity.
Qed.

(** *** What testing_generator prints *)

Section TestingTrace.

Variables (self : FrameProcessor) (paths2labels : dict) (generator_type : string).
Hypothesis keys_unique : NoDup (dict_keys paths2labels).
Hypothesis samples_ok :
  forall pth, In pth (dict_keys paths2labels) -> well_formed_sample fs pth.

Let K : nat := List.length paths2labels.
Let keys : list string := dict_keys paths2labels.

(** The key served by pull number [i] when the cursor starts at [c]. *)
Let served (c i : nat) : string := nth ((c + i) mod K) keys ""%string.

Lemma testing_loop_prints (c : nat) (w : world) :
  (c < K)%nat ->
  exists batch,
    testing_loop fs paths2labels (mkTestingLocals keys c) w
    = (Ok (batch, mkTestingLocals keys ((c + 1) mod K)),
       mkWorld (np_stream w) (np_drawn w) (py_state w)
               (stdout w ++ [nth c keys ""%string])).
Proof.
  intro Hc.
  destruct (nth_error paths2labels c) as [[pth lbl]|] eqn:Hnth.
  2: { apply nth_error_None in Hnth. unfold K in Hc. lia. }
  assert (Hkey : nth_error keys c = Some pth).
  { unfold keys, dict_keys. exact (map_nth_error fst c paths2labels Hnth). }
  destruct (@assemble_well_formed pth) as (sequence & Hasm).
  { apply samples_ok. eapply nth_error_In. exact Hkey. }
  rewrite (nth_error_nth _ _ ""%string Hkey).
  exists ([sequence], lbl).
  unfold testing_loop, bind, index, getitem, lift_option. simpl.
  rewrite Hkey. unfold ret at 1.
  rewrite (@dict_get_nth paths2labels c pth lbl keys_unique Hnth). unfold ret at 1.
  pose proof (Hasm w) as Hw. unfold assemble, bind in Hw.
  destruct (get_sample_frames fs pth w) as [[frames|e] w1]; [|discriminate].
  destruct (build_image_sequence fs frames None w1) as [[sequence'|e] w2] eqn:Eb;
    [|discriminate].
  inversion Hw; subst sequence' w2.
  unfold ret.
  replace (List.length keys) with K
    by (unfold keys, dict_keys, K; now rewrite length_map).
  now rewrite next_current.
Qed.

Lemma served_next (c i : nat) : served ((c + 1) mod K) i = served c (S i).
Proof.
  unfold served. f_equal.
  rewrite Nat.Div0.add_mod_idemp_l. f_equal. lia.
Qed.

Lemma testing_pulls_print (n : nat) :
  forall (c : nat) (w : world),
    (c < K)%nat ->
    exists r g' w',
      pull_nth (testing_generator_next fs self paths2labels generator_type) n
               (Suspended (mkTestingLocals keys c)) w
      = (r, g', w')
      /\ stdout w' = stdout w ++ map (served c) (seq 0 (S n)).
Proof.
  induction n as [|n IH]; intros c w Hc;
    destruct (testing_loop_prints w Hc) as (batch & Hloop).
  - do 3 eexists. split.
    + cbn [pull_nth]. unfold testing_generator_next, next. rewrite Hloop.
      reflexivity.
    + simpl. unfold served. now rewrite Nat.add_0_r, Nat.mod_small.
  - assert (Hc' : ((c + 1) mod K < K)%nat) by (apply Nat.mod_upper_bound; lia).
    destruct (IH _ (mkWorld (np_stream w) (np_drawn w) (py_state w)
                            (stdout w ++ [nth c keys ""%string])) Hc')
      as (r & g' & w' & Hpull & Hout).
    exists r, g', w'. split.
    + cbn [pull_nth]. unfold testing_generator_next at 1, next. rewrite Hloop.
      exact Hpull.
    + rewrite Hout. cbn [stdout]. rewrite <- app_assoc. f_equal.
      change (seq 0 (S (S n))) with (0%nat :: seq 1 (S n)).
      rewrite <- seq_shift, map_cons, map_map. cbn [app]. f_equal.
      * unfold served. now rewrite Nat.add_0_r, Nat.mod_small.
      * apply map_ext. intro i. apply served_next.
Qed.

Lemma testing_prints_from_start (n : nat) (w : world) :
  (0 < K)%nat ->
  exists r g' w',
    pull_nth (testing_generator_next fs self paths2labels generator_type) n
             (testing_generator self paths2labels generator_type) w
    = (r, g', w')
    /\ stdout w'
       = stdout w
         ++ testing_banner paths2labels generator_type :: map (served 0) (seq 0 (S n)).
Proof.
  intro HK.
  set (w0 := mkWorld (np_stream w) (np_drawn w) (py_state w)
               (stdout w ++ [testing_banner paths2labels generator_type])).
  assert (Hnext : testing_generator_next fs self paths2labels generator_type Created w
                  = testing_generator_next fs self paths2labels generator_type
                      (Suspended (mkTestingLocals keys 0)) w0).
  { reflexivity. }
  destruct (testing_pulls_print n w0 HK) as (r & g' & w' & Hpull & Hout).
  exists r, g', w'. split.
  - rewrite <- Hpull. unfold testing_generator.
    destruct n; cbn [pull_nth]; now rewrite Hnext.
  - rewrite Hout. unfold w0. cbn [stdout]. now rewrite <- app_assoc.
Qed.

End TestingTrace.

(** X16.  [testing_generator] prints its banner when its body starts, at
    the first pull and not when the generator is created, and then one
    line per pull, the path served: after pull number [n] (from 0) on a
    non-empty mapping of [K] well-formed samples, the output has grown by
    the banner and the keys at positions 0, 1, ..., [n], taken modulo
    [K]. *)
Theorem testing_generator_prints :
  forall (self : FrameProcessor) (paths2labels : dict) (generator_type : string)
         (n : nat) (w : world),
    paths2labels <> [] ->
    NoDup (dict_keys paths2labels) ->
    (forall pth, In pth (dict_keys paths2labels) -> well_formed_sample fs pth) ->
    exists r g' w',
      pull_nth (testing_generator_next fs self paths2labels generator_type) n
               (testing_generator self paths2labels generator_type) w
      = (r, g', w')
      /\ stdout w'
         = stdout w
           ++ testing_banner paths2labels generator_type
           :: map (fun i => nth (i mod List.length paths2labels)
                                (dict_keys paths2labels) ""%string)
                  (seq 0 (S n)).
Proof.
  intros self paths2labels generator_type n w Hne Hnd Hok.
  assert (HK : (0 < List.length paths2labels)%nat).
  { destruct paths2labels; [contradiction | simpl; lia]. }
  exact (@testing_prints_from_start self paths2labels generator_type Hnd Hok n w HK).
Qed.

End ProcessingProofs.

(** ** threadsafe_iterator: the lock serializes the generator *)
Module ThreadsafeFacts.

Import Threadsafe.

Lemma update_same {A} (f : nat -> A) (k : nat) (v : A) : update f k v k = v.
Proof. unfold update. now rewrite Nat.eqb_refl. Qed.

Lemma update_other {A} (f : nat -> A) (k k' : nat) (v : A) :
  k' <> k -> update f k v k' = f k'.
Proof. intro H. unfold update. apply Nat.eqb_neq in H. now rewrite H. Qed.

Lemma in_generator_holds (p : pc) (i : nat) :
  in_generator p i = true -> holds p i = true.
Proof. destruct p; simpl; congruence. Qed.

(** Splits on whether a thread or an iterator is the one just updated. *)
Ltac updated x k :=
  destruct (Nat.eq_dec x k) as [->|?];
  [rewrite ?update_same in * | rewrite ?update_other in * by assumption].

Lemma initial_invariant : invariant initial.
Proof.
  constructor; simpl; try discriminate; try contradiction.
  - reflexivity.
  - reflexivity.
Qed.

(** A thread whose new position holds the same locks as its old one keeps
    the first two clauses of the invariant. *)
Lemma holds_update (s : state) (t : nat) (p : pc) :
  (forall i, holds p i = holds (threads s t) i) ->
  forall x i, holds (update (threads s) t p x) i = holds (threads s x) i.
Proof.
  intros H x i. updated x t; [apply H | reflexivity].
Qed.

Lemma step_invariant (s : state) (ev : event) :
  invariant s -> invariant (step true s ev).
Proof.
  intros [Hex Hun Hrun Hpend Hlog].
  unfold step. set (t := ev_thread ev).
  destruct (threads s t) as [|i|i|i|i r] eqn:Ept.
  - (* the call begins *)
    constructor; simpl.
    + intros i t1 t2. updated t1 t; [discriminate|].
      updated t2 t; [discriminate|]. apply Hex.
    + intros i x Hl. updated x t; [reflexivity | now apply Hun].
    + intros i Hr. destruct (Hrun i Hr) as (t0 & Ht0). exists t0.
      updated t0 t; [rewrite Ept in Ht0; discriminate | exact Ht0].
    + intro x. updated x t; [reflexivity | apply Hpend].
    + exact Hlog.
  - (* with self.lock *)
    destruct (lock (iterators s i)) eqn:Elock; [now constructor|].
    constructor; simpl.
    + intros i' t1 t2.
      updated t1 t; updated t2 t; simpl; intros H1 H2; try reflexivity.
      * apply Nat.eqb_eq in H1. subst i'. now rewrite (Hun i t2 Elock) in H2.
      * apply Nat.eqb_eq in H2. subst i'. now rewrite (Hun i t1 Elock) in H1.
      * exact (Hex i' t1 t2 H1 H2).
    + intros i' x. updated i' i; simpl; [discriminate|].
      intro Hl. updated x t; simpl; [now apply Nat.eqb_neq | now apply Hun].
    + intros i' Hr.
      assert (Hr' : gi_running (iterator (iterators s i')) = true).
      { revert Hr. updated i' i; simpl; auto. }
      destruct (Hrun i' Hr') as (t0 & Ht0). exists t0.
      updated t0 t; [rewrite Ept in Ht0; discriminate | exact Ht0].
    + intro x. updated x t; [reflexivity | apply Hpend].
    + exact Hlog.
  - (* next(self.iterator) *)
    assert (Hmine : holds (threads s t) i = true)
      by (rewrite Ept; simpl; apply Nat.eqb_refl).
    destruct (gi_running (iterator (iterators s i))) eqn:Erun.
    { (* the generator cannot be running: its runner would hold the lock too *)
      exfalso. destruct (Hrun i Erun) as (t0 & Ht0).
      pose proof (Hex i t0 t (in_generator_holds _ _ Ht0) Hmine). subst t0.
      rewrite Ept in Ht0. discriminate. }
    destruct (gi_finished (iterator (iterators s i))) eqn:Efin.
    + assert (Hh := @holds_update s t (AtExit i (Raised StopIteration))
                      ltac:(intro; rewrite Ept; reflexivity)).
      constructor; simpl.
      * intros i' t1 t2. rewrite !Hh. apply Hex.
      * intros i' x Hl. rewrite Hh. now apply Hun.
      * intros i' Hr. destruct (Hrun i' Hr) as (t0 & Ht0). exists t0.
        updated t0 t; [rewrite Ept in Ht0; discriminate | exact Ht0].
      * intro x. updated x t; [reflexivity | apply Hpend].
      * exact Hlog.
    + assert (Hh := @holds_update s t (InGenerator i)
                      ltac:(intro; rewrite Ept; reflexivity)).
      constructor; simpl.
      * intros i' t1 t2. rewrite !Hh. apply Hex.
      * intros i' x Hl. rewrite Hh. apply Hun.
        revert Hl. updated i' i; simpl; auto.
      * intros i' Hr. updated i' i.
        -- exists t. rewrite update_same. simpl. apply Nat.eqb_refl.
        -- destruct (Hrun i' Hr) as (t0 & Ht0). exists t0.
           updated t0 t; [rewrite Ept in Ht0; discriminate | exact Ht0].
      * intro x. updated x t; [reflexivity | apply Hpend].
      * exact Hlog.
  - (* the body of the generator runs to its yield, or raises *)
    assert (Hinv : forall r g,
               is_conflict r = false ->
               gi_running g = false ->
               invariant
                 (mkState (update (iterators s) i (set_status (iterators s i) g))
                          (update (threads s) t (AtExit i r)) (log s))).
    { intros r g Hr Hg.
      assert (Hh := @holds_update s t (AtExit i r)
                      ltac:(intro; rewrite Ept; reflexivity)).
      constructor; simpl.
      * intros i' t1 t2. rewrite !Hh. apply Hex.
      * intros i' x Hl. rewrite Hh. apply Hun.
        revert Hl. updated i' i; simpl; auto.
      * intros i' Hr'. revert Hr'. updated i' i; simpl; [congruence|].
        intro Hr'. destruct (Hrun i' Hr') as (t0 & Ht0). exists t0.
        updated t0 t; [|exact Ht0].
        rewrite Ept in Ht0. simpl in Ht0. apply Nat.eqb_eq in Ht0. congruence.
      * intro x. updated x t; [exact Hr | apply Hpend].
      * exact Hlog. }
    destruct (ev_body_raises ev); now apply Hinv.
  - (* the with block is left *)
    assert (Hmine : holds (threads s t) i = true)
      by (rewrite Ept; simpl; apply Nat.eqb_refl).
    constructor; simpl.
    + intros i' t1 t2. updated t1 t; [discriminate|].
      updated t2 t; [discriminate|]. apply Hex.
    + intros i' x Hl. updated x t; [reflexivity|].
      revert Hl. updated i' i; simpl; intro Hl; [|now apply Hun].
      destruct (holds (threads s x) i) eqn:Hx; [|reflexivity].
      exfalso. pose proof (Hex i x t Hx Hmine). contradiction.
    + intros i' Hr.
      assert (Hr' : gi_running (iterator (iterators s i')) = true).
      { revert Hr. updated i' i; simpl; auto. }
      destruct (Hrun i' Hr') as (t0 & Ht0). exists t0.
      updated t0 t; [rewrite Ept in Ht0; discriminate | exact Ht0].
    + intro x. updated x t; [reflexivity | apply Hpend].
    + intros e He. apply in_app_or in He. destruct He as [He | [<- | []]].
      * now apply Hlog.
      * simpl. specialize (Hpend t). now rewrite Ept in Hpend.
Qed.

Lemma run_invariant (schedule : list event) (s : state) :
  invariant s -> invariant (run true schedule s).
Proof.
  revert s. unfold run.
  induction schedule as [|ev rest IH]; intros s Hs; simpl; [exact Hs|].
  apply IH. now apply step_invariant.
Qed.

(** C9.  Whatever the schedule of any number of threads calling
    [__next__] on wrapped generators, each with the lock its wrapper was
    built with: at no time are two threads inside the same generator, a
    generator is running only while the thread inside it holds the lock,
    and no call ever ends, or is about to end, in the [ValueError] that
    advancing a running generator raises. *)
Theorem C9_lock_serializes :
  forall schedule : list event,
    let s := run true schedule initial in
    (forall i t1 t2,
        threads s t1 = InGenerator i -> threads s t2 = InGenerator i -> t1 = t2)
    /\ (forall i,
           gi_running (iterator (iterators s i)) = true ->
           lock (iterators s i) = true
           /\ exists t, threads s t = InGenerator i)
    /\ (forall t i r, threads s t = AtExit i r -> r <> Raised ValueError)
    /\ (forall t i r, In (t, i, r) (log s) -> r <> Raised ValueError).
Proof.
  intros schedule s.
  destruct (run_invariant schedule initial_invariant)
    as [Hex Hun Hrun Hpend Hlog].
  fold s in Hex, Hun, Hrun, Hpend, Hlog.
  split; [|split; [|split]].
  - intros i t1 t2 H1 H2. apply (Hex i).
    + rewrite H1. simpl. apply Nat.eqb_refl.
    + rewrite H2. simpl. apply Nat.eqb_refl.
  - intros i Hr. destruct (Hrun i Hr) as (t & Ht). split.
    + destruct (lock (iterators s i)) eqn:El; [reflexivity|].
      pose proof (in_generator_holds _ _ Ht) as Hh.
      rewrite (Hun i t El) in Hh. discriminate.
    + exists t. destruct (threads s t); simpl in Ht; try discriminate.
      apply Nat.eqb_eq in Ht. now subst.
  - intros t i r Ht Hr. specialize (Hpend t). rewrite Ht in Hpend.
    subst r. discriminate.
  - intros t i r Hin Hr. specialize (Hlog _ Hin). subst r. discriminate.
Qed.

(** Without the wrapper the conflict is reachable: a second thread that
    advances the generator while the first is inside it gets the
    [ValueError]. *)
Lemma bare_generator_conflict :
  In (1%nat, 0%nat, Raised ValueError)
     (log (run false
               [mkEvent 0 0 false; mkEvent 0 0 false;
                mkEvent 1 0 false; mkEvent 1 0 false; mkEvent 1 0 false]
               initial)).
Proof. simpl. now left. Qed.


(** *** The lock is given back *)

Import ThreadsafeNotions.

Lemma initial_lock_owned : lock_owned initial.
Proof. intros i H. discriminate H. Qed.

Lemma step_lock_owned (s : state) (ev : event) :
  lock_owned s -> lock_owned (step true s ev).
Proof.
  intro Hown. unfold step. set (t := ev_thread ev).
  assert (Hkeep : forall p,
             (forall i, holds (threads s t) i = true -> holds p i = true) ->
             forall i, lock (iterators s i) = true ->
                       exists t0, holds (update (threads s) t p t0) i = true).
  { intros p Hp i Hl. destruct (Hown i Hl) as (t0 & Ht0).
    exists t0. updated t0 t; [now apply Hp | exact Ht0]. }
  destruct (threads s t) as [|i|i|i|i r] eqn:Ept.
  - intros i Hl. simpl in *. apply Hkeep; [discriminate | exact Hl].
  - destruct (lock (iterators s i)) eqn:Elock; [exact Hown|].
    intros i' Hl. simpl in *. updated i' i.
    + exists t. rewrite update_same. simpl. apply Nat.eqb_refl.
    + apply Hkeep; [discriminate | exact Hl].
  - destruct (gi_running (iterator (iterators s i)));
      [|destruct (gi_finished (iterator (iterators s i)))];
      intros i' Hl; simpl in *.
    + apply Hkeep; [auto | exact Hl].
    + apply Hkeep; [auto | exact Hl].
    + apply Hkeep; [auto|]. revert Hl. updated i' i; simpl; auto.
  - destruct (ev_body_raises ev); intros i' Hl; simpl in *;
      (apply Hkeep; [auto|]; revert Hl; updated i' i; simpl; auto).
  - intros i' Hl. simpl in *. revert Hl. updated i' i; simpl; [discriminate|].
    intro Hl. destruct (Hown i' Hl) as (t0 & Ht0). exists t0.
    updated t0 t; [|exact Ht0].
    rewrite Ept in Ht0. simpl in Ht0. apply Nat.eqb_eq in Ht0. congruence.
Qed.

Lemma run_lock_owned (schedule : list event) (s : state) :
  lock_owned s -> lock_owned (run true schedule s).
Proof.
  revert s. unfold run.
  induction schedule as [|ev rest IH]; intros s Hs; simpl; [exact Hs|].
  apply IH. now apply step_lock_owned.
Qed.

(** X17.  The lock of a wrapped generator is never left behind: under
    every schedule, whenever no thread is between [with self.lock] and the
    end of that block for an iterator, the lock of that iterator is free,
    also after calls in which the generator raised. *)
Theorem lock_free_when_no_caller_inside :
  forall (schedule : list event) (i : nat),
    let s := run true schedule initial in
    (forall t, holds (threads s t) i = false) ->
    lock (iterators s i) = false.
Proof.
  intros schedule i s Hnone.
  destruct (lock (iterators s i)) eqn:El; [|reflexivity].
  destruct (run_lock_owned schedule initial_lock_owned i El) as (t & Ht).
  now rewrite Hnone in Ht.
Qed.

End ThreadsafeFacts.

(** ** The reference model meets the library contracts *)
Module ReferenceFacts.

Import Reference.

Lemma ref_apply_identity :
  forall (x : sym_array) ca fm cv, ref_apply_transform x identity_matrix ca fm cv = x.
Proof. reflexivity. Qed.

Lemma ref_apply_keeps_shape :
  forall (x : sym_array) m ca fm cv,
    arr_shape (ref_apply_transform x m ca fm cv) = arr_shape x.
Proof.
  intros. unfold ref_apply_transform. now destruct (matrix_eqb m identity_matrix).
Qed.

Lemma Qred_eq (q c : Q) : q == c -> Qred c = c -> Qred q = c.
Proof. intros Heq Hc. rewrite <- Hc. now apply Qred_complete. Qed.

Lemma ref_offset_center_identity :
  forall h w, ref_offset_center identity_matrix h w = identity_matrix.
Proof.
  intros h w. unfold ref_offset_center, mat_mul, identity_matrix, dot, column.
  cbn [map combine fold_right nth fst snd].
  repeat f_equal;
    (apply Qred_eq; [rewrite ?Qred_correct; ring | reflexivity]).
Qed.

Lemma firstn_length_app (l1 l2 : list nat) :
  firstn (List.length l1) (l1 ++ l2) = l1.
Proof. induction l1 as [|a l1 IH]; simpl; [now destruct l2 | now rewrite IH]. Qed.

Lemma list_set_middle (l1 l2 : list nat) (x v : nat) :
  list_set (List.length l1) v (l1 ++ x :: l2) = l1 ++ v :: l2.
Proof.
  unfold list_set. rewrite firstn_length_app. f_equal. f_equal.
  induction l1 as [|a l1 IH]; [reflexivity|].
  change (skipn (S (List.length l1)) (l1 ++ x :: l2) = l2). exact IH.
Qed.

(** The pool step on a pool split at the picked position. *)
Lemma pool_step_last (l1 : list nat) (x : nat) :
  let pool := l1 ++ [x] in
  nth (List.length l1) pool 0%nat = x
  /\ firstn (List.length pool - 1)
            (list_set (List.length l1) (nth (List.length pool - 1) pool 0%nat) pool)
     = l1.
Proof.
  intro pool. unfold pool.
  assert (Hlen : (List.length (l1 ++ [x]) - 1)%nat = List.length l1)
    by (rewrite length_app; simpl; lia).
  rewrite Hlen, nth_middle. split; [reflexivity|].
  now rewrite list_set_middle, firstn_length_app.
Qed.

Lemma pool_step_inner (l1 l2 : list nat) (x y : nat) :
  let pool := l1 ++ x :: l2 ++ [y] in
  nth (List.length l1) pool 0%nat = x
  /\ firstn (List.length pool - 1)
            (list_set (List.length l1) (nth (List.length pool - 1) pool 0%nat) pool)
     = l1 ++ y :: l2.
Proof.
  intro pool. unfold pool. split; [now rewrite nth_middle|].
  assert (Hlen : (List.length (l1 ++ x :: l2 ++ [y]) - 1)%nat
                 = List.length (l1 ++ x :: l2)).
  { rewrite !length_app. simpl. rewrite length_app. simpl. lia. }
  rewrite Hlen.
  replace (nth (List.length (l1 ++ x :: l2)) (l1 ++ x :: l2 ++ [y]) 0%nat) with y.
  2: { replace (l1 ++ x :: l2 ++ [y]) with ((l1 ++ x :: l2) ++ [y])
         by (now rewrite <- app_assoc).
       now rewrite nth_middle. }
  rewrite list_set_middle.
  replace (List.length (l1 ++ x :: l2)) with (List.length (l1 ++ y :: l2))
    by (rewrite !length_app; reflexivity).
  replace (l1 ++ y :: l2 ++ [y]) with ((l1 ++ y :: l2) ++ [y])
    by (now rewrite <- app_assoc).
  apply firstn_length_app.
Qed.

(** One pool step takes an item out of the pool and loses none. *)
Lemma pool_step_permutation (pool : list nat) (j : nat) :
  (j < List.length pool)%nat ->
  Permutation pool
    (nth j pool 0%nat
     :: firstn (List.length pool - 1)
               (list_set j (nth (List.length pool - 1) pool 0%nat) pool)).
Proof.
  intro Hj.
  destruct (nth_split pool 0%nat Hj) as (l1 & l2 & Hpool & Hlen).
  remember (nth j pool 0%nat) as x eqn:Hx0. clear Hx0 Hj.
  subst pool j.
  destruct l2 as [|z l2' _] using rev_ind.
  - pose proof (pool_step_last l1 x) as H. cbv zeta in H.
    destruct H as (_ & Hrest). rewrite Hrest.
    apply Permutation_sym, Permutation_cons_append.
  - pose proof (pool_step_inner l1 l2' x z) as H. cbv zeta in H.
    destruct H as (_ & Hrest). rewrite Hrest.
    apply Permutation_sym.
    apply Permutation_trans with (l1 ++ x :: z :: l2').
    + apply (Permutation_middle l1 (z :: l2') x).
    + apply Permutation_app_head. apply perm_skip.
      apply Permutation_cons_append.
Qed.

Lemma pool_sample_spec (k : nat) :
  forall (pool rnd : list nat),
    NoDup pool ->
    (k <= List.length pool)%nat ->
    let picked := fst (pool_sample pool k rnd) in
    List.length picked = k /\ NoDup picked /\ incl picked pool.
Proof.
  induction k as [|k IH]; intros pool rnd Hnd Hk.
  - simpl. repeat split; [constructor | intros a []].
  - cbn [pool_sample fst].
    set (m := List.length pool).
    set (j := (hd 0%nat rnd mod m)%nat).
    assert (Hj : (j < m)%nat) by (apply Nat.mod_upper_bound; unfold m; lia).
    pose proof (pool_step_permutation pool Hj) as Hperm. fold m in Hperm.
    set (pool' := firstn (m - 1) (list_set j (nth (m - 1) pool 0%nat) pool)) in *.
    pose proof (Permutation_NoDup Hperm Hnd) as Hnd'.
    inversion Hnd' as [|? ? Hnotin Hpool']; subst.
    assert (Hlen' : (k <= List.length pool')%nat).
    { apply Permutation_length in Hperm. simpl in Hperm. fold m in Hperm. lia. }
    destruct (IH pool' (tl rnd) Hpool' Hlen') as (Hlen & Hndp & Hincl).
    split; [|split].
    + simpl. now rewrite Hlen.
    + constructor; [|exact Hndp]. intro Hin. apply Hnotin. now apply Hincl.
    + intros a [<- | Ha].
      * apply (Permutation_in _ (Permutation_sym Hperm)). now left.
      * apply (Permutation_in _ (Permutation_sym Hperm)). right. now apply Hincl.
Qed.

Lemma ref_sample_contract : @sample_contract reference.
Proof.
  intros s n k Hk. simpl. unfold ref_sample_positions.
  destruct (@pool_sample_spec k (seq 0 n) s) as (Hlen & Hnd & Hincl).
  - apply seq_NoDup.
  - now rewrite length_seq.
  - repeat split; try assumption.
    apply Forall_forall. intros j Hj. apply Hincl in Hj. apply in_seq in Hj. lia.
Qed.

Lemma ref_flip_keeps_shape :
  forall (x : sym_array) (axis : nat),
    List.length (arr_shape x) = 3%nat -> (axis < 3)%nat ->
    arr_shape (ref_swapaxes (ref_reverse0 (ref_swapaxes x axis 0%nat)) 0%nat axis)
    = arr_shape x.
Proof.
  intros [src shp ops] axis Hlen Haxis. simpl in *.
  destruct shp as [|a [|b [|c [|d shp]]]]; try discriminate.
  destruct axis as [|[|[|axis]]]; [reflexivity | reflexivity | reflexivity | lia].
Qed.

Lemma shape_eqb_refl (shp : list nat) : shape_eqb shp shp = true.
Proof.
  unfold shape_eqb. rewrite Nat.eqb_refl. simpl.
  induction shp as [|a shp IH]; simpl; [reflexivity|].
  now rewrite Nat.eqb_refl.
Qed.

(** The reference [np.array] builds the array of every batch that is one
    block. *)
Lemma ref_array_of_block :
  forall X : list (list sym_array), @rectangular reference X -> ref_array_error X = None.
Proof.
  intros X (count & shp & Hall). unfold ref_array_error.
  replace (one_block X) with true; [reflexivity|].
  symmetry. unfold one_block.
  destruct X as [|first rest]; [reflexivity|].
  rewrite Forall_forall in Hall.
  apply andb_true_iff. split.
  - apply forallb_forall. intros sequence Hin. apply Nat.eqb_eq.
    destruct (Hall sequence Hin) as (H1 & _).
    destruct (Hall first (or_introl eq_refl)) as (H2 & _).
    exact (eq_trans H1 (eq_sym H2)).
  - assert (Hshape : forall x, In x (List.concat (first :: rest)) -> arr_shape x = shp).
    { intros x Hx. apply in_concat in Hx. destruct Hx as (sequence & Hin & Hx).
      destruct (Hall sequence Hin) as (_ & Hs).
      rewrite Forall_forall in Hs. now apply Hs. }
    destruct (List.concat (first :: rest)) as [|x0 l] eqn:E; [reflexivity|].
    apply forallb_forall. intros x Hx.
    pose proof (Hshape x Hx) as Ex.
    pose proof (Hshape x0 (or_introl eq_refl)) as Ex0.
    simpl in Ex, Ex0. rewrite Ex, Ex0.
    apply shape_eqb_refl.
Qed.

End ReferenceFacts.

(** ** The claims on concrete inputs *)
Module Scenarios.

Import Reference.

#[local] Existing Instance reference.

(** No two of the listed strings are equal. *)
Ltac distinct_strings :=
  repeat (constructor; [simpl; intuition discriminate|]); constructor.

Lemma C1_temporal_coherence_witness :
  let w := world_of [3 # 4; 1 # 4] [] in
  (forall rotation_range,
      coherent (random_sequence_rotation two_frames rotation_range no_kwargs)
               two_frames 1 w)
  /\ (forall height_shift_range width_shift_range,
         coherent (random_sequence_shift two_frames height_shift_range
                                         width_shift_range no_kwargs)
                  two_frames 2 w)
  /\ (forall shear_range,
         coherent (random_sequence_shear two_frames shear_range no_kwargs)
                  two_frames 1 w)
  /\ (forall zoom_range,
         coherent (random_sequence_zoom two_frames zoom_range no_kwargs) two_frames
                  (if Qle_bool (Qabs zoom_range) (2 ^ (-54)) then 0 else 2) w)
  /\ (forall zoom_range,
         Qabs zoom_range <= 2 ^ (-54) ->
         random_sequence_zoom two_frames zoom_range no_kwargs w
         = (Ok (map (fun x =>
                       apply_transform x
                         (transform_matrix_offset_center (zoom_matrix_of 1 1) 224 224)
                         1 "nearest" 0)
                    two_frames),
            w)).
Proof.
  apply (@C1_temporal_coherence reference two_frames [224; 224; 3]%nat no_kwargs
           (world_of [3 # 4; 1 # 4] [])).
  - discriminate.
  - repeat constructor.
  - simpl. lia.
  - simpl. lia.
Defined.

(** C1, as stated, fails for the zoom.  With [zoom_range = 0], and with
    the positive range [1e-17], which the rounding of [1 - zoom_range] and
    of [1 + zoom_range] absorbs, the call returns the two frames and has
    not read the random source once; with the range 0.2 it has made the
    two unit draws of its one call. *)
Lemma C1_counterexample :
  let w := world_of [3 # 4; 1 # 4] [] in
  let zoom := fun zoom_range => random_sequence_zoom two_frames zoom_range no_kwargs w in
  (fst (zoom 0) = Ok two_frames /\ np_drawn (snd (zoom 0)) = np_drawn w)
  /\ (fst (zoom (1 # 100000000000000000)) = Ok two_frames
      /\ np_drawn (snd (zoom (1 # 100000000000000000))) = np_drawn w)
  /\ np_drawn (snd (zoom (1 # 5))) = (np_drawn w + 2)%nat.
Proof. repeat split. Qed.

(** C6, as stated, fails on the empty sequence: the call raises at
    [seq[0]] and returns nothing. *)
Lemma C6_counterexample :
  let run := @random_sequence_zoom reference [] 0 no_kwargs (world_of [] []) in
  fst run = Raise IndexError /\ fst run <> Ok [].
Proof. split; [reflexivity | discriminate]. Qed.

Lemma C6_zoom_zero_identity_witness :
  @random_sequence_zoom reference two_frames 0 no_kwargs (world_of [3 # 4] [])
  = (Ok two_frames, world_of [3 # 4] []).
Proof.
  apply (@C6_zoom_zero_identity reference two_frames [224; 224; 3]%nat no_kwargs 0
           (world_of [3 # 4] [])).
  - exact ReferenceFacts.ref_offset_center_identity.
  - exact ReferenceFacts.ref_apply_identity.
  - discriminate.
  - repeat constructor.
  - simpl. lia.
  - simpl. lia.
  - reflexivity.
Defined.

Lemma three_dirs_well_formed :
  forall pth, In pth (dict_keys three_samples) ->
              well_formed_sample (ref_fs three_dirs) pth.
Proof.
  intros pth [<- | [<- | [<- | []]]];
    (exists (frames_dir 2); split; [reflexivity|];
     intros [|[|i]] Hi; [discriminate | discriminate | simpl in Hi; lia]).
Qed.

Lemma C7_testing_round_robin_witness :
  exists pth lbl sequence g' w',
    nth_error three_samples (3 mod List.length three_samples) = Some (pth, lbl)
    /\ (forall w0, assemble (ref_fs three_dirs) pth w0 = (Ok sequence, w0))
    /\ pull_nth (testing_generator_next (ref_fs three_dirs) (constructed default_args)
                                        three_samples "test") 3
                (testing_generator (constructed default_args) three_samples "test")
                (world_of [] [])
       = (Ok ([sequence], lbl), g', w')
    /\ same_random (world_of [] []) w'.
Proof.
  apply (@C7_testing_round_robin reference (ref_fs three_dirs) (constructed default_args)
           three_samples "test"%string 3%nat (world_of [] [])).
  - discriminate.
  - distinct_strings.
  - exact three_dirs_well_formed.
Defined.

(** Four pulls on three keys: the keys in order, then the first again. *)
Example testing_four_pulls :
  map (fun n =>
         fst (fst (pull_nth (testing_generator_next (ref_fs three_dirs)
                               (constructed default_args) three_samples "test") n
                            (testing_generator (constructed default_args)
                               three_samples "test")
                            (world_of [] []))))
      [0; 1; 2; 3]%nat
  = map (fun p => Ok ([[loaded_frame (fst p ++ "/frame0.png");
                        loaded_frame (fst p ++ "/frame1.png")]], snd p))
        [("/data/s1", (70, 16)); ("/data/s2", (165 # 2, 91 # 5));
         ("/data/s3", (64, 14)); ("/data/s1", (70, 16))]%string.
Proof. reflexivity. Qed.

Lemma C8_index_driven_assembly_witness :
  let sample := "/data/s1"%string in
  let contents :=
    ["frame0.png"; "frame1.png"; "frame3.png"; "frame4.png"; "notes.txt"]%string in
  let w := world_of [] [] in
  let count := List.length contents in
  exists prefix : string,
    ((sample = ""%string /\ prefix = ""%string)
     \/ ((exists dir, sample = (dir ++ "/")%string) /\ prefix = sample)
     \/ (sample <> ""%string
         /\ (forall dir, sample <> (dir ++ "/")%string)
         /\ prefix = (sample ++ "/")%string))
    /\ let path := fun i : nat =>
         (prefix ++ "frame" ++ NilEmpty.string_of_uint (Nat.to_uint i) ++ ".png")%string in
       let paths := map path (seq 0 count) in
       get_sample_frames (ref_fs gap_dirs) sample w = (Ok paths, w)
       /\ List.length paths = count
       /\ (forall i, (i < count)%nat -> nth_error paths i = Some (path i))
       /\ (forall (fs' : filesystem) (contents' : list string),
              os_listdir fs' sample = Some contents' ->
              Permutation contents contents' ->
              get_sample_frames fs' sample w = (Ok paths, w))
       /\ (forall i : nat,
              (i < count)%nat ->
              load_img (ref_fs gap_dirs) (path i) (224, 224)%nat = None ->
              build_image_sequence (ref_fs gap_dirs) paths None w = (Raise IOError, w)
              /\ assemble (ref_fs gap_dirs) sample w = (Raise IOError, w))
       /\ (forall (i h_ w_ c_ : nat),
              (i < count)%nat ->
              load_img (ref_fs gap_dirs) (path i) (h_, w_) = None ->
              build_image_sequence (ref_fs gap_dirs) paths (Some (h_, w_, c_)) w
              = (Raise IOError, w)).
Proof.
  apply (@C8_index_driven_assembly reference (ref_fs gap_dirs) "/data/s1"%string
           ["frame0.png"; "frame1.png"; "frame3.png"; "frame4.png"; "notes.txt"]%string
           (world_of [] [])).
  reflexivity.
Defined.

(** The scenario of the specification: five entries, [frame2.png] missing. *)
Example missing_frame2_raises :
  get_sample_frames (ref_fs gap_dirs) "/data/s1" (world_of [] [])
  = (Ok ["/data/s1/frame0.png"; "/data/s1/frame1.png"; "/data/s1/frame2.png";
         "/data/s1/frame3.png"; "/data/s1/frame4.png"]%string, world_of [] [])
  /\ load_img (ref_fs gap_dirs) "/data/s1/frame2.png" (224, 224)%nat = None
  /\ assemble (ref_fs gap_dirs) "/data/s1" (world_of [] [])
     = (Raise IOError, world_of [] []).
Proof. repeat split. Qed.

Lemma C10_zoom_channel_axis_witness :
  let self := constructed args_augmenting in
  let w := world_of [3 # 4; 1 # 4] [] in
  (Qgt_bool (zoom_range self) 0 = true ->
   exists zx zy,
     zoom_step self two_frames w
     = (Ok (map (fun x =>
                   apply_transform x
                     (transform_matrix_offset_center (zoom_matrix_of zx zy) 224 224)
                     1 "nearest" 0)
                two_frames),
        after_draws (if Qle_bool (zoom_range self) (2 ^ (-54)) then 0 else 2) w))
  /\ (Qgt_bool (inject_Z (rotation_range self)) 0 = true ->
      exists m,
        rotation_step self two_frames w
        = (Ok (map (fun x => apply_transform x m 2 "nearest" 0) two_frames),
           after_draws 1 w))
  /\ ((Qgt_bool (width_shift_range self) 0
       || Qgt_bool (height_shift_range self) 0)%bool = true ->
      exists m,
        shift_step self two_frames w
        = (Ok (map (fun x => apply_transform x m 2 "nearest" 0) two_frames),
           after_draws 2 w))
  /\ (forall shear,
         as_number (shear_range self) = Some shear ->
         Qgt_bool shear 0 = true ->
         exists m,
           shear_step self two_frames w
           = (Ok (map (fun x => apply_transform x m 2 "nearest" 0) two_frames),
              after_draws 1 w)).
Proof.
  apply (@C10_zoom_channel_axis reference (constructed args_augmenting) two_frames
           [224; 224; 3]%nat (world_of [3 # 4; 1 # 4] [])).
  - discriminate.
  - repeat constructor.
  - simpl. lia.
Defined.

(** The zoom step of [FrameProcessor(zoom_range=1e-17)]: the step runs,
    with channel axis 1 and the factors [1, 1], and no number is drawn. *)
Example absorbed_zoom_step :
  Qgt_bool (zoom_range (constructed args_absorbed_zoom)) 0 = true
  /\ zoom_step (constructed args_absorbed_zoom) two_frames (world_of [3 # 4; 1 # 4] [])
     = (Ok (map (fun x =>
                   apply_transform x
                     (transform_matrix_offset_center (zoom_matrix_of 1 1) 224 224)
                     1 "nearest" 0)
                two_frames),
        world_of [3 # 4; 1 # 4] []).
Proof. split; reflexivity. Qed.

(** The channel axes as the reference arrays record them: 2 for rotation,
    shift and shear, 1 for the zoom that comes last. *)
Example channel_axes_of_a_pull :
  map (fun o => match o with OpAffine _ ca _ _ => Some ca | _ => None end)
      (arr_ops
         (hd (loaded_frame "")
             (match fst (@frame_sample reference (ref_fs two_dirs)
                           (constructed args_augmenting) "/data/s1" None
                           (world_of [3 # 4; 1 # 4; 1 # 3; 2 # 3; 1 # 5] []))
              with
              | Ok sc => fst sc
              | Raise _ => []
              end)))
  = [None; Some 2; Some 2; Some 2; Some 1]%nat.
Proof. reflexivity. Qed.

(** C5, as stated, fails three ways: a negative [rotation_range] and a
    negative [zoom_range] are invalid for the specification and accepted by
    [__init__], and the integer 1 as [width_shift_range] lies within
    [[0, 1]] and is refused. *)
Lemma C5_counterexample :
  (spec_invalid args_negative_rotation = true
   /\ exists self, __init__ args_negative_rotation = Ok self)
  /\ (spec_invalid args_negative_zoom = true
      /\ exists self, __init__ args_negative_zoom = Ok self)
  /\ (spec_invalid args_int_width_shift = false
      /\ exists msg, __init__ args_int_width_shift = Raise (AssertionError msg)).
Proof.
  repeat split; eexists; reflexivity.
Qed.

(** C2 at [FrameProcessor(horizontal_flip=True, batch_size=2)] on the
    two-sample mapping: the arguments pass [__init__], the mapping has
    [batch_size] keys, and the first pull raises instead of yielding a
    batch; the generator is finished afterwards. *)
Lemma C2_horizontal_only_yields_no_batch :
  exists self,
    __init__ args_horizontal_only = Ok self
    /\ fst (frame_generator_next (ref_fs two_dirs) self two_samples "train"
              (frame_generator self two_samples "train") (world_of [] [1; 0]%nat))
       = (Raise UnboundLocalError, Finished).
Proof. eexists. split; reflexivity. Qed.

(** C3 at its two failing inputs.  With the horizontal flip alone, the
    step reads the unbound [coin_flip] and raises.  With both flips, a
    vertical draw of 3/4 and a horizontal draw of 1/4, the sample is
    flipped along axis 1 and then along axis 2 all the same: the decision
    of the vertical flip is used again and the second draw is dropped. *)
Lemma C3_horizontal_flip_follows_vertical :
  horizontal_flip_step (constructed args_horizontal_only) two_frames None
                       (world_of [1 # 4] [])
  = (Raise UnboundLocalError, world_of [1 # 4] [])
  /\ exists X y,
       fst (fst (frame_generator_next (ref_fs two_dirs) (constructed args_both_flips)
                   two_samples "train"
                   (frame_generator (constructed args_both_flips) two_samples "train")
                   (world_of [3 # 4; 1 # 4] [0]%nat)))
       = Ok (X, y)
       /\ batch_ops X
          = [[OpScale255 :: flip_ops 1 ++ flip_ops 2;
              OpScale255 :: flip_ops 1 ++ flip_ops 2;
              OpScale255 :: flip_ops 1 ++ flip_ops 2]].
Proof.
  split; [reflexivity|]. do 2 eexists. split; reflexivity.
Qed.

(** C4 at [FrameProcessor(width_shift_range=0.0, height_shift_range=0.5)]
    with a unit draw of 3/4 for both translations, on frames of 224 by
    224: the row translation comes out as 0 and the column translation as
    56, where the height range of 0.5 and the width range of 0 call for a
    row translation of 56 and a column translation of 0. *)
Lemma C4_shift_ranges_swapped :
  exists tx ty,
    fst (shift_step (constructed args_height_shift) two_frames
                    (world_of [3 # 4; 3 # 4] []))
    = Ok (apply_to_sequence two_frames (translation_matrix_of tx ty) 2 "nearest" 0)
    /\ tx == 0
    /\ ty == 56
    /\ (- (1 # 2) + ((1 # 2) - - (1 # 2)) * (3 # 4)) * 224 == 56.
Proof.
  do 2 eexists. split; [reflexivity|]. repeat split.
Qed.

Lemma two_dirs_augmentable :
  forall pth, In pth (dict_keys two_samples) ->
              augmentable_sample (ref_fs two_dirs) pth.
Proof.
  intros pth [<- | [<- | []]];
    (eexists; exists [224; 224; 3]%nat; split; [intro w; reflexivity|];
     split; [discriminate|]; split; [repeat constructor | simpl; lia]).
Qed.

Lemma two_dirs_uniform :
  uniform_samples (ref_fs two_dirs) two_samples 3 [224; 224; 3]%nat.
Proof.
  intros pth [<- | [<- | []]];
    (eexists; split; [intro w; reflexivity|];
     split; [reflexivity | repeat constructor]).
Qed.

(** The conditions of [frame_generator_batches] hold for the two-sample
    mapping with every transform but the flips switched on. *)
Lemma frame_generator_batches_witness :
  exists batch g' w',
    pull_nth (frame_generator_next (ref_fs two_dirs) (constructed args_augmenting)
                two_samples "train") 5
             (frame_generator (constructed args_augmenting) two_samples "train")
             (world_of [3 # 4; 1 # 4] [1; 0; 3; 2; 5]%nat)
    = (Ok batch, g', w')
    /\ batch_ok (ref_fs two_dirs) (constructed args_augmenting) two_samples 2 batch.
Proof.
  apply (@frame_generator_batches reference (ref_fs two_dirs)
           (constructed args_augmenting) two_samples "train"%string 5 2%Z
           3%nat [224; 224; 3]%nat).
  - exact ReferenceFacts.ref_sample_contract.
  - exact ReferenceFacts.ref_apply_keeps_shape.
  - exact ReferenceFacts.ref_flip_keeps_shape.
  - exact ReferenceFacts.ref_array_of_block.
  - discriminate.
  - reflexivity.
  - reflexivity.
  - simpl. lia.
  - distinct_strings.
  - reflexivity.
  - discriminate.
  - exact two_dirs_uniform.
Defined.

(** Samples of three and of two frames: the reference [np.array], which
    refuses ragged nesting as NumPy does from 1.24 on, makes the pull
    raise [ValueError] at the [yield]. *)
Example ragged_batch_raises :
  fst (frame_generator_next (ref_fs ragged_dirs) (constructed args_batch_two)
         two_samples "train"
         (frame_generator (constructed args_batch_two) two_samples "train")
         (world_of [] [1; 0]%nat))
  = (Raise ValueError, Finished).
Proof. reflexivity. Qed.

(** The message of a failed range assertion carries the value. *)
Example shift_range_message :
  __init__ (mkArgs (PyInt 0) (PyFloat (3 # 2)) (PyFloat 0) (PyFloat 0) (PyFloat 0)
                   (PyBool false) (PyBool false) (PyInt 4))
  = Raise (AssertionError "width_shift_range should be in [0, 1], got 1.500000").
Proof. reflexivity. Qed.

(** The scenario of the specification: two keys, [batch_size=2], nothing
    to augment.  A pull returns both samples, each with its label, in the
    order the sampling picked. *)
Example two_samples_batch :
  fst (fst (frame_generator_next (ref_fs two_dirs)
              (constructed (mkArgs (PyInt 0) (PyFloat 0) (PyFloat 0) (PyFloat 0)
                                   (PyFloat 0) (PyBool false) (PyBool false) (PyInt 2)))
              two_samples "train" Created (world_of [] [1; 0]%nat)))
  = Ok ([map loaded_frame ["/data/s2/frame0.png"; "/data/s2/frame1.png";
                           "/data/s2/frame2.png"];
         map loaded_frame ["/data/s1/frame0.png"; "/data/s1/frame1.png";
                           "/data/s1/frame2.png"]]%string,
        [(165 # 2, 91 # 5); (70, 16)]).
Proof. reflexivity. Qed.


(** *** The further properties on concrete inputs *)

Lemma flip_twice_restores_witness :
  @sequence_flip_axis Flat.flat (@sequence_flip_axis Flat.flat Flat.two_rows 0) 0
  = Flat.two_rows.
Proof.
  apply (@flip_twice_restores Flat.flat Flat.two_rows 0%nat).
  - reflexivity.
  - reflexivity.
  - intro x. simpl. apply rev_involutive.
Defined.

Lemma world_of_unit_draws (draws : list Q) (rnd : list nat) :
  Forall (fun q => 0 <= q /\ q < 1) draws -> unit_draws (world_of draws rnd).
Proof.
  intros Hall n. simpl. revert n.
  induction Hall as [|q l Hq Hl IH]; intros [|n]; simpl; try lra; auto.
Qed.

Lemma sample_draws_unit : unit_draws (world_of [3 # 4; 1 # 4] []).
Proof. apply world_of_unit_draws. repeat constructor; lra. Qed.

Lemma rotation_and_shear_angle_within_range_witness :
  let w := world_of [3 # 4; 1 # 4] [] in
  exists degrees,
    - (10) <= degrees /\ degrees <= 10
    /\ random_sequence_rotation two_frames 10 no_kwargs w
       = (Ok (apply_to_sequence two_frames
                (transform_matrix_offset_center
                   (rotation_matrix_of (np_deg2rad degrees)) 224 224)
                2 "nearest" 0),
          after_draws 1 w)
    /\ random_sequence_shear two_frames 10 no_kwargs w
       = (Ok (apply_to_sequence two_frames
                (transform_matrix_offset_center
                   (shear_matrix_of (np_deg2rad degrees)) 224 224)
                2 "nearest" 0),
          after_draws 1 w).
Proof.
  apply (@rotation_and_shear_angle_within_range reference two_frames
           [224; 224; 3]%nat no_kwargs 10 (world_of [3 # 4; 1 # 4] [])).
  - discriminate.
  - repeat constructor.
  - simpl. lia.
  - simpl. lia.
  - lra.
  - exact sample_draws_unit.
Defined.

Lemma zoom_factors_within_range_witness :
  let w := world_of [3 # 4; 1 # 4] [] in
  let zlower := binary64 (1 - (1 # 5)) in
  let zupper := binary64 (1 + (1 # 5)) in
  (zlower <= 1 /\ 1 <= zupper)
  /\ exists zx zy,
       (zlower <= zx /\ zx <= zupper)
       /\ (zlower <= zy /\ zy <= zupper)
       /\ random_sequence_zoom two_frames (1 # 5) no_kwargs w
          = (Ok (map (fun x =>
                        apply_transform x
                          (transform_matrix_offset_center (zoom_matrix_of zx zy) 224 224)
                          1 "nearest" 0)
                     two_frames),
             after_draws (if Qle_bool (1 # 5) (2 ^ (-54)) then 0 else 2) w).
Proof.
  apply (@zoom_factors_within_range reference two_frames [224; 224; 3]%nat no_kwargs
           (1 # 5) (world_of [3 # 4; 1 # 4] [])).
  - discriminate.
  - repeat constructor.
  - simpl. lia.
  - simpl. lia.
  - lra.
  - exact sample_draws_unit.
Defined.

(** At [zoom_range = 1e-16] the sum [1 + zoom_range] is absorbed and the
    difference [1 - zoom_range] is not: the zoom draws. *)
Example sum_absorbed_difference_not :
  binary64 (1 + (1 # 10000000000000000)) == 1
  /\ binary64 (1 - (1 # 10000000000000000)) == 9007199254740991 # 9007199254740992
  /\ np_drawn (snd (random_sequence_zoom two_frames (1 # 10000000000000000) no_kwargs
                      (world_of [3 # 4; 1 # 4] [])))
     = 2%nat.
Proof. repeat split. Qed.

(** The bounds of the example are the floats next to 0.8 and 1.2. *)
Example zoom_bounds_of_a_fifth :
  binary64 (1 - (1 # 5)) == 3602879701896397 # 4503599627370496
  /\ binary64 (1 + (1 # 5)) == 5404319552844595 # 4503599627370496.
Proof. split; reflexivity. Qed.

Lemma shift_translation_within_frame_witness :
  let w := world_of [3 # 4; 1 # 4] [] in
  exists tx ty,
    (- inject_Z 224 <= tx /\ tx <= inject_Z 224)
    /\ (- inject_Z 224 <= ty /\ ty <= inject_Z 224)
    /\ shift_step (constructed args_augmenting) two_frames w
       = (Ok (apply_to_sequence two_frames (translation_matrix_of tx ty) 2 "nearest" 0),
          after_draws 2 w).
Proof.
  apply (@shift_translation_within_frame reference args_augmenting
           (constructed args_augmenting) two_frames [224; 224; 3]%nat
           (world_of [3 # 4; 1 # 4] [])).
  - reflexivity.
  - discriminate.
  - repeat constructor.
  - simpl. lia.
  - exact sample_draws_unit.
  - reflexivity.
Defined.

Lemma sample_frames_distinct_witness :
  exists paths,
    get_sample_frames (ref_fs two_dirs) "/data/s1" (world_of [] [])
    = (Ok paths, world_of [] [])
    /\ List.length paths = List.length (frames_dir 3)
    /\ NoDup paths.
Proof.
  apply (@sample_frames_distinct reference (ref_fs two_dirs) "/data/s1"%string
           (frames_dir 3) (world_of [] [])).
  reflexivity.
Defined.

Lemma assembled_sequence_frames_witness :
  exists sequence,
    (forall w, assemble (ref_fs two_dirs) "/data/s1" w = (Ok sequence, w))
    /\ Forall2 (fun i x =>
                  exists im,
                    load_img (ref_fs two_dirs)
                             (os_path_join "/data/s1" (frame_name i)) (224, 224)%nat
                    = Some im
                    /\ x = np_scale255 (img_to_array im))
               (seq 0 (List.length (frames_dir 3))) sequence.
Proof.
  apply (@assembled_sequence_frames reference (ref_fs two_dirs) "/data/s1"%string
           (frames_dir 3)).
  - reflexivity.
  - intros [|[|[|i]]] Hi; try discriminate. simpl in Hi. lia.
Defined.

Lemma frame_sample_without_augmentation_witness :
  frame_sample (ref_fs two_dirs) (constructed default_args) "/data/s1" None
               (world_of [3 # 4] [])
  = match assemble (ref_fs two_dirs) "/data/s1" (world_of [3 # 4] []) with
    | (Ok sequence, w') => (Ok (sequence, None), w')
    | (Raise e, w') => (Raise e, w')
    end.
Proof.
  apply (@frame_sample_without_augmentation reference (ref_fs two_dirs)
           (constructed default_args) 0 "/data/s1"%string None (world_of [3 # 4] [])).
  - simpl. lia.
  - simpl. lra.
  - simpl. lra.
  - reflexivity.
  - lra.
  - simpl. lra.
  - reflexivity.
  - reflexivity.
Defined.

Lemma frame_generator_batch_out_of_range_witness :
  fst (pull_nth (frame_generator_next (ref_fs two_dirs) (constructed default_args)
                   two_samples "train") 1
                (frame_generator (constructed default_args) two_samples "train")
                (world_of [] [1; 0]%nat))
  = (Raise (if (1 =? 0)%nat then ValueError else StopIteration), Finished).
Proof.
  apply (@frame_generator_batch_out_of_range reference (ref_fs two_dirs)
           (constructed default_args) two_samples "train"%string 4%Z 1%nat
           (world_of [] [1; 0]%nat)).
  - reflexivity.
  - right. simpl. lia.
Defined.


Lemma frame_generator_yields_aligned_witness :
  exists b,
    as_index (batch_size (constructed args_batch_two)) = Some b
    /\ (0 <= b <= Z.of_nat (List.length two_samples))%Z
    /\ batch_ok (ref_fs two_dirs) (constructed args_batch_two) two_samples
                (Z.to_nat b) second_then_first.
Proof.
  eapply (@frame_generator_yields_aligned reference (ref_fs two_dirs)
            (constructed args_batch_two) two_samples "train"%string 0%nat
            (world_of [] [1; 0]%nat)).
  - exact ReferenceFacts.ref_sample_contract.
  - distinct_strings.
  - reflexivity.
Defined.

Lemma frame_generator_draw_count_witness :
  exists batch g' w',
    pull_nth (frame_generator_next (ref_fs two_dirs) (constructed args_augmenting)
                two_samples "train") 5
             (frame_generator (constructed args_augmenting) two_samples "train")
             (world_of [3 # 4; 1 # 4] [1; 0; 3; 2; 5]%nat)
    = (Ok batch, g', w')
    /\ np_advanced (6 * (Z.to_nat 2 * draws_per_sample (constructed args_augmenting)))
                   (world_of [3 # 4; 1 # 4] [1; 0; 3; 2; 5]%nat) w'.
Proof.
  apply (@frame_generator_draw_count reference (ref_fs two_dirs)
           (constructed args_augmenting) two_samples "train"%string 5 2%Z
           3%nat [224; 224; 3]%nat 5%nat).
  - exact ReferenceFacts.ref_sample_contract.
  - exact ReferenceFacts.ref_apply_keeps_shape.
  - exact ReferenceFacts.ref_flip_keeps_shape.
  - exact ReferenceFacts.ref_array_of_block.
  - discriminate.
  - reflexivity.
  - reflexivity.
  - simpl. lia.
  - distinct_strings.
  - reflexivity.
  - discriminate.
  - exact two_dirs_uniform.
Defined.

(** The count on the example: six draws a sample, 72 after six pulls of two. *)
Example draws_of_six_pulls :
  draws_per_sample (constructed args_augmenting) = 6%nat
  /\ np_drawn
       (snd (pull_nth (frame_generator_next (ref_fs two_dirs)
                         (constructed args_augmenting) two_samples "train") 5
                      (frame_generator (constructed args_augmenting) two_samples
                         "train")
                      (world_of [3 # 4; 1 # 4] [1; 0; 3; 2; 5]%nat)))
     = 72%nat.
Proof. split; reflexivity. Qed.

Lemma frame_sample_pipeline_witness :
  let self := constructed args_augmenting in
  let w := world_of [3 # 4; 1 # 4] [] in
  frame_sample (ref_fs two_dirs) self "/data/s1" None w
  = bind (vertical_flip_step self
            (affine_pipeline self 5 224 224 w
               (map loaded_frame ["/data/s1/frame0.png"; "/data/s1/frame1.png";
                                  "/data/s1/frame2.png"]%string))
            None)
         (fun sc => horizontal_flip_step self (fst sc) (snd sc))
         (after_draws 6 w).
Proof.
  apply (@frame_sample_pipeline reference (ref_fs two_dirs)
           (constructed args_augmenting) 5 "/data/s1"%string
           (map loaded_frame ["/data/s1/frame0.png"; "/data/s1/frame1.png";
                              "/data/s1/frame2.png"]%string)
           [224; 224; 3]%nat None (world_of [3 # 4; 1 # 4] [])).
  - exact ReferenceFacts.ref_apply_keeps_shape.
  - intro w0. reflexivity.
  - discriminate.
  - repeat constructor.
  - simpl. lia.
  - reflexivity.
  - reflexivity.
  - reflexivity.
  - reflexivity.
  - reflexivity.
Defined.

Lemma frame_generator_shear_not_a_number_witness :
  fst (frame_generator_next (ref_fs two_dirs) (constructed args_shear_none)
         two_samples "train"
         (frame_generator (constructed args_shear_none) two_samples "train")
         (world_of [] [1]%nat))
  = (Raise TypeError, Finished).
Proof.
  apply (@frame_generator_shear_not_a_number reference (ref_fs two_dirs)
           (constructed args_shear_none) two_samples "train"%string 1%Z
           (world_of [] [1]%nat)).
  - exact ReferenceFacts.ref_sample_contract.
  - exact ReferenceFacts.ref_apply_keeps_shape.
  - reflexivity.
  - reflexivity.
  - simpl. lia.
  - distinct_strings.
  - exact two_dirs_augmentable.
Defined.

Lemma testing_generator_prints_witness :
  exists r g' w',
    pull_nth (testing_generator_next (ref_fs three_dirs) (constructed default_args)
                three_samples "test") 3
             (testing_generator (constructed default_args) three_samples "test")
             (world_of [] [])
    = (r, g', w')
    /\ stdout w'
       = stdout (world_of [] [])
         ++ testing_banner three_samples "test"
         :: map (fun i => nth (i mod List.length three_samples)
                              (dict_keys three_samples) ""%string)
                (seq 0 4).
Proof.
  apply (@testing_generator_prints reference (ref_fs three_dirs)
           (constructed default_args) three_samples "test"%string 3%nat
           (world_of [] [])).
  - discriminate.
  - distinct_strings.
  - exact three_dirs_well_formed.
Defined.

(** The lines of the example. *)
Example lines_of_four_pulls :
  stdout (snd (pull_nth (testing_generator_next (ref_fs three_dirs)
                           (constructed default_args) three_samples "test") 3
                        (testing_generator (constructed default_args) three_samples
                           "test")
                        (world_of [] [])))
  = ["[*] creating a test testing generator with 3 samples";
     "/data/s1"; "/data/s2"; "/data/s3"; "/data/s1"]%string.
Proof. reflexivity. Qed.

Lemma lock_free_when_no_caller_inside_witness :
  Threadsafe.lock
    (Threadsafe.iterators
       (Threadsafe.run true
          [Threadsafe.mkEvent 0 0 true; Threadsafe.mkEvent 0 0 true;
           Threadsafe.mkEvent 0 0 true; Threadsafe.mkEvent 0 0 true;
           Threadsafe.mkEvent 0 0 true]
          Threadsafe.initial) 0%nat)
  = false.
Proof.
  apply (ThreadsafeFacts.lock_free_when_no_caller_inside
           [Threadsafe.mkEvent 0 0 true; Threadsafe.mkEvent 0 0 true;
            Threadsafe.mkEvent 0 0 true; Threadsafe.mkEvent 0 0 true;
            Threadsafe.mkEvent 0 0 true] 0%nat).
  intro t. simpl. unfold Threadsafe.update.
  destruct (t =? 0)%nat; reflexivity.
Defined.

(** The call of the example ended in the [IOError] of the generator body. *)
Example raising_call_logged :
  Threadsafe.log
    (Threadsafe.run true
       [Threadsafe.mkEvent 0 0 true; Threadsafe.mkEvent 0 0 true;
        Threadsafe.mkEvent 0 0 true; Threadsafe.mkEvent 0 0 true;
        Threadsafe.mkEvent 0 0 true]
       Threadsafe.initial)
  = [(0%nat, 0%nat, Threadsafe.Raised IOError)].
Proof. reflexivity. Qed.

End Scenarios.
